(** * phuffman: canonical Huffman code tables

    A shallow embedding of [src/CodeTableAdapter.cpp] (namespace [phuffman])
    and of the decoder contract declared in [test/cpu_decode.hpp].

    - [CodeTableAdapter_lengths] is the constructor taking a 256-entry
      length descriptor ([const char*], [size_t]);
    - [CodeTableAdapter_data] is the constructor taking raw data
      ([const unsigned char*], [size_t]);
    - [_countFrequencies], [_buildTree], [_buildTable], [_LeafComparator],
      [_FrequencyComparator] are the private helpers, under their own names;
    - [operator_lshift] and [operator_eq] are [operator<<] and [operator==].

    A failed [assert] and a dereference of a past-the-end iterator are
    results of the model ([Err AssertionFailed], [Err UndefinedBehaviour]),
    so that "the constructor completes" is a statement one can prove.

    A buffer ([pointer], [size]) is a list of bytes.  Symbols, frequencies,
    depths and codelengths are natural numbers: a symbol is an index below
    256, a frequency is a [size_t] counter that cannot exceed the size of
    the buffer, and a depth is at most the number of leaves.  The
    bit-pattern of a code is an integer of a fixed width, with its
    wrap-around written out. *)

From Stdlib Require Import ZArith QArith Qpower Lia Lqa.
From Stdlib.Strings Require Byte.
From stdpp Require Import base tactics option list sorting.

Close Scope Q_scope.
Open Scope nat_scope.

(** ** Failures *)

Inductive error : Type :=
| AssertionFailed      (* an [assert] of the source does not hold *)
| UndefinedBehaviour   (* [begin()] of an empty container is dereferenced *)
| CorruptStream.       (* the decoder finds no code within [max_codelength] bits *)

Inductive result (A : Type) : Type :=
| Ok (a : A)
| Err (e : error).
Arguments Ok {A} a.
Arguments Err {A} e.

#[global] Instance result_ret : MRet result := fun A a => Ok a.
#[global] Instance result_bind : MBind result := fun A B k r =>
  match r with
  | Ok a => k a
  | Err e => Err e
  end.

Definition assert (b : bool) : result unit :=
  if b then Ok tt else Err AssertionFailed.

(** A loop with a body that may fail: [for (x : xs) s = body(s, x)]. *)
Fixpoint for_each {A S : Type} (body : S -> A -> result S) (xs : list A) (s : S)
  : result S :=
  match xs with
  | [] => Ok s
  | x :: xs' => s' ← body s x; for_each body xs' s'
  end.

(** ** [std::sort]

    [std::sort(first, last, comp)] is not a stable sort: all the standard
    promises is that the result is a rearrangement of the input in which no
    later element is [comp]-smaller than an earlier one, provided [comp] is a
    strict weak ordering.  The development is carried out for every
    implementation with that contract. *)

Record StrictWeakOrder {A : Type} (comp : A -> A -> bool) : Prop := {
  swo_irrefl : forall x, comp x x = false;
  swo_trans : forall x y z, comp x y = true -> comp y z = true -> comp x z = true;
  swo_equiv_trans : forall x y z,
      comp x y = false -> comp y x = false ->
      comp y z = false -> comp z y = false ->
      comp x z = false /\ comp z x = false
}.

(** [x] may stand before [y] in a sequence sorted by [comp]. *)
Definition not_after {A : Type} (comp : A -> A -> bool) (x y : A) : Prop :=
  comp y x = false.

#[global] Instance not_after_dec {A : Type} (comp : A -> A -> bool) (x y : A) :
  Decision (not_after comp x y) := bool_eq_dec (comp y x) false.

Class StdSort : Type := {
  std_sort : forall {A : Type}, (A -> A -> bool) -> list A -> list A;
  std_sort_Permutation : forall (A : Type) (comp : A -> A -> bool) (l : list A),
      std_sort comp l ≡ₚ l;
  std_sort_sorted : forall (A : Type) (comp : A -> A -> bool) (l : list A),
      StrictWeakOrder comp -> StronglySorted (not_after comp) (std_sort comp l)
}.

(** One implementation, to run the model with: stdpp's merge sort. *)
#[global, refine] Instance merge_StdSort : StdSort := {|
  std_sort := fun A comp => merge_sort (not_after comp)
|}.
Proof.
  - intros A comp l. apply merge_sort_Permutation.
  - intros A comp l [Hirrefl Htrans Hequiv].
    assert (forall x y, comp x y = true -> comp y x = false) as Hasym.
    { intros x y Hxy. destruct (comp y x) eqn:Hyx; [|done].
      rewrite <- (Hirrefl x). symmetry. by eapply Htrans. }
    apply StronglySorted_merge_sort.
    + intros x y z Hxy Hyz. unfold not_after in *.
      destruct (comp z x) eqn:Hzx; [|done].
      destruct (comp x y) eqn:Hxy'.
      { rewrite <- Hyz. symmetry. by eapply Htrans. }
      destruct (comp y z) eqn:Hyz'.
      { rewrite <- Hxy. symmetry. by eapply Htrans. }
      destruct (Hequiv x y z) as [_ H]; congruence.
    + intros x y. unfold not_after.
      destruct (comp y x) eqn:Hyx; [right; by apply Hasym|by left].
Defined.

(** ** Data model *)

(** Modelled from the spec: [ALPHABET_SIZE] is a constant of [constants.h],
    which is not among the sources; the alphabet is fixed at 256 symbols, one
    per value of [unsigned char] (spec, section 3). *)
Definition ALPHABET_SIZE : nat := 256.

(** [struct Code]: a bit-pattern and its length, as [CodeMake(codelength, code)]
    builds it.  [codelength = 0] is "no code". *)
Record Code : Type := CodeMake { codelength : nat; code : Z }.

#[global] Instance Code_eq_dec : EqDecision Code.
Proof. solve_decision. Defined.

Record CodeTableInfo : Type := { max_codelength : nat }.

(** [struct CodeTable]: [codes[ALPHABET_SIZE]] and [info]. *)
Record CodeTable : Type := { codes : list Code; info : CodeTableInfo }.

(** [struct Frequency], as [FrequencyMake(symbol, frequency)] builds it. *)
Record Frequency : Type := FrequencyMake { symbol : nat; frequency : nat }.

(** Modelled from the spec: [DepthCounterNode] is declared in a header that is
    not among the sources.  The spec (section 3, TreeNode) says: a node is a
    leaf owning a symbol or an internal node exclusively owning two children;
    every node carries a [depth], which after the merge is the distance from
    the root and for a leaf becomes the symbol's codelength.

    The leaves are the only nodes the constructors keep a second pointer to
    (the vector [leaves]), so they live in a store of cells addressed by
    pointers; the father-to-child links are exclusive and are a plain tree
    over those pointers. *)
Record LeafCell : Type := { element : nat; depth : nat }.

(** Modelled from the spec: the nodes of the merge tree ([DepthCounterNode]
    again).  A leaf is a pointer to its cell; an internal node owns its two
    children.  The depth of an internal node is never read by the sources
    and is left out. *)
Inductive DepthCounterNode : Type :=
| Leaf (p : nat)
| Internal (left right : DepthCounterNode).

Abbreviation Store := (list LeafCell).

#[global] Instance LeafCell_inhabited : Inhabited LeafCell :=
  populate {| element := 0; depth := 0 |}.
#[global] Instance Code_inhabited : Inhabited Code :=
  populate (CodeMake 0 0).

(** Modelled from the spec: the field [isLeaf] of [DepthCounterNode]. *)
Definition isLeaf (n : DepthCounterNode) : bool :=
  match n with
  | Leaf _ => true
  | Internal _ _ => false
  end.

(** [typedef std::vector<DepthCounterNode*> Nodes]: pointers to leaves. *)
Abbreviation Nodes := (list nat).

(** [Tree] is a [std::multimap<size_t, DepthCounterNode*>]: entries in
    ascending key order, equal keys in insertion order. *)
Abbreviation Tree := (list (nat * DepthCounterNode)).

(** [tree.insert(std::make_pair(k, v))]: behind the entries with a key that
    is not greater. *)
Fixpoint tree_insert (k : nat) (v : DepthCounterNode) (t : Tree) : Tree :=
  match t with
  | [] => [(k, v)]
  | (k', v') :: t' =>
      if k <? k' then (k, v) :: (k', v') :: t'
      else (k', v') :: tree_insert k v t'
  end.

(** Modelled from the spec: [new DepthCounterNode(symbol)], the constructor
    of a leaf.  A fresh cell for the symbol; its depth is filled in later
    (spec, section 3) and starts at 0. *)
Definition new_leaf (sym : nat) (st : Store) : nat * Store :=
  (length st, st ++ [{| element := sym; depth := 0 |}]).

Definition set_depth (d : nat) (c : LeafCell) : LeafCell :=
  {| element := element c; depth := d |}.

Definition inc_depth (c : LeafCell) : LeafCell :=
  set_depth (S (depth c)) c.

(** The leaves below a node. *)
Fixpoint leaf_pointers (n : DepthCounterNode) : list nat :=
  match n with
  | Leaf p => [p]
  | Internal l r => leaf_pointers l ++ leaf_pointers r
  end.

(** Modelled from the spec: [new DepthCounterNode(left, right)], the
    constructor of an internal node.  The new node becomes the father of
    both; every leaf below it is one step further from the root than before,
    so that after the last merge every leaf holds its distance from the root
    (spec 4.1, steps 4 and 5; the sources have no later pass over the
    tree). *)
Definition new_internal (l r : DepthCounterNode) (st : Store)
  : DepthCounterNode * Store :=
  (Internal l r,
   fold_left (fun s p => alter inc_depth p s) (leaf_pointers l ++ leaf_pointers r) st).

(** ** Comparators *)

(** "Compare nodes first by codelength then by value": longer codes first,
    and among equal lengths the smaller symbol first. *)
Definition _LeafComparator (st : Store) (left right : nat) : bool :=
  let l := st !!! left in
  let r := st !!! right in
  (depth r <? depth l) || ((depth l =? depth r) && (element l <? element r)).

Definition _FrequencyComparator (left right : Frequency) : bool :=
  frequency left <? frequency right.

(** The character a codelength is written as. *)
Definition byte_of_nat (n : nat) : Byte.byte :=
  default Byte.x00 (Byte.of_nat (n mod 256)).

Section Phuffman.

(** The constants [MAXIMUM_CODELENGTH] and [MAXIMUM_DATABLOCK_SIZE] of
    [constants.h] and the width of the field [Code::code] are not among the
    sources: they are parameters. *)
Variable code_bits : Z.
Variable MAXIMUM_CODELENGTH : nat.
Variable MAXIMUM_DATABLOCK_SIZE : nat.

(** The [std::sort] of the standard library the program is linked with. *)
Context {sorter : StdSort}.

(** [Code::code] is an unsigned integer of [code_bits] bits, at least as wide
    as [int] (so that no integer promotion takes place):
    [last_code.code + 1] wraps around, and a right shift by [code_bits] or
    more is undefined. *)
Definition code_succ (c : Z) : Z := ((c + 1) mod 2 ^ code_bits)%Z.

Definition shift_right (c : Z) (n : nat) : result Z :=
  if (Z.of_nat n <? code_bits)%Z then Ok (Z.shiftr c (Z.of_nat n))
  else Err UndefinedBehaviour.

(** ** [_countFrequencies] *)

(** [for (i < size) ++freqs[data[i]]] *)
Definition count_bytes (data : list Byte.byte) : list nat :=
  fold_left (fun freqs symbol => alter S (Byte.to_nat symbol) freqs)
            data (replicate ALPHABET_SIZE 0).

(** [for (i < ALPHABET_SIZE) if (freqs[i] > 0) frequencies.push_back(...)] *)
Definition collect_frequencies (freqs : list nat) : list Frequency :=
  fold_left (fun frequencies i =>
               if 0 <? freqs !!! i
               then frequencies ++ [FrequencyMake i (freqs !!! i)]
               else frequencies)
            (seq 0 ALPHABET_SIZE) [].

Definition _countFrequencies (data : list Byte.byte) : list Frequency :=
  std_sort _FrequencyComparator (collect_frequencies (count_bytes data)).

(** ** [_buildTree] *)

(** One round takes the two entries with the smallest keys out of the tree
    and puts their father back in.  With fewer than two entries the
    iterator [second] is dereferenced past the end. *)
Fixpoint _buildTree_loop (n : nat) (tree : Tree) (st : Store)
  : result (Tree * Store) :=
  match n with
  | 0 => Ok (tree, st)
  | S n' =>
      match tree with
      | (f1, n1) :: (f2, n2) :: rest =>
          let freq := f1 + f2 in
          let '(node, st') := new_internal n1 n2 st in
          _buildTree_loop n' (tree_insert freq node rest) st'
      | _ => Err UndefinedBehaviour
      end
  end.

(** The loop runs [size - 1] times; its only caller guards [size > 1], so
    the subtraction in [size_t] does not wrap. *)
Definition _buildTree (tree : Tree) (st : Store)
  : result (DepthCounterNode * Store) :=
  '(tree', st') ← _buildTree_loop (length tree - 1) tree st;
  assert (length tree' =? 1);;
  match tree' with
  | (_, root) :: _ => Ok (root, st')
  | [] => Err UndefinedBehaviour
  end.

(** ** [_buildTable] *)

(** [_adaptee.codes[sym] = c] *)
Definition set_code (sym : nat) (c : Code) (t : CodeTable) : CodeTable :=
  {| codes := <[sym := c]> (codes t); info := info t |}.

(** The [while] loop: the code of the current leaf from the code of the
    one before. *)
Fixpoint _buildTable_loop (st : Store) (nodes : Nodes) (last_code : Code)
         (adaptee : CodeTable) : result CodeTable :=
  match nodes with
  | [] => Ok adaptee
  | current_node :: rest =>
      let d := depth (st !!! current_node) in
      pattern ←
        (if d =? codelength last_code
         then Ok (code_succ (code last_code))
         else
           assert (d <? codelength last_code);;
           shift_right (code_succ (code last_code)) (codelength last_code - d));
      let last_code' := CodeMake d pattern in
      assert (d <? MAXIMUM_CODELENGTH);;
      _buildTable_loop st rest last_code'
                       (set_code (element (st !!! current_node)) last_code' adaptee)
  end.

(** The first leaf is read without a check: on no leaves at all
    [leaves.begin()] is dereferenced past the end. *)
Definition _buildTable (st : Store) (leaves : Nodes) (adaptee : CodeTable)
  : result CodeTable :=
  match leaves with
  | [] => Err UndefinedBehaviour
  | current_node :: rest =>
      let d := depth (st !!! current_node) in
      let last_code := CodeMake d 0 in
      _buildTable_loop st rest last_code
        (set_code (element (st !!! current_node)) last_code
                  {| codes := codes adaptee; info := {| max_codelength := d |} |})
  end.

(** [memset(_adaptee.codes, 0, ...)]; [info] is not initialised by the
    constructors and is overwritten by [_buildTable] before anything reads it. *)
Definition zero_table : CodeTable :=
  {| codes := replicate ALPHABET_SIZE (CodeMake 0 0);
     info := {| max_codelength := 0 |} |}.

(** ** Constructor from a length descriptor *)

(** The body of the loop over the symbols: a leaf for every non-zero length. *)
Definition push_length_leaf (lengths : list nat) (s : Store * Nodes) (i : nat)
  : result (Store * Nodes) :=
  let '(st, leaves) := s in
  if 0 <? lengths !!! i then
    assert (lengths !!! i <? MAXIMUM_CODELENGTH);;
    let '(leaf, st1) := new_leaf i st in
    let st2 := alter (set_depth (lengths !!! i)) leaf st1 in
    Ok (st2, leaves ++ [leaf])
  else Ok (st, leaves).

Definition CodeTableAdapter_lengths (file_data : list Byte.byte) : result CodeTable :=
  assert (length file_data =? ALPHABET_SIZE);;
  let lengths := Byte.to_nat <$> file_data in
  '(st, leaves) ← for_each (push_length_leaf lengths) (seq 0 ALPHABET_SIZE) ([], []);
  _buildTable st (std_sort (_LeafComparator st) leaves) zero_table.

(** ** Constructor from raw data *)

(** The body of the loop over the frequencies: a leaf, in the tree under its
    frequency and at the end of [leaves]. *)
Definition push_frequency_leaf (s : Store * Tree * Nodes) (f : Frequency)
  : Store * Tree * Nodes :=
  let '(st, tree, leaves) := s in
  let '(leaf, st1) := new_leaf (symbol f) st in
  (st1, tree_insert (frequency f) (Leaf leaf) tree, leaves ++ [leaf]).

(** Lines 57-78 of the constructor, the "resolver" of the spec: the leaves,
    the tree and the depths.  With a single symbol the tree is not built and
    the leaf gets depth 1; with none, [tree.begin()] is dereferenced past the
    end. *)
Definition resolve (data : list Byte.byte) : result (Store * Nodes) :=
  let frequencies := _countFrequencies data in
  let '(st, tree, leaves) := fold_left push_frequency_leaf frequencies ([], [], []) in
  if 1 <? length tree then
    '(root, st') ← _buildTree tree st;
    Ok (st', leaves)
  else
    match tree with
    | [] => Err UndefinedBehaviour
    | (_, root) :: _ =>
        assert (isLeaf root);;
        match root with
        | Leaf p => Ok (alter (set_depth 1) p st, leaves)     (* root->depth = 1 *)
        | Internal _ _ => Err UndefinedBehaviour
        end
    end.

Definition CodeTableAdapter_data (data : list Byte.byte) : result CodeTable :=
  assert (length data <=? MAXIMUM_DATABLOCK_SIZE);;
  '(st, leaves) ← resolve data;
  _buildTable st (std_sort (_LeafComparator st) leaves) zero_table.

(** ** [operator<<] and [operator==] *)

(** [os << table[i].codelength] for the 256 symbols: the codelength is a
    field of character size (the header declaring it is not among the
    sources; spec, section 6: the table is serialised as the sequence of its
    256 codelengths). *)
Definition operator_lshift (table : CodeTable) : list Byte.byte :=
  (fun c => byte_of_nat (codelength c)) <$> codes table.

(** Modelled from the spec: the object of a [Code] in memory.  [struct Code]
    is declared in a header that is not among the sources; as for
    [operator<<], [codelength] is a field of character size, and [code] is
    an unsigned integer of [code_bits] bits, aligned to its size.  The
    object is the byte of [codelength], the padding bytes up to the
    alignment of [code], and the bytes of [code], lowest first.  The
    assignment of a [Code] that [CodeMake] returns determines the bytes of
    the two fields only: the padding bytes of an entry are not determined by
    the table, and are an argument of the model. *)
Definition code_bytes : nat := Z.to_nat ((code_bits + 7) / 8).

Definition padding_bytes : nat := code_bytes - 1.

Definition sizeof_Code : nat := 1 + padding_bytes + code_bytes.

Definition integer_bytes (n : nat) (z : Z) : list Byte.byte :=
  (fun j => byte_of_nat (Z.to_nat (Z.shiftr z (8 * Z.of_nat j) mod 256)))
    <$> seq 0 n.

Definition Code_object (padding : nat -> Byte.byte) (c : Code) : list Byte.byte :=
  byte_of_nat (codelength c)
    :: (padding <$> seq 0 padding_bytes) ++ integer_bytes code_bytes (code c).

(** The array [codes] of a table in memory; [padding i j] is padding byte
    [j] of entry [i]. *)
Definition codes_object (padding : nat -> nat -> Byte.byte) (table : CodeTable)
  : list Byte.byte :=
  mjoin (imap (fun i c => Code_object (padding i) c) (codes table)).

(** [memcmp(s1, s2, n)]: the difference of the first two bytes that differ
    among the first [n], and 0 if there are none. *)
Fixpoint memcmp (s1 s2 : list Byte.byte) (n : nat) : Z :=
  match n, s1, s2 with
  | S n', b1 :: s1', b2 :: s2' =>
      if Byte.eqb b1 b2 then memcmp s1' s2' n'
      else (Z.of_nat (Byte.to_nat b1) - Z.of_nat (Byte.to_nat b2))%Z
  | _, _, _ => 0%Z
  end.

(** [operator==]:
    [memcmp(left_table->codes, right_table->codes, sizeof(Code)*ALPHABET_SIZE) == 0],
    on the two arrays as they lie in memory, padding bytes included. *)
Definition operator_eq (left_padding right_padding : nat -> nat -> Byte.byte)
           (l r : CodeTable) : bool :=
  (memcmp (codes_object left_padding l) (codes_object right_padding r)
          (sizeof_Code * ALPHABET_SIZE) =? 0)%Z.

(** ** Accessors *)

(** [info()]: the [info] of the table. *)
Definition CodeTableAdapter_info (table : CodeTable) : CodeTableInfo :=
  info table.

(** [at(index)]: [assert(index < ALPHABET_SIZE)], then
    [_adaptee.codes[index]]. *)
Definition CodeTableAdapter_at (table : CodeTable) (index : nat) : result Code :=
  assert (index <? ALPHABET_SIZE);;
  Ok (codes table !!! index).

(** [operator[]] is [at]. *)
Definition operator_index (table : CodeTable) (index : nat) : result Code :=
  CodeTableAdapter_at table index.

(** [c_table()]: a pointer to [_adaptee], the table itself. *)
Definition c_table (table : CodeTable) : CodeTable := table.

(** ** Kraft sums and prefixes *)

(** The sum of [2^-length] over a list of codelengths. *)
Definition kraft_sum (lengths : list nat) : Q :=
  foldr (fun l acc => Qpower 2 (- Z.of_nat l) + acc)%Q 0%Q lengths.

(** The codelengths of the assigned codes of a table. *)
Definition assigned_lengths (table : CodeTable) : list nat :=
  filter (fun l => 0 < l) (codelength <$> codes table).

(** The non-zero entries of a length descriptor. *)
Definition descriptor_lengths (file_data : list Byte.byte) : list nat :=
  filter (fun l => 0 < l) (Byte.to_nat <$> file_data).

(** The bits of a code as they are laid into the stream, first the most
    significant of its [codelength] bits. *)
Definition code_to_bits (c : Code) : list bool :=
  (fun k => Z.testbit (code c) (Z.of_nat k)) <$> reverse (seq 0 (codelength c)).

(** No assigned code is a bit-prefix of the code of another symbol. *)
Definition prefix_free (table : CodeTable) : Prop :=
  forall (i j : nat) (ci cj : Code),
    codes table !! i = Some ci -> codes table !! j = Some cj ->
    codelength ci ≠ 0 -> codelength cj ≠ 0 -> i ≠ j ->
    ¬ code_to_bits ci `prefix_of` code_to_bits cj.

(** ** Encoder and decoder

    Modelled from the spec: [CPU::Decode] is only declared
    ([test/cpu_decode.hpp]) and the encoder is an external collaborator; what
    follows is section 4.3 of the spec.  The encoder lays the codes back to
    back, most significant bit first, into words of [word_bits] bits and pads
    the last word with zero bits.  The decoder starts block [i] at bit
    [i * block_int_size * word_bits + block_bit_offsets[i]], reads one bit at a
    time and tests the bits read so far against the assigned codes, for at
    most [max_codelength] bits per symbol, until [block_sym_sizes[i]] symbols
    are out.  Padding bits are never read. *)

(** The number of bits of a word of the stream ([unsigned int]). *)
Variable word_bits : nat.

(** Modelled from the spec: the encoded stream with its block metadata, the
    arguments of [CPU::Decode]. *)
Record Encoded : Type := {
  encoded_data : list Z;
  encoded_data_trail_zeroes : nat;
  block_int_size : nat;
  block_bit_offsets : list nat;
  block_sym_sizes : list nat;
  block_count : nat
}.

(** Modelled from the spec: one more bit at the low end of a pattern. *)
Definition push_bit (w : Z) (b : bool) : Z := (2 * w + Z.b2z b)%Z.

(** Modelled from the spec: a word from its bits, most significant first. *)
Definition word_of_bits (bits : list bool) : Z := fold_left push_bit bits 0%Z.

(** Modelled from the spec: the bit stream cut into [n] words, the last one
    padded with zero bits. *)
Fixpoint pack_words (n : nat) (bits : list bool) : list Z :=
  match n with
  | 0 => []
  | S n' =>
      word_of_bits (take word_bits (bits ++ replicate word_bits false))
        :: pack_words n' (drop word_bits bits)
  end.

(** Modelled from the spec: the codes of the bytes of [data], back to back. *)
Definition encode_bits (table : CodeTable) (data : list Byte.byte) : list bool :=
  data ≫= (fun b => code_to_bits (codes table !!! Byte.to_nat b)).

(** Modelled from the spec: the encoder (an external collaborator), for the
    whole of [data] as a single block. *)
Definition Encode (table : CodeTable) (data : list Byte.byte) : Encoded :=
  let bits := encode_bits table data in
  let n := (length bits + word_bits - 1) / word_bits in
  {| encoded_data := pack_words n bits;
     encoded_data_trail_zeroes := n * word_bits - length bits;
     block_int_size := n;
     block_bit_offsets := [0];
     block_sym_sizes := [length data];
     block_count := 1 |}.

(** Modelled from the spec: the bits of the stream that are not padding. *)
Definition stream_bits (e : Encoded) : nat :=
  length (encoded_data e) * word_bits - encoded_data_trail_zeroes e.

(** Modelled from the spec: the bit at a position of the stream; the
    trailing zero bits are not read. *)
Definition bit_at (e : Encoded) (pos : nat) : result bool :=
  if pos <? stream_bits e
  then Ok (Z.testbit (encoded_data e !!! (pos / word_bits))
                     (Z.of_nat (word_bits - 1 - pos mod word_bits)))
  else Err CorruptStream.

(** Modelled from the spec: the symbol whose assigned code is [pattern] at
    length [len]. *)
Definition find_symbol (table : CodeTable) (pattern : Z) (len : nat)
  : option (nat * Code) :=
  list_find (fun c => c = CodeMake len pattern) (codes table).

(** Modelled from the spec: one symbol, reading one bit at a time, for at
    most [lookahead] bits. *)
Fixpoint decode_symbol (lookahead : nat) (table : CodeTable) (e : Encoded)
         (pos : nat) (pattern : Z) (len : nat) : result (nat * nat) :=
  match lookahead with
  | 0 => Err CorruptStream
  | S lookahead' =>
      b ← bit_at e pos;
      let pattern' := push_bit pattern b in
      match find_symbol table pattern' (S len) with
      | Some (sym, _) => Ok (sym, S pos)
      | None => decode_symbol lookahead' table e (S pos) pattern' (S len)
      end
  end.

(** Modelled from the spec: [count] symbols of a block from bit [pos] on. *)
Fixpoint decode_block (count : nat) (table : CodeTable) (e : Encoded) (pos : nat)
  : result (list Byte.byte) :=
  match count with
  | 0 => Ok []
  | S count' =>
      '(sym, pos') ← decode_symbol (max_codelength (info table)) table e pos 0%Z 0;
      rest ← decode_block count' table e pos';
      Ok (byte_of_nat sym :: rest)
  end.

(** Modelled from the spec: [CPU::Decode], of which the sources have the
    declaration only.  The blocks in order, the output of block [i] behind
    the output of the blocks before it. *)
Definition Decode (table : CodeTable) (e : Encoded) : result (list Byte.byte) :=
  for_each (fun out i =>
              block ← decode_block (block_sym_sizes e !!! i) table e
                        (i * block_int_size e * word_bits + block_bit_offsets e !!! i);
              Ok (out ++ block))
           (seq 0 (block_count e)) [].


(** ** Auxiliary definitions of the proofs *)

(** The cells a vector of leaf pointers refers to. *)
Definition cells_of (st : Store) (nodes : Nodes) : list LeafCell :=
  (st !!!.) <$> nodes.

(** One step of the loop of [_buildTable] without its assertions. *)
Definition next_code (last : Code) (d : nat) : Code :=
  CodeMake d (if d =? codelength last
              then code_succ (code last)
              else Z.shiftr (code_succ (code last)) (Z.of_nat (codelength last - d))).

(** The codes the loop hands out after [last], for the depths it meets. *)
Fixpoint walk (last : Code) (depths : list nat) : list Code :=
  match depths with
  | [] => []
  | d :: ds => next_code last d :: walk (next_code last d) ds
  end.

(** What the assertions of the loop ask of the depths it meets. *)
Fixpoint chain (l : nat) (depths : list nat) : Prop :=
  match depths with
  | [] => True
  | d :: ds =>
      d <= l /\ d < MAXIMUM_CODELENGTH /\
      (d < l -> (Z.of_nat (l - d) < code_bits)%Z) /\ chain d ds
  end.

Definition write_codes (cells : list LeafCell) (cs : list Code) (t : CodeTable)
  : CodeTable :=
  fold_left (fun t ck => set_code (element ck.1) ck.2 t) (zip cells cs) t.

(** The same step in unbounded integers. *)
Definition step (last : Code) (d : nat) : Code :=
  CodeMake d (Z.shiftr (code last + 1) (Z.of_nat (codelength last - d))).

Fixpoint canon (last : Code) (depths : list nat) : list Code :=
  match depths with
  | [] => []
  | d :: ds => step last d :: canon (step last d) ds
  end.

(** Kraft sums scaled by [2^L]: a code of length [d] weighs [2^(L-d)]. *)
Definition weight (L d : nat) : Z := (2 ^ Z.of_nat (L - d))%Z.

Definition ksum (L : nat) (depths : list nat) : Z :=
  foldr (fun d acc => weight L d + acc)%Z 0%Z depths.

(** The interval of the codes of length [L] that a code is a prefix of. *)
Definition lo (L : nat) (c : Code) : Z := (code c * weight L (codelength c))%Z.
Definition hi (L : nat) (c : Code) : Z := ((code c + 1) * weight L (codelength c))%Z.

Definition fits (c : Code) : Prop :=
  (0 <= code c < 2 ^ Z.of_nat (codelength c))%Z.

(** The codes of the cells in sorted order, the first one being 0. *)
Definition canonical_codes (sorted : list LeafCell) : list Code :=
  match sorted with
  | [] => []
  | c :: cs => CodeMake (depth c) 0 :: canon (CodeMake (depth c) 0) (depth <$> cs)
  end.

(** The leaves as the builder meets them. *)
Definition sorted_cells (st : Store) (leaves : Nodes) : list LeafCell :=
  cells_of st (std_sort (_LeafComparator st) leaves).

(** The leaves of a length descriptor: a cell for every non-zero length. *)
Definition length_cells (lengths : list nat) (symbols : list nat) : list LeafCell :=
  (fun i => {| element := i; depth := lengths !!! i |})
    <$> filter (fun i => 0 < lengths !!! i) symbols.

(** How often the symbol [i] occurs in a buffer. *)
Definition occurrences (i : nat) (data : list Byte.byte) : nat :=
  length (filter (fun b => Byte.to_nat b = i) data).

(** The symbols that occur, in ascending order. *)
Definition used_symbols (data : list Byte.byte) : list nat :=
  filter (fun i => 0 < occurrences i data) (seq 0 ALPHABET_SIZE).

(** The leaves below a node, each with its distance from that node. *)
Fixpoint leaf_depths (n : DepthCounterNode) : list (nat * nat) :=
  match n with
  | Leaf p => [(p, 0)]
  | Internal l r => prod_map id S <$> (leaf_depths l ++ leaf_depths r)
  end.

(** The invariant of the merge: every cell hangs in exactly one tree of the
    forest, and holds its distance from the root of that tree. *)
Definition forest_ok (nodes : list DepthCounterNode) (st : Store) : Prop :=
  nodes ≫= leaf_pointers ≡ₚ seq 0 (length st) /\
  Forall (fun n => Forall (fun pd => depth <$> st !! pd.1 = Some pd.2) (leaf_depths n))
         nodes.

(** A table for [data]: prefix-free, and every byte of [data] has a code
    that fits and is no longer than [max_codelength]. *)
Definition code_book (t : CodeTable) (data : list Byte.byte) : Prop :=
  prefix_free t /\
  Forall (fun b => exists c, codes t !! Byte.to_nat b = Some c /\
                             codelength c ≠ 0 /\ fits c /\
                             codelength c <= max_codelength (info t)) data.

(** The height of a tree, and its weight under a weight [w] of the leaves. *)
Fixpoint height (n : DepthCounterNode) : nat :=
  match n with
  | Leaf _ => 0
  | Internal l r => S (height l `max` height r)
  end.

Fixpoint weight_of (w : nat -> nat) (n : DepthCounterNode) : nat :=
  match n with
  | Leaf p => w p
  | Internal l r => weight_of w l + weight_of w r
  end.

Fixpoint fib (n : nat) : nat :=
  match n with
  | 0 => 0
  | S m => match m with
           | 0 => 1
           | S k => fib k + fib m
           end
  end.

(** Every subtree of height [h] weighs at least [fib (h + 2)]. *)
Fixpoint fibbed (w : nat -> nat) (n : DepthCounterNode) : Prop :=
  match n with
  | Leaf p => 1 <= w p
  | Internal l r =>
      fibbed w l /\ fibbed w r /\
      fib (S (height l `max` height r) + 2) <= weight_of w l + weight_of w r
  end.

(** The heavier of the two children of a node. *)
Definition child_weight (w : nat -> nat) (n : DepthCounterNode) : nat :=
  match n with
  | Leaf _ => 0
  | Internal l r => weight_of w l `max` weight_of w r
  end.

(** The invariant of the merge that bounds the heights: the entries are in
    ascending order of their keys, a key is the weight of its tree, and no
    tree of the forest is lighter than a child of a tree of the forest. *)
Definition fib_ok (w : nat -> nat) (tree : Tree) : Prop :=
  StronglySorted (fun a b => a.1 <= b.1) tree /\
  Forall (fun kn => kn.1 = weight_of w kn.2 /\ fibbed w kn.2) tree /\
  (forall kn kn', kn ∈ tree -> kn' ∈ tree -> child_weight w kn.2 <= kn'.1).

#[global] Instance Frequency_inhabited : Inhabited Frequency :=
  populate (FrequencyMake 0 0).

(** A forest of leaves, as the constructor hands it to [_buildTree]. *)
Definition leaf_forest (w : nat -> nat) (tree : Tree) : Prop :=
  StronglySorted (fun a b => a.1 <= b.1) tree /\
  Forall (fun kn => exists p, kn.2 = Leaf p /\ kn.1 = w p /\ 1 <= w p) tree.

(** A table one of the two constructors has built. *)
Definition constructed (t : CodeTable) : Prop :=
  (exists data, CodeTableAdapter_data data = Ok t) \/
  (exists file_data, CodeTableAdapter_lengths file_data = Ok t).

(** The first leaf below a node. *)
Fixpoint first_leaf (n : DepthCounterNode) : nat :=
  match n with
  | Leaf p => p
  | Internal l _ => first_leaf l
  end.

(** By how much the rest of the merge, from store [st] to store [st'],
    deepens the leaves of a tree of the forest. *)
Definition gain (st st' : Store) (n : DepthCounterNode) : nat :=
  depth (st' !!! first_leaf n) - depth (st !!! first_leaf n).

Definition rises (st st' : Store) (n : DepthCounterNode) : Prop :=
  forall p, p ∈ leaf_pointers n ->
            depth (st' !!! p) = depth (st !!! p) + gain st st' n.

(** Along the multimap the trees gain less and less depth, and a tree that
    is not a leaf gains at most one level less than any tree before it. *)
Definition gain_order (st st' : Store) (x y : nat * DepthCounterNode) : Prop :=
  gain st st' y.2 <= gain st st' x.2 /\
  (isLeaf y.2 = false -> gain st st' x.2 <= gain st st' y.2 + 1).

(** The number of code bits a buffer takes when the symbols with the
    frequencies [weights] get codes of the lengths [depths]. *)
Definition cost (weights depths : list nat) : nat :=
  sum_list (zip_with Nat.mul weights depths).

(** * Proofs *)

Lemma ALPHABET_SIZE_eq : ALPHABET_SIZE = 256.
Proof. reflexivity. Qed.

#[local] Opaque ALPHABET_SIZE.

(** ** The result monad *)

Lemma bind_Ok {A B : Type} (r : result A) (k : A -> result B) (b : B) :
  r ≫= k = Ok b <-> exists a, r = Ok a /\ k a = Ok b.
Proof.
  destruct r as [a|e]; simpl; split.
  - intros Hk. by exists a.
  - by intros (a' & [= <-] & Hk).
  - done.
  - by intros (a' & ? & _).
Qed.

Lemma bind_Ok_l {A B : Type} (a : A) (k : A -> result B) : Ok a ≫= k = k a.
Proof. done. Qed.

Lemma bind_Err_l {A B : Type} (e : error) (k : A -> result B) : Err e ≫= k = Err e.
Proof. done. Qed.

Lemma assert_Ok (b : bool) (u : unit) : assert b = Ok u <-> b = true.
Proof. destruct b, u; simpl; split; done. Qed.

Lemma assert_true (b : bool) : b = true -> assert b = Ok tt.
Proof. by intros ->. Qed.

Ltac inv_result :=
  repeat match goal with
         | H : _ ≫= _ = Ok _ |- _ =>
             apply bind_Ok in H; destruct H as (? & ? & H)
         | H : assert _ = Ok _ |- _ => apply assert_Ok in H
         | H : Ok _ = Ok _ |- _ => injection H as H
         | H : Err _ = Ok _ |- _ => discriminate H
         end.

(** ** The comparators are strict weak orderings *)

Lemma _LeafComparator_spec (st : Store) (l r : nat) :
  _LeafComparator st l r = true <->
  depth (st !!! r) < depth (st !!! l) \/
  (depth (st !!! l) = depth (st !!! r) /\ element (st !!! l) < element (st !!! r)).
Proof.
  unfold _LeafComparator.
  rewrite orb_true_iff, andb_true_iff, !Nat.ltb_lt, Nat.eqb_eq. tauto.
Qed.

Lemma _LeafComparator_false (st : Store) (l r : nat) :
  _LeafComparator st l r = false <->
  depth (st !!! l) <= depth (st !!! r) /\
  (depth (st !!! l) = depth (st !!! r) -> element (st !!! r) <= element (st !!! l)).
Proof.
  rewrite <- not_true_iff_false, _LeafComparator_spec. lia.
Qed.

Lemma _LeafComparator_swo (st : Store) : StrictWeakOrder (_LeafComparator st).
Proof.
  split.
  - intros x. apply _LeafComparator_false. lia.
  - intros x y z. rewrite !_LeafComparator_spec. lia.
  - intros x y z. rewrite !_LeafComparator_false. lia.
Qed.

Lemma _FrequencyComparator_swo : StrictWeakOrder _FrequencyComparator.
Proof.
  unfold _FrequencyComparator. split.
  - intros x. apply Nat.ltb_irrefl.
  - intros x y z. rewrite !Nat.ltb_lt. lia.
  - intros x y z. rewrite !Nat.ltb_ge. lia.
Qed.

(** What [std::sort] with [_LeafComparator] guarantees: descending depth,
    and ascending symbol among equal depths. *)
Definition leaf_le (a b : LeafCell) : Prop :=
  depth b <= depth a /\ (depth a = depth b -> element a <= element b).

Lemma sorted_leaves_cells (st : Store) (leaves : Nodes) :
  StronglySorted leaf_le ((st !!!.) <$> std_sort (_LeafComparator st) leaves).
Proof.
  apply StronglySorted_fmap with (R1 := not_after (_LeafComparator st)).
  - intros x y Hxy. apply _LeafComparator_false in Hxy. unfold leaf_le. lia.
  - apply std_sort_sorted, _LeafComparator_swo.
Qed.

Lemma sorted_leaves_Permutation (st : Store) (leaves : Nodes) :
  (st !!!.) <$> std_sort (_LeafComparator st) leaves ≡ₚ (st !!!.) <$> leaves.
Proof. by rewrite std_sort_Permutation. Qed.

#[local] Instance leaf_le_antisym : AntiSymm (=) leaf_le.
Proof.
  intros [e1 d1] [e2 d2] [H1 H2] [H3 H4]; simpl in *.
  assert (d1 = d2) as -> by lia. f_equal. lia.
Qed.

(** ** [_buildTable]: what it writes *)

Lemma _buildTable_loop_spec (st : Store) (nodes : Nodes) (last : Code)
      (t t' : CodeTable) :
  _buildTable_loop st nodes last t = Ok t' <->
  chain (codelength last) (depth <$> cells_of st nodes) /\
  t' = write_codes (cells_of st nodes) (walk last (depth <$> cells_of st nodes)) t.
Proof.
  revert last t. induction nodes as [|p nodes IH]; intros last t.
  - simpl. unfold write_codes. simpl. split; [by intros [= <-]|by intros [_ ->]].
  - cbn [_buildTable_loop cells_of fmap list_fmap chain walk].
    fold (cells_of st nodes). unfold write_codes. cbn [zip zip_with fold_left].
    fold (write_codes (cells_of st nodes)
            (walk (next_code last (depth (st !!! p))) (depth <$> cells_of st nodes))).
    set (d := depth (st !!! p)). unfold next_code at 1 2 3.
    destruct (Nat.eqb_spec d (codelength last)) as [Heq|Hne]; simpl.
    + destruct (Nat.ltb_spec d MAXIMUM_CODELENGTH) as [Hlt|Hge]; simpl.
      * rewrite IH. unfold write_codes. simpl. intuition lia.
      * split; [done|]. lia.
    + destruct (Nat.ltb_spec d (codelength last)) as [Hlt'|Hge']; simpl.
      * unfold shift_right.
        destruct (Z.ltb_spec (Z.of_nat (codelength last - d)) code_bits) as [Hsh|Hsh];
          simpl.
        -- destruct (Nat.ltb_spec d MAXIMUM_CODELENGTH) as [Hlt|Hge]; simpl.
           ++ rewrite IH. unfold write_codes. simpl. intuition lia.
           ++ split; [done|]. lia.
        -- split; [done|]. lia.
      * split; [done|]. lia.
Qed.

Lemma _buildTable_spec (st : Store) (leaves : Nodes) (t t' : CodeTable) :
  _buildTable st leaves t = Ok t' <->
  exists c cells,
    cells_of st leaves = c :: cells /\
    chain (depth c) (depth <$> cells) /\
    t' = write_codes (c :: cells)
           (CodeMake (depth c) 0 :: walk (CodeMake (depth c) 0) (depth <$> cells))
           {| codes := codes t; info := {| max_codelength := depth c |} |}.
Proof.
  destruct leaves as [|p leaves]; simpl.
  - split; [done|]. by intros (c & cells & ? & _).
  - rewrite _buildTable_loop_spec. simpl. split.
    + intros [Hch ->]. by exists (st !!! p), (cells_of st leaves).
    + intros (c & cells & [= <- <-] & Hch & ->). done.
Qed.

Lemma write_codes_info (cells : list LeafCell) (cs : list Code) (t : CodeTable) :
  info (write_codes cells cs t) = info t.
Proof.
  unfold write_codes. revert t. induction (zip cells cs) as [|ck l IH]; intros t;
    simpl; [done|by rewrite IH].
Qed.

Lemma write_codes_length (cells : list LeafCell) (cs : list Code) (t : CodeTable) :
  length (codes (write_codes cells cs t)) = length (codes t).
Proof.
  unfold write_codes. revert t. induction (zip cells cs) as [|ck l IH]; intros t;
    simpl; [done|]. rewrite IH. simpl. by rewrite length_insert.
Qed.

(** Frame: only the entries of the symbols of [cells] are written. *)
Lemma write_codes_other (cells : list LeafCell) (cs : list Code) (t : CodeTable)
      (s : nat) :
  s ∉ element <$> cells ->
  codes (write_codes cells cs t) !! s = codes t !! s.
Proof.
  unfold write_codes. revert cs t.
  induction cells as [|c cells IH]; intros cs t Hs; [done|].
  destruct cs as [|k cs]; [done|]. simpl.
  rewrite fmap_cons, not_elem_of_cons in Hs. destruct Hs as [Hne Hs].
  rewrite IH by done. simpl. by rewrite list_lookup_insert_ne.
Qed.

Lemma write_codes_lookup (cells : list LeafCell) (cs : list Code) (t : CodeTable)
      (i : nat) (c : LeafCell) (k : Code) :
  NoDup (element <$> cells) ->
  cells !! i = Some c -> cs !! i = Some k ->
  element c < length (codes t) ->
  codes (write_codes cells cs t) !! element c = Some k.
Proof.
  unfold write_codes. revert cs t i.
  induction cells as [|c0 cells IH]; intros cs t i Hnd Hc Hk Hlen; [done|].
  destruct cs as [|k0 cs]; [done|]. simpl.
  rewrite fmap_cons in Hnd. apply NoDup_cons in Hnd as [Hnotin Hnd].
  destruct i as [|i]; simpl in *.
  - injection Hc as ->. injection Hk as ->.
    fold (write_codes cells cs (set_code (element c) k t)).
    rewrite write_codes_other by done. simpl.
    by apply list_lookup_insert_eq.
  - eapply IH; eauto. simpl. by rewrite length_insert.
Qed.

Lemma write_codes_ext (cells : list LeafCell) (cs : list Code) (t1 t2 : CodeTable) :
  codes t1 = codes t2 ->
  codes (write_codes cells cs t1) = codes (write_codes cells cs t2).
Proof.
  unfold write_codes. revert t1 t2.
  induction (zip cells cs) as [|ck l IH]; intros t1 t2 Heq; simpl; [done|].
  apply IH. simpl. by rewrite Heq.
Qed.

(** ** The canonical walk in integers *)

(** [Code::code] has at least eight bits, and no codelength exceeds its
    width (spec, section 3: [MAX_CODELENGTH] is the ceiling the storage width
    of the bit-pattern imposes). *)
Hypothesis code_bits_ge : (8 <= code_bits)%Z.
Hypothesis MAXIMUM_CODELENGTH_le : (Z.of_nat MAXIMUM_CODELENGTH <= code_bits)%Z.

Lemma code_succ_small (c : Z) :
  (0 <= c)%Z -> (c + 1 < 2 ^ code_bits)%Z -> code_succ c = (c + 1)%Z.
Proof. intros. unfold code_succ. apply Z.mod_small. lia. Qed.

Lemma shiftr_nonneg_le (x : Z) (n : nat) :
  (0 <= x)%Z -> (0 <= Z.shiftr x (Z.of_nat n) <= x)%Z.
Proof.
  intros Hx. rewrite Z.shiftr_div_pow2 by lia.
  assert (0 < 2 ^ Z.of_nat n)%Z by (apply Z.pow_pos_nonneg; lia).
  split; [apply Z.div_pos; lia|].
  apply Z.div_le_upper_bound; [lia|]. nia.
Qed.

Lemma walk_canon (ds : list nat) (last : Code) (k : Z) :
  (0 <= code last <= k)%Z -> (k + Z.of_nat (length ds) < 2 ^ code_bits)%Z ->
  walk last ds = canon last ds /\
  Forall (fun c => 0 <= code c <= k + Z.of_nat (length ds))%Z (canon last ds).
Proof.
  revert last k. induction ds as [|d ds IH]; intros last k Hk Hlen; [done|].
  cbn [walk canon length] in *.
  assert (next_code last d = step last d) as Hstep.
  { unfold next_code, step. f_equal. rewrite code_succ_small by lia.
    destruct (Nat.eqb_spec d (codelength last)) as [->|]; [|done].
    by rewrite Nat.sub_diag. }
  rewrite Hstep.
  pose proof (shiftr_nonneg_le (code last + 1) (codelength last - d)) as Hsh.
  destruct (IH (step last d) (k + 1)%Z) as [-> Hall]; [simpl; lia|lia|].
  split; [done|]. constructor; [simpl; lia|].
  eapply Forall_impl; [exact Hall|]. simpl. lia.
Qed.

Lemma canon_length (last : Code) (ds : list nat) : length (canon last ds) = length ds.
Proof. revert last. induction ds; intros; simpl; auto. Qed.

Lemma canon_codelength (last : Code) (ds : list nat) :
  codelength <$> canon last ds = ds.
Proof. revert last. induction ds as [|d ds IH]; intros; csimpl; [done|]. by rewrite IH. Qed.

Lemma canon_lookup_S (ds : list nat) (last : Code) (i : nat) (prev cur : Code) :
  (last :: canon last ds) !! i = Some prev ->
  canon last ds !! i = Some cur ->
  exists d, ds !! i = Some d /\ cur = step prev d.
Proof.
  revert last i. induction ds as [|d ds IH]; intros last i Hp Hc; [done|].
  destruct i as [|i]; simpl in *.
  - injection Hp as <-. injection Hc as <-. by exists d.
  - eapply IH; eauto.
Qed.

Lemma weight_pos (L d : nat) : (0 < weight L d)%Z.
Proof. apply Z.pow_pos_nonneg; lia. Qed.

Lemma weight_split (L l d : nat) :
  d <= l -> l <= L ->
  weight L d = (weight L l * 2 ^ Z.of_nat (l - d))%Z.
Proof.
  intros. unfold weight. rewrite <- Z.pow_add_r by lia. f_equal. lia.
Qed.

Lemma weight_full (L : nat) : weight L 0 = (2 ^ Z.of_nat L)%Z.
Proof. unfold weight. by rewrite Nat.sub_0_r. Qed.

Lemma ksum_nonneg (L : nat) (ds : list nat) : (0 <= ksum L ds)%Z.
Proof.
  induction ds as [|d ds IH]; simpl; [done|]. pose proof (weight_pos L d). lia.
Qed.

Lemma chain_Forall (l : nat) (ds : list nat) : chain l ds -> Forall (fun d => d <= l) ds.
Proof.
  revert l. induction ds as [|d ds IH]; intros l; simpl; [constructor|].
  intros (Hd & _ & _ & Hch). constructor; [done|].
  eapply Forall_impl; [apply IH, Hch|]. simpl. lia.
Qed.

Lemma ksum_divide (L d : nat) (ds : list nat) :
  d <= L -> Forall (fun d' => d' <= d) ds -> (weight L d | ksum L ds)%Z.
Proof.
  intros HL. induction 1 as [|d' ds Hd' _ IH]; simpl.
  - apply Z.divide_0_r.
  - apply Z.divide_add_r; [|done].
    rewrite (weight_split L d d') by lia. apply Z.divide_factor_l.
Qed.

(** Under Kraft's inequality the floor of the shift only loses room: every
    code fits its length. *)
Lemma canon_fits (ds : list nat) (last : Code) (L : nat) :
  chain (codelength last) ds -> codelength last <= L -> (0 <= code last)%Z ->
  (hi L last + ksum L ds <= 2 ^ Z.of_nat L)%Z ->
  Forall fits (last :: canon last ds).
Proof.
  revert last. induction ds as [|d ds IH]; intros last Hch HL H0 Hk.
  - constructor; [|constructor]. unfold fits, hi in *. simpl in Hk.
    split; [done|].
    assert (weight L 0 = weight L (codelength last) * 2 ^ Z.of_nat (codelength last))%Z
      as Hw by (rewrite (weight_split L (codelength last) 0), Nat.sub_0_r; [done|lia..]).
    rewrite <- weight_full, Hw in Hk. pose proof (weight_pos L (codelength last)). nia.
  - simpl in Hch. destruct Hch as (Hd & _ & _ & Hch). cbn [canon].
    pose proof (weight_pos L (codelength last)) as Hwl.
    pose proof (weight_pos L d) as Hwd.
    pose proof (ksum_nonneg L ds) as Hks.
    assert (0 < 2 ^ Z.of_nat (codelength last - d))%Z as Hp
        by (apply Z.pow_pos_nonneg; lia).
    assert (0 <= code (step last d) /\
            code (step last d) * 2 ^ Z.of_nat (codelength last - d) <= code last + 1)%Z
      as [Hs0 Hs1].
    { simpl. rewrite Z.shiftr_div_pow2 by lia. split.
      - apply Z.div_pos; lia.
      - rewrite Z.mul_comm. apply Z.mul_div_le. lia. }
    assert (hi L (step last d) + ksum L ds <= 2 ^ Z.of_nat L)%Z as Hk'.
    { unfold hi in *. simpl in *.
      rewrite (weight_split L (codelength last) d) in * by lia. nia. }
    constructor; [|apply IH; simpl; [done|lia|done|done]].
    unfold fits. split; [done|]. unfold hi in Hk. simpl in Hk.
    assert (weight L 0 = weight L (codelength last) * 2 ^ Z.of_nat (codelength last))%Z
      as Hw by (rewrite (weight_split L (codelength last) 0), Nat.sub_0_r; [done|lia..]).
    rewrite <- weight_full, Hw in Hk. nia.
Qed.

(** Under Kraft's equality every shift is exact, and the intervals of the
    codes follow one another without a gap. *)
Lemma canon_intervals (ds : list nat) (last : Code) (L : nat) :
  chain (codelength last) ds -> codelength last <= L -> (0 <= code last)%Z ->
  (hi L last + ksum L ds = 2 ^ Z.of_nat L)%Z ->
  StronglySorted (fun a b => hi L a <= lo L b)%Z (last :: canon last ds) /\
  (forall d ds', ds = d :: ds' -> hi L last = lo L (step last d)).
Proof.
  revert last. induction ds as [|d ds IH]; intros last Hch HL H0 Hk.
  - split; [|done]. repeat constructor.
  - simpl in Hch. destruct Hch as (Hd & Hmax & _ & Hch). cbn [canon].
    pose proof (weight_pos L (codelength last)) as Hwl.
    pose proof (weight_pos L d) as Hwd.
    assert (0 < 2 ^ Z.of_nat (codelength last - d))%Z as Hp
        by (apply Z.pow_pos_nonneg; lia).
    assert (code (step last d) * 2 ^ Z.of_nat (codelength last - d) = code last + 1)%Z
      as Hexact.
    { assert (weight L d | ksum L (d :: ds))%Z as Hdiv1.
      { apply ksum_divide; [lia|]. constructor; [done|]. by apply chain_Forall. }
      assert (weight L d | 2 ^ Z.of_nat L)%Z as Hdiv2.
      { rewrite <- weight_full, (weight_split L d 0) by lia. apply Z.divide_factor_l. }
      assert (weight L d | hi L last)%Z as Hdiv3.
      { replace (hi L last) with (2 ^ Z.of_nat L - ksum L (d :: ds))%Z by lia.
        by apply Z.divide_sub_r. }
      unfold hi in Hdiv3. rewrite (weight_split L (codelength last) d) in Hdiv3 by lia.
      rewrite (Z.mul_comm (code last + 1)) in Hdiv3.
      apply Z.mul_divide_cancel_l in Hdiv3; [|lia].
      destruct Hdiv3 as [q Hq]. simpl. rewrite Z.shiftr_div_pow2 by lia.
      rewrite Hq, Z.div_mul by lia. done. }
    assert (hi L last = lo L (step last d)) as Hnext.
    { unfold hi, lo. cbn [codelength step].
      rewrite (weight_split L (codelength last) d), <- Hexact by lia. ring. }
    assert (0 <= code (step last d))%Z as Hs0.
    { simpl. apply shiftr_nonneg_le. lia. }
    destruct (IH (step last d)) as [Hss _]; [done|simpl; lia|done| |].
    { unfold hi, lo in *. simpl in *. lia. }
    split; [|by intros ? ? [= <- <-]].
    constructor; [done|].
    apply StronglySorted_inv in Hss as [Hss Hall].
    constructor; [lia|].
    eapply Forall_impl; [exact Hall|]. simpl. intros c Hc.
    unfold hi, lo in *. simpl in *. lia.
Qed.

(** ** Bits of a code *)

Lemma testbit_above (a : Z) (n m : nat) :
  (0 <= a < 2 ^ Z.of_nat n)%Z -> n <= m -> Z.testbit a (Z.of_nat m) = false.
Proof.
  intros [H0 Hlt] Hnm.
  destruct (Z.eq_dec a 0%Z) as [->|Hne]; [apply Z.bits_0|].
  apply Z.bits_above_log2; [done|].
  apply Z.lt_le_trans with (Z.of_nat n); [|lia].
  apply Z.log2_lt_pow2; lia.
Qed.

Lemma word_of_bits_snoc (bs : list bool) (b : bool) :
  word_of_bits (bs ++ [b]) = push_bit (word_of_bits bs) b.
Proof. unfold word_of_bits. by rewrite fold_left_app. Qed.

Lemma word_of_bits_range (bs : list bool) :
  (0 <= word_of_bits bs < 2 ^ Z.of_nat (length bs))%Z.
Proof.
  induction bs as [|b bs IH] using rev_ind; [done|].
  rewrite word_of_bits_snoc, length_app, Nat.add_1_r, Nat2Z.inj_succ, Z.pow_succ_r by lia.
  unfold push_bit. destruct b; simpl; lia.
Qed.

Lemma word_of_bits_testbit (bs : list bool) (k : nat) (b : bool) :
  bs !! k = Some b ->
  Z.testbit (word_of_bits bs) (Z.of_nat (length bs - 1 - k)) = b.
Proof.
  revert k. induction bs as [|b' bs IH] using rev_ind; intros k Hk; [done|].
  rewrite word_of_bits_snoc, length_app, Nat.add_1_r. unfold push_bit.
  destruct (decide (k < length bs)) as [Hlt|Hge].
  - rewrite lookup_app_l in Hk by done.
    replace (Z.of_nat (S (length bs) - 1 - k))
      with (Z.succ (Z.of_nat (length bs - 1 - k))) by lia.
    rewrite Z.testbit_succ_r by lia. by apply IH.
  - apply lookup_lt_Some in Hk as Hk'. rewrite length_app in Hk'. simpl in Hk'.
    assert (k = length bs) as -> by lia.
    rewrite lookup_app_r, Nat.sub_diag in Hk by lia. injection Hk as ->.
    replace (S (length bs) - 1 - length bs) with 0 by lia.
    apply Z.testbit_0_r.
Qed.

Lemma code_to_bits_length (c : Code) : length (code_to_bits c) = codelength c.
Proof. unfold code_to_bits. by rewrite length_fmap, length_reverse, length_seq. Qed.

Lemma code_to_bits_lookup (c : Code) (k : nat) :
  k < codelength c ->
  code_to_bits c !! k = Some (Z.testbit (code c) (Z.of_nat (codelength c - 1 - k))).
Proof.
  intros Hk. unfold code_to_bits.
  rewrite list_lookup_fmap, reverse_lookup by (rewrite length_seq; lia).
  rewrite length_seq, lookup_seq_lt by lia. simpl. do 3 f_equal. lia.
Qed.

Lemma code_to_bits_word (bs : list bool) :
  code_to_bits (CodeMake (length bs) (word_of_bits bs)) = bs.
Proof.
  apply list_eq. intros k.
  destruct (decide (k < length bs)) as [Hlt|Hge].
  - rewrite code_to_bits_lookup by done. simpl.
    destruct (lookup_lt_is_Some_2 bs k Hlt) as [b Hb].
    rewrite Hb. f_equal. by apply word_of_bits_testbit.
  - rewrite !lookup_ge_None_2; [done|lia|rewrite code_to_bits_length; simpl; lia].
Qed.

Lemma word_of_code_to_bits (c : Code) :
  fits c -> word_of_bits (code_to_bits c) = code c.
Proof.
  intros Hfit. apply Z.bits_inj'. intros n Hn.
  pose proof (word_of_bits_range (code_to_bits c)) as Hr.
  rewrite code_to_bits_length in Hr.
  destruct (decide (Z.to_nat n < codelength c)) as [Hlt|Hge].
  - pose proof (word_of_bits_testbit (code_to_bits c) (codelength c - 1 - Z.to_nat n)) as Hw.
    rewrite code_to_bits_length, code_to_bits_lookup in Hw by lia.
    replace (codelength c - 1 - (codelength c - 1 - Z.to_nat n)) with (Z.to_nat n) in Hw by lia.
    rewrite Z2Nat.id in Hw by done. by apply Hw.
  - rewrite <- (Z2Nat.id n) by done.
    rewrite (testbit_above _ (codelength c)), (testbit_above _ (codelength c)); [done|..];
      first [done | lia].
Qed.

(** A code that is a bit-prefix of another one is its leading part. *)
Lemma prefix_shift (a b : Code) :
  fits a -> fits b -> code_to_bits a `prefix_of` code_to_bits b ->
  codelength a <= codelength b /\
  code a = Z.shiftr (code b) (Z.of_nat (codelength b - codelength a)).
Proof.
  intros Ha Hb [k Hk].
  assert (codelength a <= codelength b) as Hle.
  { apply (f_equal length) in Hk.
    rewrite length_app, !code_to_bits_length in Hk. lia. }
  split; [done|]. apply Z.bits_inj'. intros n Hn.
  rewrite Z.shiftr_spec by done.
  destruct (decide (Z.to_nat n < codelength a)) as [Hlt|Hge].
  - pose proof (code_to_bits_lookup a (codelength a - 1 - Z.to_nat n)) as H1.
    pose proof (code_to_bits_lookup b (codelength a - 1 - Z.to_nat n)) as H2.
    rewrite Hk, lookup_app_l, H1 in H2 by (rewrite ?code_to_bits_length; lia).
    specialize (H2 ltac:(lia)). injection H2 as H2.
    replace (Z.of_nat (codelength a - 1 - (codelength a - 1 - Z.to_nat n))) with n in H2 by lia.
    rewrite H2. f_equal. lia.
  - rewrite <- (Z2Nat.id n) at 1 by done.
    rewrite (testbit_above _ (codelength a)) by (done || lia).
    replace (n + Z.of_nat (codelength b - codelength a))%Z
      with (Z.of_nat (Z.to_nat n + (codelength b - codelength a))) by lia.
    by rewrite (testbit_above _ (codelength b)) by (done || lia).
Qed.

(** ... and its interval contains the interval of the other. *)
Lemma prefix_nested (a b : Code) (L : nat) :
  fits a -> fits b -> codelength b <= L ->
  code_to_bits a `prefix_of` code_to_bits b ->
  (lo L a <= lo L b < hi L a)%Z.
Proof.
  intros Ha Hb HL Hpre.
  destruct (prefix_shift a b Ha Hb Hpre) as [Hle Hsh].
  rewrite Z.shiftr_div_pow2 in Hsh by lia.
  assert (0 < 2 ^ Z.of_nat (codelength b - codelength a))%Z as Hp
      by (apply Z.pow_pos_nonneg; lia).
  pose proof (Z.mul_div_le (code b) _ Hp) as H1.
  pose proof (Z.mul_succ_div_gt (code b) _ Hp) as H2.
  rewrite <- Hsh in H1, H2.
  pose proof (weight_pos L (codelength b)) as Hw.
  unfold lo, hi. rewrite (weight_split L (codelength b) (codelength a)) by lia.
  nia.
Qed.

Lemma fits_interval (c : Code) (L : nat) : (lo L c < hi L c)%Z.
Proof. unfold lo, hi. pose proof (weight_pos L (codelength c)). lia. Qed.

(** ** The table [_buildTable] leaves behind *)

Lemma NoDup_bounded_length (l : list nat) (n : nat) :
  NoDup l -> Forall (fun x => x < n) l -> length l <= n.
Proof.
  intros Hnd Hall. transitivity (length (seq 0 n)); [|by rewrite length_seq].
  apply submseteq_length, NoDup_submseteq; [done|].
  intros x Hx. rewrite Forall_forall in Hall. apply elem_of_seq.
  specialize (Hall x Hx). lia.
Qed.

Lemma sorted_cells_Permutation (st : Store) (leaves : Nodes) :
  sorted_cells st leaves ≡ₚ cells_of st leaves.
Proof. apply sorted_leaves_Permutation. Qed.

Lemma sorted_cells_sorted (st : Store) (leaves : Nodes) :
  StronglySorted leaf_le (sorted_cells st leaves).
Proof. apply sorted_leaves_cells. Qed.

Lemma sorted_chain (c : LeafCell) (cs : list LeafCell) :
  StronglySorted leaf_le (c :: cs) ->
  Forall (fun c' => depth c' < MAXIMUM_CODELENGTH) (c :: cs) ->
  chain (depth c) (depth <$> cs).
Proof.
  revert c. induction cs as [|c' cs IH]; intros c Hss Hall; [done|].
  apply StronglySorted_inv in Hss as [Hss Hc].
  apply Forall_cons in Hc as [[Hle _] _]. apply Forall_cons in Hall as [Hlt0 Hall].
  pose proof Hall as Hall'. apply Forall_cons in Hall' as [Hlt _].
  csimpl. split_and!; [done|done|lia|]. by apply IH.
Qed.

Lemma chain_bounded (l : nat) (ds : list nat) :
  chain l ds -> Forall (fun d => d < MAXIMUM_CODELENGTH) ds.
Proof.
  revert l. induction ds as [|d ds IH]; intros l; simpl; [constructor|].
  intros (_ & Hd & _ & Hch). constructor; [done|]. by eapply IH.
Qed.

Lemma canonical_codes_length_map (sorted : list LeafCell) :
  codelength <$> canonical_codes sorted = depth <$> sorted.
Proof.
  destruct sorted as [|c cs]; csimpl; [done|]. by rewrite canon_codelength.
Qed.

Section view.
Variables (st : Store) (leaves : Nodes).
Hypothesis Hnodup : NoDup (element <$> cells_of st leaves).
Hypothesis Hsyms : Forall (fun c => element c < ALPHABET_SIZE) (cells_of st leaves).

Let sorted := sorted_cells st leaves.

Lemma sorted_nodup : NoDup (element <$> sorted).
Proof. unfold sorted. by rewrite sorted_cells_Permutation. Qed.

Lemma sorted_syms : Forall (fun c => element c < ALPHABET_SIZE) sorted.
Proof. unfold sorted. by rewrite sorted_cells_Permutation. Qed.

Lemma sorted_length : length sorted <= ALPHABET_SIZE.
Proof.
    rewrite <- (length_fmap element). apply NoDup_bounded_length; [apply sorted_nodup|].
    rewrite Forall_fmap. apply sorted_syms.
Qed.

(** The builder succeeds exactly when the depths after the first pass its
      assertion, and then the table holds the canonical codes. *)
Lemma build_spec (t : CodeTable) :
    _buildTable st (std_sort (_LeafComparator st) leaves) zero_table = Ok t <->
    exists c cs,
      sorted = c :: cs /\
      chain (depth c) (depth <$> cs) /\
      t = write_codes sorted (canonical_codes sorted)
            {| codes := codes zero_table; info := {| max_codelength := depth c |} |}.
Proof.
    rewrite _buildTable_spec. fold (sorted_cells st leaves). fold sorted.
    pose proof sorted_length as Hlen.
    pose proof (sorted_cells_sorted st leaves) as Hss. fold sorted in Hss.
    assert (forall c cs, sorted = c :: cs ->
              walk (CodeMake (depth c) 0) (depth <$> cs) =
              canon (CodeMake (depth c) 0) (depth <$> cs)) as Hwalk.
    { intros c cs Heq. apply (walk_canon _ _ 0%Z); [simpl; lia|].
      rewrite length_fmap. rewrite Heq in Hlen. simpl in Hlen.
      apply Z.lt_le_trans with (2 ^ 8)%Z; [rewrite ALPHABET_SIZE_eq in Hlen; lia|].
      apply Z.pow_le_mono_r; lia. }
    split.
    - intros (c & cs & Heq & Hch & ->). exists c, cs.
      split_and!; [done..|]. rewrite Heq. simpl. by rewrite Hwalk.
    - intros (c & cs & Heq & Hch & ->). exists c, cs.
      split_and!; [done..|]. rewrite Heq. simpl. by rewrite Hwalk.
Qed.

Lemma canonical_codes_length : length (canonical_codes sorted) = length sorted.
Proof.
    destruct sorted as [|c cs]; simpl; [done|].
    by rewrite canon_length, length_fmap.
Qed.

Section built.
Variable t : CodeTable.
Hypothesis Hbuilt :
      _buildTable st (std_sort (_LeafComparator st) leaves) zero_table = Ok t.

Lemma built_codes :
      codes t = codes (write_codes sorted (canonical_codes sorted) zero_table).
Proof.
      destruct (proj1 (build_spec t) Hbuilt) as (c & cs & _ & _ & ->).
      by apply write_codes_ext.
Qed.

Lemma built_length : length (codes t) = ALPHABET_SIZE.
Proof.
      rewrite built_codes, write_codes_length. unfold zero_table. cbn [codes].
      apply length_replicate.
Qed.

(** Symbols that are not among the leaves keep the zero entry. *)
Lemma built_other (s : nat) :
      s < ALPHABET_SIZE -> s ∉ element <$> cells_of st leaves ->
      codes t !! s = Some (CodeMake 0 0).
Proof.
      intros Hs Hnotin. rewrite built_codes, write_codes_other.
      - unfold zero_table. cbn [codes]. by apply lookup_replicate_2.
      - unfold sorted. by rewrite sorted_cells_Permutation.
Qed.

(** The symbol of the [i]-th leaf in sorted order holds the [i]-th code. *)
Lemma built_lookup (i : nat) (c : LeafCell) :
      sorted !! i = Some c ->
      exists k, canonical_codes sorted !! i = Some k /\ codelength k = depth c /\
                codes t !! element c = Some k.
Proof.
      intros Hi.
      destruct (lookup_lt_is_Some_2 (canonical_codes sorted) i) as [k Hk].
      { rewrite canonical_codes_length. by eapply lookup_lt_Some. }
      exists k. split_and!; [done| |].
      - pose proof (canonical_codes_length_map sorted) as Hcl.
        apply (f_equal (fun l => l !! i)) in Hcl.
        rewrite !list_lookup_fmap, Hk, Hi in Hcl. by injection Hcl.
      - rewrite built_codes. eapply write_codes_lookup; eauto using sorted_nodup.
        unfold zero_table. cbn [codes]. rewrite length_replicate.
        pose proof sorted_syms as Hall. rewrite Forall_forall in Hall.
        apply Hall. by eapply list_elem_of_lookup_2.
Qed.

(** Every assigned code is the code of a leaf. *)
Lemma built_assigned (s : nat) (k : Code) :
      codes t !! s = Some k -> codelength k ≠ 0 ->
      exists i c, sorted !! i = Some c /\ element c = s /\
                  canonical_codes sorted !! i = Some k /\ codelength k = depth c.
Proof.
      intros Hs Hk.
      assert (s < ALPHABET_SIZE) as Hlt
          by (rewrite <- built_length; by eapply lookup_lt_Some).
      destruct (decide (s ∈ element <$> sorted)) as [Hin|Hnotin].
      - apply list_elem_of_fmap in Hin as (c & -> & Hc).
        apply list_elem_of_lookup in Hc as [i Hi].
        destruct (built_lookup i c Hi) as (k' & Hk' & Hlen & Hlook).
        exists i, c. rewrite Hs in Hlook. injection Hlook as <-. done.
      - unfold sorted in Hnotin. rewrite sorted_cells_Permutation in Hnotin.
        rewrite (built_other s Hlt Hnotin) in Hs. injection Hs as <-. done.
Qed.

Lemma built_max_codelength :
      exists c cs, sorted = c :: cs /\ max_codelength (info t) = depth c /\
                   Forall (fun c' => depth c' <= depth c) (c :: cs).
Proof.
      destruct (proj1 (build_spec t) Hbuilt) as (c & cs & Heq & _ & ->).
      exists c, cs. split_and!; [done|by rewrite write_codes_info|].
      pose proof (sorted_cells_sorted st leaves) as Hss. fold sorted in Hss.
      rewrite Heq in Hss. apply StronglySorted_inv in Hss as [_ Hall].
      constructor; [done|]. eapply Forall_impl; [exact Hall|].
      by intros c' [? _].
Qed.
End built.
End view.

(** ** Kraft sums: rationals and their scaled integers *)

Lemma kraft_term_scaled (L d : nat) :
  d <= L ->
  (Qpower 2 (- Z.of_nat d) * inject_Z (2 ^ Z.of_nat L) == inject_Z (weight L d))%Q.
Proof.
  intros Hd. unfold weight.
  rewrite !Zpower_Qpower by lia. change (inject_Z 2) with 2%Q.
  rewrite <- Qpower_plus by done. f_equiv. lia.
Qed.

Lemma kraft_sum_scaled (L : nat) (ds : list nat) :
  Forall (fun d => d <= L) ds ->
  (kraft_sum ds * inject_Z (2 ^ Z.of_nat L) == inject_Z (ksum L ds))%Q.
Proof.
  induction 1 as [|d ds Hd _ IH]; simpl.
  - apply Qmult_0_l.
  - rewrite Qmult_plus_distr_l, IH, kraft_term_scaled, inject_Z_plus by done.
    reflexivity.
Qed.

Lemma pow2_Q_pos (L : nat) : (0 < inject_Z (2 ^ Z.of_nat L))%Q.
Proof.
  change 0%Q with (inject_Z 0). rewrite <- Zlt_Qlt. apply Z.pow_pos_nonneg; lia.
Qed.

Lemma kraft_le_scaled (L : nat) (ds : list nat) :
  Forall (fun d => d <= L) ds ->
  (kraft_sum ds <= 1)%Q <-> (ksum L ds <= 2 ^ Z.of_nat L)%Z.
Proof.
  intros Hall.
  rewrite <- (Qmult_le_r _ _ (inject_Z (2 ^ Z.of_nat L))) by apply pow2_Q_pos.
  rewrite kraft_sum_scaled, Qmult_1_l by done. by rewrite <- Zle_Qle.
Qed.

Lemma kraft_eq_scaled (L : nat) (ds : list nat) :
  Forall (fun d => d <= L) ds ->
  (kraft_sum ds == 1)%Q <-> ksum L ds = (2 ^ Z.of_nat L)%Z.
Proof.
  intros Hall.
  rewrite <- (Qmult_inj_r _ _ (inject_Z (2 ^ Z.of_nat L))).
  - rewrite kraft_sum_scaled, Qmult_1_l by done. apply inject_Z_injective.
  - intros Hz. pose proof (pow2_Q_pos L) as Hp. rewrite Hz in Hp.
    by apply Qlt_irrefl in Hp.
Qed.

Lemma kraft_sum_app (l1 l2 : list nat) :
  (kraft_sum (l1 ++ l2) == kraft_sum l1 + kraft_sum l2)%Q.
Proof.
  induction l1 as [|d l1 IH]; simpl.
  - by rewrite Qplus_0_l.
  - by rewrite IH, Qplus_assoc.
Qed.

#[local] Instance kraft_sum_Permutation : Proper ((≡ₚ) ==> Qeq) kraft_sum.
Proof.
  induction 1 as [|d l1 l2 _ IH|d1 d2 l|l1 l2 l3 _ IH1 _ IH2]; simpl.
  - reflexivity.
  - by rewrite IH.
  - rewrite !Qplus_assoc. f_equiv. apply Qplus_comm.
  - by rewrite IH1.
Qed.

#[local] Instance ksum_Permutation (L : nat) : Proper ((≡ₚ) ==> (=)) (ksum L).
Proof.
  induction 1 as [|d l1 l2 _ IH|d1 d2 l|l1 l2 l3 _ IH1 _ IH2]; simpl; lia.
Qed.

(** ** Codes that fit, codes that are prefix-free *)

Lemma StronglySorted_lookup {A : Type} (R : relation A) (l : list A)
      (i j : nat) (a b : A) :
  StronglySorted R l -> i < j -> l !! i = Some a -> l !! j = Some b -> R a b.
Proof.
  intros Hss. revert i j. induction Hss as [|x l Hss IH Hall]; intros i j Hij Hi Hj.
  - done.
  - destruct j as [|j]; [lia|]. destruct i as [|i]; simpl in *.
    + injection Hi as <-. rewrite Forall_forall in Hall.
      apply Hall. by eapply list_elem_of_lookup_2.
    + apply (IH i j); [lia|done..].
Qed.

Section codes.
Variables (st : Store) (leaves : Nodes) (t : CodeTable).
Hypothesis Hnodup : NoDup (element <$> cells_of st leaves).
Hypothesis Hsyms : Forall (fun c => element c < ALPHABET_SIZE) (cells_of st leaves).
Hypothesis Hbuilt :
  _buildTable st (std_sort (_LeafComparator st) leaves) zero_table = Ok t.

Let sorted := sorted_cells st leaves.

Lemma built_scaled :
  exists c cs,
    sorted = c :: cs /\
    chain (depth c) (depth <$> cs) /\
    Forall (fun d => d <= depth c) (depth <$> sorted) /\
    (hi (depth c) (CodeMake (depth c) 0) + ksum (depth c) (depth <$> cs) =
     ksum (depth c) (depth <$> sorted))%Z.
Proof.
  destruct (proj1 (build_spec st leaves Hnodup Hsyms t) Hbuilt)
    as (c & cs & Heq & Hch & _).
  fold sorted in Heq.
  destruct (built_max_codelength st leaves Hnodup Hsyms t Hbuilt)
    as (c' & cs' & Heq' & _ & Hle).
  fold sorted in Heq'. rewrite Heq in Heq'. injection Heq' as <- <-.
  pose proof (sorted_cells_sorted st leaves) as Hss. fold sorted in Hss.
  exists c, cs. split_and!; [done|done| |].
  - rewrite Heq, Forall_fmap. done.
  - rewrite Heq. unfold hi, weight. csimpl. unfold weight.
    rewrite Nat.sub_diag. simpl. lia.
Qed.

(** Kraft's inequality is enough for every code to fit its length. *)
Lemma built_fits :
  (kraft_sum (depth <$> cells_of st leaves) <= 1)%Q ->
  Forall fits (canonical_codes sorted).
Proof.
  intros Hkraft.
  destruct built_scaled as (c & cs & Heq & Hch & Hle & Hsum).
  rewrite <- (sorted_cells_Permutation st leaves) in Hkraft. fold sorted in Hkraft.
  apply (kraft_le_scaled (depth c)) in Hkraft; [|done].
  rewrite Heq. simpl. apply (canon_fits _ _ (depth c)); simpl; [done|lia|lia|lia].
Qed.

(** With Kraft's equality the codes tile the code space in sorted order. *)
Lemma built_intervals :
  (kraft_sum (depth <$> cells_of st leaves) == 1)%Q ->
  exists L,
    Forall (fun k => codelength k <= L) (canonical_codes sorted) /\
    StronglySorted (fun a b => hi L a <= lo L b)%Z (canonical_codes sorted).
Proof.
  intros Hkraft.
  destruct built_scaled as (c & cs & Heq & Hch & Hle & Hsum).
  rewrite <- (sorted_cells_Permutation st leaves) in Hkraft. fold sorted in Hkraft.
  apply (kraft_eq_scaled (depth c)) in Hkraft; [|done].
  exists (depth c). split.
  - assert (Forall (fun d => d <= depth c) (codelength <$> canonical_codes sorted)) as H
        by (by rewrite canonical_codes_length_map).
    by rewrite Forall_fmap in H.
  - rewrite Heq. simpl. apply (canon_intervals _ _ (depth c)); simpl; [done|lia|lia|lia].
Qed.

Lemma built_prefix_free :
  (kraft_sum (depth <$> cells_of st leaves) == 1)%Q \/ length leaves = 1 ->
  prefix_free t.
Proof.
  intros Hcase i j ci cj Hi Hj Hli Hlj Hne Hpre.
  destruct (built_assigned st leaves Hnodup Hsyms t Hbuilt i ci Hi Hli)
    as (pi & celli & Hpi & Hei & Hki & _).
  destruct (built_assigned st leaves Hnodup Hsyms t Hbuilt j cj Hj Hlj)
    as (pj & cellj & Hpj & Hej & Hkj & _).
  fold sorted in Hpi, Hpj, Hki, Hkj.
  assert (pi ≠ pj) as Hpne by (intros ->; congruence).
  destruct Hcase as [Hkraft|Hone].
  - assert (Forall fits (canonical_codes sorted)) as Hfits.
    { apply built_fits. rewrite Hkraft. apply Qle_refl. }
    rewrite Forall_forall in Hfits.
    assert (fits ci) as Hfi by (apply Hfits; by eapply list_elem_of_lookup_2).
    assert (fits cj) as Hfj by (apply Hfits; by eapply list_elem_of_lookup_2).
    destruct (built_intervals Hkraft) as (L & HL & Hss).
    rewrite Forall_forall in HL.
    assert (codelength cj <= L) as HLj by (apply HL; by eapply list_elem_of_lookup_2).
    pose proof (prefix_nested ci cj L Hfi Hfj HLj Hpre) as Hnest.
    pose proof (fits_interval cj L) as Hint.
    destruct (decide (pi < pj)) as [Hlt|Hge].
    + pose proof (StronglySorted_lookup _ _ pi pj ci cj Hss Hlt Hki Hkj). simpl in *. lia.
    + assert (pj < pi) as Hlt by lia.
      pose proof (StronglySorted_lookup _ _ pj pi cj ci Hss Hlt Hkj Hki). simpl in *. lia.
  - apply lookup_lt_Some in Hpi, Hpj.
    unfold sorted, sorted_cells, cells_of in Hpi, Hpj.
    rewrite length_fmap, std_sort_Permutation, Hone in Hpi, Hpj. lia.
Qed.
End codes.

(** ** The constructor from a length descriptor *)

Lemma cells_of_seq (st : Store) : cells_of st (seq 0 (length st)) = st.
Proof.
  apply list_eq. intros i. unfold cells_of. rewrite list_lookup_fmap.
  destruct (decide (i < length st)) as [Hlt|Hge].
  - rewrite lookup_seq_lt by done. simpl.
    destruct (lookup_lt_is_Some_2 st i Hlt) as [c Hc].
    by rewrite Hc, (list_lookup_total_correct _ _ _ Hc).
  - by rewrite lookup_seq_ge, lookup_ge_None_2 by lia.
Qed.

Lemma push_length_leaf_spec (lengths : list nat) (st : Store) (leaves : Nodes) (i : nat) :
  push_length_leaf lengths (st, leaves) i =
  if 0 <? lengths !!! i then
    if lengths !!! i <? MAXIMUM_CODELENGTH
    then Ok (st ++ [{| element := i; depth := lengths !!! i |}], leaves ++ [length st])
    else Err AssertionFailed
  else Ok (st, leaves).
Proof.
  unfold push_length_leaf. destruct (0 <? lengths !!! i); [|done].
  destruct (lengths !!! i <? MAXIMUM_CODELENGTH); [|done].
  unfold assert, new_leaf. rewrite bind_Ok_l.
  by rewrite alter_app_r_alt, Nat.sub_diag by done.
Qed.

Lemma push_length_loop (lengths symbols : list nat) (st st' : Store)
      (leaves leaves' : Nodes) :
  for_each (push_length_leaf lengths) symbols (st, leaves) = Ok (st', leaves') <->
  Forall (fun c => depth c < MAXIMUM_CODELENGTH) (length_cells lengths symbols) /\
  st' = st ++ length_cells lengths symbols /\
  leaves' = leaves ++ seq (length st) (length (length_cells lengths symbols)).
Proof.
  unfold length_cells. revert st leaves.
  induction symbols as [|i symbols IH]; intros st leaves.
  - simpl. rewrite !app_nil_r. split.
    + intros [= <- <-]. done.
    + intros (_ & -> & ->). done.
  - cbn [for_each]. rewrite push_length_leaf_spec, filter_cons.
    destruct (Nat.ltb_spec 0 (lengths !!! i)) as [Hpos|Hzero].
    + rewrite decide_True by done. rewrite fmap_cons, Forall_cons. cbn [depth length].
      destruct (Nat.ltb_spec (lengths !!! i) MAXIMUM_CODELENGTH) as [Hlt|Hge].
      * rewrite bind_Ok_l, IH, length_app, Nat.add_1_r. cbn [seq].
        rewrite <- !(assoc_L (++)). simpl. intuition.
      * rewrite bind_Err_l. split; [done|]. lia.
    + rewrite decide_False, bind_Ok_l by lia. apply IH.
Qed.

Lemma length_cells_elements (lengths symbols : list nat) :
  element <$> length_cells lengths symbols = filter (fun i => 0 < lengths !!! i) symbols.
Proof.
  unfold length_cells. rewrite <- list_fmap_compose.
  induction (filter _ symbols) as [|i l IH]; csimpl; [done|]. by rewrite IH.
Qed.

Lemma length_cells_nodup (lengths : list nat) :
  NoDup (element <$> length_cells lengths (seq 0 ALPHABET_SIZE)).
Proof. rewrite length_cells_elements. apply NoDup_filter, NoDup_seq. Qed.

Lemma length_cells_syms (lengths : list nat) :
  Forall (fun c => element c < ALPHABET_SIZE) (length_cells lengths (seq 0 ALPHABET_SIZE)).
Proof.
  apply (Forall_fmap element (fun e => e < ALPHABET_SIZE)).
  rewrite length_cells_elements. apply Forall_forall. intros i Hi.
  apply list_elem_of_filter in Hi as [_ Hi]. apply elem_of_seq in Hi. lia.
Qed.

Lemma length_cells_elem (lengths : list nat) (c : LeafCell) :
  c ∈ length_cells lengths (seq 0 ALPHABET_SIZE) <->
  element c < ALPHABET_SIZE /\ 0 < depth c /\ depth c = lengths !!! element c.
Proof.
  unfold length_cells. rewrite list_elem_of_fmap. split.
  - intros (i & -> & Hi). apply list_elem_of_filter in Hi as [Hpos Hi].
    apply elem_of_seq in Hi. simpl. lia.
  - intros (Hlt & Hpos & Hd). exists (element c). split.
    + destruct c as [e d]. simpl in *. by rewrite Hd.
    + apply list_elem_of_filter. split; [lia|]. apply elem_of_seq. lia.
Qed.

(** The constructor, read off its source: the checks it makes and the
    builder call it ends in. *)
Lemma CodeTableAdapter_lengths_spec (file_data : list Byte.byte) (t : CodeTable) :
  let cells := length_cells (Byte.to_nat <$> file_data) (seq 0 ALPHABET_SIZE) in
  CodeTableAdapter_lengths file_data = Ok t <->
  length file_data = ALPHABET_SIZE /\
  Forall (fun c => depth c < MAXIMUM_CODELENGTH) cells /\
  _buildTable cells (std_sort (_LeafComparator cells) (seq 0 (length cells)))
              zero_table = Ok t.
Proof.
  intros cells. unfold CodeTableAdapter_lengths. split.
  - intros H. apply bind_Ok in H as (? & Hlen & H). apply assert_Ok in Hlen.
    apply bind_Ok in H as ([st leaves] & Hloop & H).
    apply push_length_loop in Hloop as (Hall & -> & ->).
    split_and!; [by apply Nat.eqb_eq|done..].
  - intros (Hlen & Hall & Hb).
    rewrite (assert_true (length file_data =? ALPHABET_SIZE)), bind_Ok_l
      by (by apply Nat.eqb_eq).
    assert (for_each (push_length_leaf (Byte.to_nat <$> file_data)) (seq 0 ALPHABET_SIZE)
              ([], []) = Ok (cells, seq 0 (length cells))) as ->
        by (by apply push_length_loop).
    by rewrite bind_Ok_l.
Qed.

(** ** [_countFrequencies] *)

Lemma count_bytes_loop (data : list Byte.byte) (freqs : list nat) (i : nat) :
  i < length freqs ->
  fold_left (fun freqs symbol => alter S (Byte.to_nat symbol) freqs) data freqs !!! i
  = freqs !!! i + occurrences i data.
Proof.
  unfold occurrences. revert freqs.
  induction data as [|b data IH]; intros freqs Hi; simpl; [lia|].
  rewrite IH by (by rewrite length_alter). rewrite filter_cons.
  destruct (decide (Byte.to_nat b = i)) as [->|Hne].
  - rewrite list_lookup_total_alter_eq by done. simpl. lia.
  - rewrite list_lookup_total_alter_ne by done. lia.
Qed.

Lemma count_bytes_lookup (data : list Byte.byte) (i : nat) :
  i < ALPHABET_SIZE -> count_bytes data !!! i = occurrences i data.
Proof.
  intros Hi. unfold count_bytes.
  rewrite count_bytes_loop by (by rewrite length_replicate).
  by rewrite lookup_total_replicate_2.
Qed.

Lemma collect_loop (freqs : list nat) (symbols : list nat) (acc : list Frequency) :
  fold_left (fun frequencies i =>
               if 0 <? freqs !!! i
               then frequencies ++ [FrequencyMake i (freqs !!! i)]
               else frequencies) symbols acc
  = acc ++ ((fun i => FrequencyMake i (freqs !!! i))
              <$> filter (fun i => 0 < freqs !!! i) symbols).
Proof.
  revert acc. induction symbols as [|i symbols IH]; intros acc; simpl.
  - by rewrite app_nil_r.
  - rewrite IH, filter_cons.
    destruct (Nat.ltb_spec 0 (freqs !!! i)).
    + rewrite decide_True by done. by rewrite <- (assoc_L (++)).
    + by rewrite decide_False by lia.
Qed.

Lemma collect_frequencies_eq (data : list Byte.byte) :
  collect_frequencies (count_bytes data) =
  (fun i => FrequencyMake i (occurrences i data)) <$> used_symbols data.
Proof.
  unfold collect_frequencies, used_symbols. rewrite collect_loop, app_nil_l.
  assert (Forall (fun i => i < ALPHABET_SIZE) (seq 0 ALPHABET_SIZE)) as Hall.
  { apply Forall_forall. intros i Hi. apply elem_of_seq in Hi. lia. }
  induction Hall as [|i l Hi _ IH]; [done|].
  rewrite !filter_cons, count_bytes_lookup by done.
  destruct (decide (0 < occurrences i data)); csimpl; rewrite IH; [|done].
  by rewrite count_bytes_lookup.
Qed.

Lemma used_symbols_elem (data : list Byte.byte) (i : nat) :
  i ∈ used_symbols data <-> i ∈ Byte.to_nat <$> data.
Proof.
  unfold used_symbols, occurrences.
  rewrite list_elem_of_filter, elem_of_seq, list_elem_of_fmap. split.
  - intros [Hpos _].
    destruct (filter _ data) as [|b l] eqn:Hf; [simpl in Hpos; lia|].
    assert (b ∈ filter (fun b => Byte.to_nat b = i) data) as Hb
        by (rewrite Hf; left).
    apply list_elem_of_filter in Hb as [Hb1 Hb2]. by exists b.
  - intros (b & -> & Hb). split.
    + assert (b ∈ filter (fun b' => Byte.to_nat b' = Byte.to_nat b) data) as Hin
          by (by apply list_elem_of_filter).
      destruct (filter _ data); [by apply not_elem_of_nil in Hin|simpl; lia].
    + pose proof (Byte.to_nat_bounded b). rewrite ALPHABET_SIZE_eq. lia.
Qed.

Lemma used_symbols_nodup (data : list Byte.byte) : NoDup (used_symbols data).
Proof. apply NoDup_filter, NoDup_seq. Qed.

Lemma used_symbols_bounded (data : list Byte.byte) :
  Forall (fun i => i < ALPHABET_SIZE) (used_symbols data).
Proof.
  apply Forall_forall. intros i Hi.
  apply list_elem_of_filter in Hi as [_ Hi]. apply elem_of_seq in Hi. lia.
Qed.

Lemma used_symbols_nonempty (data : list Byte.byte) :
  data ≠ [] -> used_symbols data ≠ [].
Proof.
  destruct data as [|b data]; [done|]. intros _ Hnil.
  assert (Byte.to_nat b ∈ used_symbols (b :: data)) as Hin
      by (apply used_symbols_elem; left).
  rewrite Hnil in Hin. by apply not_elem_of_nil in Hin.
Qed.

Lemma _countFrequencies_Permutation (data : list Byte.byte) :
  _countFrequencies data ≡ₚ
  (fun i => FrequencyMake i (occurrences i data)) <$> used_symbols data.
Proof.
  unfold _countFrequencies. by rewrite std_sort_Permutation, collect_frequencies_eq.
Qed.

Lemma _countFrequencies_symbols (data : list Byte.byte) :
  symbol <$> _countFrequencies data ≡ₚ used_symbols data.
Proof.
  rewrite _countFrequencies_Permutation, <- list_fmap_compose.
  induction (used_symbols data) as [|i l IH]; csimpl; [done|]. by rewrite IH.
Qed.

(** ** The merge of [_buildTree] *)

Lemma tree_insert_Permutation (k : nat) (v : DepthCounterNode) (t : Tree) :
  tree_insert k v t ≡ₚ (k, v) :: t.
Proof.
  induction t as [|[k' v'] t IH]; simpl; [done|].
  destruct (k <? k'); [done|]. rewrite IH. apply Permutation_swap.
Qed.

Lemma tree_insert_length (k : nat) (v : DepthCounterNode) (t : Tree) :
  length (tree_insert k v t) = S (length t).
Proof. by rewrite tree_insert_Permutation. Qed.

Lemma leaf_depths_fst (n : DepthCounterNode) : (leaf_depths n).*1 = leaf_pointers n.
Proof.
  induction n as [p|l IHl r IHr]; simpl; [done|].
  rewrite <- list_fmap_compose, <- IHl, <- IHr, <- fmap_app.
  apply list_fmap_ext. by intros _ [p d] _.
Qed.

Lemma alter_many_length {A : Type} (f : A -> A) (ps : list nat) (st : list A) :
  length (fold_left (fun s p => alter f p s) ps st) = length st.
Proof.
  revert st. induction ps as [|p ps IH]; intros st; simpl; [done|].
  by rewrite IH, length_alter.
Qed.

Lemma alter_many_lookup {A : Type} (f : A -> A) (ps : list nat) (st : list A) (q : nat) :
  NoDup ps ->
  fold_left (fun s p => alter f p s) ps st !! q =
  if decide (q ∈ ps) then f <$> st !! q else st !! q.
Proof.
  intros Hnd. revert st. induction Hnd as [|p ps Hp Hnd IH]; intros st; cbn [fold_left].
  - rewrite decide_False; [done|apply not_elem_of_nil].
  - rewrite IH. destruct (decide (q = p)) as [->|Hne].
    + rewrite decide_False by done. rewrite decide_True by left.
      apply list_lookup_alter_eq.
    + rewrite list_lookup_alter_ne by done.
      destruct (decide (q ∈ ps)).
      * rewrite decide_True; [done|by right].
      * rewrite decide_False; [done|]. rewrite not_elem_of_cons. done.
Qed.

Lemma alter_many_elements (f : LeafCell -> LeafCell) (ps : list nat) (st : Store) :
  (forall c, element (f c) = element c) ->
  element <$> fold_left (fun s p => alter f p s) ps st = element <$> st.
Proof.
  intros Hf. revert st. induction ps as [|p ps IH]; intros st; simpl; [done|].
  rewrite IH. apply list_eq. intros i.
  rewrite !list_lookup_fmap, list_lookup_alter.
  case_decide; [|done]. subst. destruct (st !! i); simpl; [|done]. by rewrite Hf.
Qed.

#[local] Instance forest_ok_Permutation :
  Proper ((≡ₚ) ==> (=) ==> iff) forest_ok.
Proof.
  intros nodes1 nodes2 Hperm st ? <-. unfold forest_ok. by rewrite Hperm.
Qed.

Lemma forest_merge (n1 n2 : DepthCounterNode) (rest : list DepthCounterNode)
      (st : Store) :
  forest_ok (n1 :: n2 :: rest) st ->
  forest_ok (Internal n1 n2 :: rest) (new_internal n1 n2 st).2.
Proof.
  intros [Hptrs Hdepths]. unfold new_internal. cbn [snd].
  set (ps := leaf_pointers n1 ++ leaf_pointers n2).
  assert (NoDup (ps ++ rest ≫= leaf_pointers)) as Hnd.
  { unfold ps. rewrite <- (assoc_L (++)).
    rewrite !bind_cons in Hptrs. rewrite Hptrs. apply NoDup_seq. }
  apply NoDup_app in Hnd as (Hnd & Hdisj & _).
  split.
  - rewrite alter_many_length, <- Hptrs, !bind_cons. cbn [leaf_pointers].
    by rewrite <- (assoc_L (++)).
  - apply Forall_cons in Hdepths as [H1 Hdepths].
    apply Forall_cons in Hdepths as [H2 Hrest].
    constructor.
    + cbn [leaf_depths]. rewrite Forall_fmap.
      assert (Forall (fun pd => depth <$> st !! pd.1 = Some pd.2)
                     (leaf_depths n1 ++ leaf_depths n2)) as H12
          by (by apply Forall_app).
      apply Forall_forall. intros [p d] Hpd. simpl.
      rewrite Forall_forall in H12. specialize (H12 _ Hpd). simpl in H12.
      rewrite alter_many_lookup by done.
      rewrite decide_True.
      * destruct (st !! p) as [c|]; simpl in *; [|done]. by injection H12 as ->.
      * unfold ps. rewrite <- !leaf_depths_fst, <- fmap_app.
        apply list_elem_of_fmap. by exists (p, d).
    + apply Forall_forall. intros n Hn. apply Forall_forall. intros [p d] Hpd. simpl.
      rewrite Forall_forall in Hrest. specialize (Hrest n Hn).
      rewrite Forall_forall in Hrest. specialize (Hrest _ Hpd). simpl in Hrest.
      rewrite alter_many_lookup by done.
      rewrite decide_False; [done|]. intros Hin. apply (Hdisj p Hin).
      apply list_elem_of_bind. exists n. split; [|done].
      rewrite <- leaf_depths_fst. apply list_elem_of_fmap. by exists (p, d).
Qed.

Lemma _buildTree_loop_ok (n : nat) (tree : Tree) (st : Store) :
  n < length tree -> forest_ok tree.*2 st ->
  exists tree' st',
    _buildTree_loop n tree st = Ok (tree', st') /\
    length tree' = length tree - n /\
    forest_ok tree'.*2 st' /\
    element <$> st' = element <$> st.
Proof.
  revert tree st. induction n as [|n IH]; intros tree st Hlen Hok.
  - exists tree, st. simpl. split_and!; [done|lia|done|done].
  - destruct tree as [|[f1 n1] [|[f2 n2] rest]]; simpl in Hlen; [lia..|].
    cbn [_buildTree_loop]. unfold new_internal at 1.
    destruct (IH (tree_insert (f1 + f2) (Internal n1 n2) rest)
                 (new_internal n1 n2 st).2) as (tree' & st' & Hrun & Hl & Hok' & Hel).
    + rewrite tree_insert_length. lia.
    + rewrite tree_insert_Permutation. csimpl. by apply forest_merge.
    + exists tree', st'. split_and!; [done| |done|].
      * rewrite Hl, tree_insert_length. simpl. lia.
      * rewrite Hel. unfold new_internal. cbn [snd].
        by apply alter_many_elements.
Qed.

(** ** Kraft's equality for a tree *)

Lemma kraft_sum_cons (d : nat) (l : list nat) :
  kraft_sum (d :: l) = (Qpower 2 (- Z.of_nat d) + kraft_sum l)%Q.
Proof. reflexivity. Qed.

Lemma kraft_term_S (d : nat) :
  (Qpower 2 (- Z.of_nat (S d)) == (1 # 2) * Qpower 2 (- Z.of_nat d))%Q.
Proof.
  replace (- Z.of_nat (S d))%Z with (-1 + - Z.of_nat d)%Z by lia.
  by rewrite Qpower_plus.
Qed.

Lemma kraft_sum_S (l : list nat) :
  (kraft_sum (S <$> l) == (1 # 2) * kraft_sum l)%Q.
Proof.
  induction l as [|d l IH]; [reflexivity|].
  rewrite fmap_cons, !kraft_sum_cons, IH, kraft_term_S, Qmult_plus_distr_r.
  reflexivity.
Qed.

Lemma kraft_tree (n : DepthCounterNode) : (kraft_sum (leaf_depths n).*2 == 1)%Q.
Proof.
  induction n as [p|l IHl r IHr]; simpl; [reflexivity|].
  rewrite <- list_fmap_compose.
  rewrite (list_fmap_ext (snd ∘ prod_map id S) (S ∘ snd) _) by (by intros _ [] _).
  rewrite list_fmap_compose, fmap_app, kraft_sum_S, kraft_sum_app, IHl, IHr.
  reflexivity.
Qed.

Lemma kraft_sum_nonneg (l : list nat) : (0 <= kraft_sum l)%Q.
Proof.
  induction l as [|d l IH]; simpl; [apply Qle_refl|].
  rewrite <- (Qplus_0_l 0). apply Qplus_le_compat; [|done].
  by apply Qpower_0_le.
Qed.

Lemma kraft_sum_pos (l : list nat) : l ≠ [] -> (0 < kraft_sum l)%Q.
Proof.
  destruct l as [|d l]; [done|]. intros _. simpl.
  rewrite <- (Qplus_0_r 0). apply Qplus_lt_le_compat; [|apply kraft_sum_nonneg].
  by apply Qpower_0_lt.
Qed.

(** A complete code with two or more codes has no code of length 0. *)
Lemma kraft_complete_positive (l : list nat) :
  (kraft_sum l == 1)%Q -> 2 <= length l -> Forall (fun d => 1 <= d) l.
Proof.
  intros Hk Hlen. apply Forall_forall. intros d Hd.
  destruct d as [|d]; [|lia]. exfalso.
  apply elem_of_Permutation in Hd as [l' Hl'].
  rewrite Hl' in Hk, Hlen. simpl in Hk, Hlen.
  assert (l' ≠ []) as Hne by (intros ->; simpl in Hlen; lia).
  pose proof (kraft_sum_pos l' Hne) as Hpos.
  lra.
Qed.

Lemma forest_single_kraft (root : DepthCounterNode) (st : Store) :
  forest_ok [root] st -> (kraft_sum (depth <$> st) == 1)%Q.
Proof.
  intros [Hptrs Hdepths]. rewrite bind_cons in Hptrs.
  change ([] ≫= leaf_pointers) with (@nil nat) in Hptrs. rewrite app_nil_r in Hptrs.
  apply Forall_cons in Hdepths as [Hd _].
  rewrite <- (kraft_tree root).
  assert ((leaf_depths root).*2 = (fun p => depth (st !!! p)) <$> leaf_pointers root) as ->.
  { rewrite <- leaf_depths_fst, <- list_fmap_compose.
    apply list_fmap_ext. intros _ [p d] Hpd%list_elem_of_lookup_2. simpl.
    rewrite Forall_forall in Hd. specialize (Hd _ Hpd). simpl in Hd.
    destruct (st !! p) as [c|] eqn:Hc; [|done].
    rewrite (list_lookup_total_correct _ _ _ Hc). by injection Hd. }
  rewrite Hptrs.
  change (fun p => depth (st !!! p)) with (depth ∘ (st !!!.)).
  rewrite list_fmap_compose. fold (cells_of st (seq 0 (length st))).
  by rewrite cells_of_seq.
Qed.

(** ** The resolver: lines 57-78 of the constructor from raw data *)

Lemma push_frequency_loop (fs : list Frequency) (st : Store) (tree : Tree)
      (leaves : Nodes) :
  exists tree',
    fold_left push_frequency_leaf fs (st, tree, leaves) =
    (st ++ ((fun f => {| element := symbol f; depth := 0 |}) <$> fs), tree',
     leaves ++ seq (length st) (length fs)) /\
    tree'.*2 ≡ₚ tree.*2 ++ (Leaf <$> seq (length st) (length fs)).
Proof.
  revert st tree leaves. induction fs as [|f fs IH]; intros st tree leaves.
  - exists tree. simpl. by rewrite !app_nil_r.
  - cbn [fold_left]. unfold push_frequency_leaf at 2. unfold new_leaf.
    destruct (IH (st ++ [{| element := symbol f; depth := 0 |}])
                 (tree_insert (frequency f) (Leaf (length st)) tree)
                 (leaves ++ [length st])) as (tree' & -> & Hperm).
    exists tree'. rewrite length_app, Nat.add_1_r in *. split.
    + csimpl. by rewrite <- !(assoc_L (++)).
    + rewrite Hperm, tree_insert_Permutation. csimpl.
      by rewrite <- Permutation_middle.
Qed.

Lemma leaves_pointers (ps : list nat) : (Leaf <$> ps) ≫= leaf_pointers = ps.
Proof. induction ps as [|p ps IH]; csimpl; [done|]. by rewrite IH. Qed.

Lemma forest_initial (fs : list Frequency) :
  forest_ok (Leaf <$> seq 0 (length fs))
            ((fun f => {| element := symbol f; depth := 0 |}) <$> fs).
Proof.
  split.
  - by rewrite leaves_pointers, length_fmap.
  - rewrite Forall_fmap. apply Forall_forall. intros p Hp. apply elem_of_seq in Hp.
    simpl. constructor; [|constructor]. simpl.
    rewrite list_lookup_fmap.
    destruct (lookup_lt_is_Some_2 fs p) as [f ->]; [lia|done].
Qed.

Lemma resolve_spec (data : list Byte.byte) :
  data ≠ [] ->
  exists st : Store,
    resolve data = Ok (st, seq 0 (length st)) /\
    element <$> st = symbol <$> _countFrequencies data /\
    Forall (fun c => 1 <= depth c) st /\
    ((2 <= length st /\ (kraft_sum (depth <$> st) == 1)%Q) \/
     exists c, st = [c] /\ depth c = 1).
Proof.
  intros Hdata. unfold resolve.
  assert (_countFrequencies data ≠ []) as Hfs.
  { intros Hnil. apply (used_symbols_nonempty data Hdata).
    apply Permutation_nil_r. by rewrite <- _countFrequencies_symbols, Hnil. }
  set (fs := _countFrequencies data) in *.
  destruct (push_frequency_loop fs [] [] []) as (tree & -> & Hperm).
  rewrite !app_nil_l in *. cbn [length] in *.
  set (st0 := (fun f => {| element := symbol f; depth := 0 |}) <$> fs) in *.
  assert (element <$> st0 = symbol <$> fs) as Hel0.
  { unfold st0. rewrite <- list_fmap_compose. by apply list_fmap_ext. }
  assert (length st0 = length fs) as Hlen0 by (unfold st0; by rewrite length_fmap).
  assert (length tree = length fs) as Hlent.
  { rewrite <- (length_fmap snd), Hperm, length_fmap. apply length_seq. }
  destruct (Nat.ltb_spec 1 (length tree)) as [Hbig|Hsmall].
  - unfold _buildTree.
    destruct (_buildTree_loop_ok (length tree - 1) tree st0) as (tree' & st' & -> & Hl & Hok & Hel);
      [lia|rewrite Hperm; apply forest_initial|].
    rewrite bind_Ok_l.
    rewrite (assert_true (length tree' =? 1)), bind_Ok_l by (apply Nat.eqb_eq; lia).
    destruct tree' as [|[k root] [|? ?]]; simpl in Hl; [lia| |lia].
    rewrite !bind_Ok_l.
    assert (length st' = length fs) as Hlen'.
    { rewrite <- (length_fmap element st'), Hel, length_fmap. done. }
    pose proof (forest_single_kraft root st' Hok) as Hkraft.
    exists st'. rewrite Hlen'. split_and!; [done|by rewrite Hel|  |left; split; [lia|done]].
    apply (Forall_fmap depth (fun d => 1 <= d)).
    apply kraft_complete_positive; [done|]. rewrite length_fmap. lia.
  - destruct fs as [|f [|f' fs']]; simpl in Hlent, Hperm; [done| |lia].
    destruct tree as [|[k root] [|? ?]]; simpl in Hlent; [lia| |lia].
    apply Permutation_singleton_r in Hperm. injection Hperm as ->.
    simpl. exists [{| element := symbol f; depth := 1 |}].
    split_and!; [done|done|by repeat constructor|].
    right. by eexists.
Qed.

Lemma resolve_nil : resolve [] = Err UndefinedBehaviour.
Proof.
  unfold resolve.
  assert (_countFrequencies [] = []) as ->; [|done].
  apply Permutation_nil_r. unfold _countFrequencies.
  rewrite std_sort_Permutation, collect_frequencies_eq.
  destruct (used_symbols []) as [|i l] eqn:Hused; [done|].
  assert (i ∈ used_symbols []) as Hi by (rewrite Hused; left).
  apply used_symbols_elem in Hi. by apply not_elem_of_nil in Hi.
Qed.

(** The constructor from raw data, read off its source: the size check, the
    resolver, the builder. *)
Lemma CodeTableAdapter_data_unfold (data : list Byte.byte) :
  data ≠ [] ->
  exists st : Store,
    resolve data = Ok (st, seq 0 (length st)) /\
    CodeTableAdapter_data data =
      (assert (length data <=? MAXIMUM_DATABLOCK_SIZE);;
       _buildTable st (std_sort (_LeafComparator st) (seq 0 (length st))) zero_table) /\
    NoDup (element <$> st) /\
    Forall (fun c => element c < ALPHABET_SIZE) st /\
    (forall s, s ∈ element <$> st <-> s ∈ Byte.to_nat <$> data) /\
    Forall (fun c => 1 <= depth c) st /\
    ((2 <= length st /\ (kraft_sum (depth <$> st) == 1)%Q) \/
     exists c, st = [c] /\ depth c = 1).
Proof.
  intros Hdata.
  destruct (resolve_spec data Hdata) as (st & Hres & Hel & Hpos & Hkraft).
  exists st. split_and!; [done| | | | |done|done].
  - unfold CodeTableAdapter_data. by rewrite Hres.
  - rewrite Hel, _countFrequencies_symbols. apply used_symbols_nodup.
  - apply (Forall_fmap element (fun e => e < ALPHABET_SIZE)).
    rewrite Hel, _countFrequencies_symbols. apply used_symbols_bounded.
  - intros s. rewrite Hel, _countFrequencies_symbols. apply used_symbols_elem.
Qed.

(** ** Tables and the cells they were built from *)

Lemma byte_of_nat_to_nat (n : nat) : n < 256 -> Byte.to_nat (byte_of_nat n) = n.
Proof.
  intros Hn. unfold byte_of_nat. rewrite Nat.mod_small by done.
  destruct (Byte.of_nat n) as [b|] eqn:Hb; simpl.
  - by apply Byte.to_of_nat.
  - apply Byte.of_nat_None_iff in Hb. lia.
Qed.

Lemma filter_lookup_seq_gen (L' L : list nat) :
  (forall i, i < length L -> L' !!! i = L !!! i) ->
  (L' !!!.) <$> filter (fun i => 0 < L' !!! i) (seq 0 (length L))
  = filter (fun l => 0 < l) L.
Proof.
  induction L as [|l L IH] using rev_ind; intros Hlook; [done|].
  rewrite length_app, Nat.add_1_r, seq_S, !filter_app, fmap_app. cbn [Nat.add].
  rewrite IH.
  2:{ intros i Hi. rewrite Hlook by (rewrite length_app; simpl; lia).
      by rewrite lookup_total_app_l. }
  f_equal. rewrite !filter_cons, !filter_nil.
  assert (L' !!! length L = l) as Hl.
  { rewrite Hlook by (rewrite length_app; simpl; lia).
    by rewrite lookup_total_app_r, Nat.sub_diag. }
  rewrite Hl. destruct (decide (0 < l)); csimpl; [by rewrite Hl|done].
Qed.

Lemma filter_lookup_seq (L : list nat) :
  (L !!!.) <$> filter (fun i => 0 < L !!! i) (seq 0 (length L)) = filter (fun l => 0 < l) L.
Proof. by apply filter_lookup_seq_gen. Qed.

Lemma length_cells_depths (L : list nat) :
  depth <$> length_cells L (seq 0 (length L)) = filter (fun l => 0 < l) L.
Proof.
  unfold length_cells. rewrite <- list_fmap_compose. apply filter_lookup_seq.
Qed.

Lemma shiftr_one (n : nat) : 0 < n -> Z.shiftr 1 (Z.of_nat n) = 0%Z.
Proof.
  intros Hn. rewrite Z.shiftr_div_pow2 by lia. apply Z.div_small.
  split; [lia|]. apply Z.pow_gt_1; lia.
Qed.

Lemma codelength_lookup_total (l : list Code) (i : nat) :
  i < length l -> (codelength <$> l) !!! i = codelength (l !!! i).
Proof. apply list_lookup_total_fmap. Qed.

Section tables.
Variables (st : Store) (leaves : Nodes) (t : CodeTable).
Hypothesis Hnodup : NoDup (element <$> cells_of st leaves).
Hypothesis Hsyms : Forall (fun c => element c < ALPHABET_SIZE) (cells_of st leaves).
Hypothesis Hbuilt :
  _buildTable st (std_sort (_LeafComparator st) leaves) zero_table = Ok t.
Hypothesis Hpos : Forall (fun c => 1 <= depth c) (cells_of st leaves).

Let sorted := sorted_cells st leaves.

Lemma built_codelength_total (c : LeafCell) :
  c ∈ cells_of st leaves -> codelength (codes t !!! element c) = depth c.
Proof.
  intros Hc. rewrite <- (sorted_cells_Permutation st leaves) in Hc.
  apply list_elem_of_lookup in Hc as [i Hi].
  destruct (built_lookup st leaves Hnodup Hsyms t Hbuilt i c Hi) as (k & _ & Hlen & Hk).
  by rewrite (list_lookup_total_correct _ _ _ Hk).
Qed.

(** The table determines the cells: they are the non-zero codelengths. *)
Lemma built_cells :
  length_cells (codelength <$> codes t) (seq 0 ALPHABET_SIZE) ≡ₚ cells_of st leaves.
Proof.
  pose proof (built_length st leaves Hnodup Hsyms t Hbuilt) as Hlen.
  apply NoDup_Permutation.
  - eapply NoDup_fmap_1, length_cells_nodup.
  - by eapply NoDup_fmap_1.
  - intros c. rewrite length_cells_elem. split.
    + intros (Hlt & Hd & Heq).
      rewrite codelength_lookup_total in Heq by (rewrite Hlen; done).
      destruct (lookup_lt_is_Some_2 (codes t) (element c)) as [k Hk]; [by rewrite Hlen|].
      rewrite (list_lookup_total_correct _ _ _ Hk) in Heq.
      destruct (built_assigned st leaves Hnodup Hsyms t Hbuilt (element c) k Hk)
        as (i & c' & Hi & He & _ & Hdepth); [lia|].
      assert (c = c') as ->.
      { destruct c, c'; simpl in *. f_equal; congruence. }
      rewrite <- (sorted_cells_Permutation st leaves). by eapply list_elem_of_lookup_2.
    + intros Hc.
      pose proof (proj1 (Forall_forall _ _) Hsyms c Hc) as Hsym.
      pose proof (proj1 (Forall_forall _ _) Hpos c Hc) as Hposc. simpl in *.
      split_and!; [done|lia|].
      rewrite codelength_lookup_total by (rewrite Hlen; done).
      by rewrite built_codelength_total.
Qed.

Lemma built_assigned_lengths :
  assigned_lengths t ≡ₚ depth <$> cells_of st leaves.
Proof.
  unfold assigned_lengths. rewrite <- built_cells.
  rewrite <- (length_cells_depths (codelength <$> codes t)), length_fmap.
  by rewrite (built_length st leaves Hnodup Hsyms t Hbuilt).
Qed.

(** In a complete code the two longest codes have the same length, so the
    assertion of the loop covers the first leaf as well. *)
Lemma built_below_max :
  (2 <= length leaves /\ (kraft_sum (depth <$> cells_of st leaves) == 1)%Q) \/
  (length leaves = 1 /\ Forall (fun c => depth c < MAXIMUM_CODELENGTH) (cells_of st leaves)) ->
  Forall (fun c => depth c < MAXIMUM_CODELENGTH) (cells_of st leaves).
Proof.
  intros [[Hlen Hkraft]|[_ Hall]]; [|done].
  rewrite <- (sorted_cells_Permutation st leaves). fold sorted.
  destruct (proj1 (build_spec st leaves Hnodup Hsyms t) Hbuilt)
    as (c & cs & Heq & Hmax & _).
  apply chain_bounded in Hmax. rewrite Forall_fmap in Hmax.
  fold sorted in Heq. rewrite Heq. constructor; [|done].
  destruct (built_scaled st leaves t Hnodup Hsyms Hbuilt)
    as (c0 & cs0 & Heq0 & Hch & Hle & Hsum).
  fold sorted in Heq0, Hle, Hsum. rewrite Heq in Heq0. injection Heq0 as <- <-.
  rewrite <- (sorted_cells_Permutation st leaves) in Hkraft. fold sorted in Hkraft.
  apply (kraft_eq_scaled (depth c)) in Hkraft; [|done].
  destruct cs as [|c' cs'].
  { assert (length sorted = length leaves) as Hl.
    { unfold sorted, sorted_cells, cells_of.
      by rewrite length_fmap, std_sort_Permutation. }
    rewrite Heq in Hl. simpl in Hl. lia. }
  apply Forall_cons in Hmax as [Hc' _].
  destruct (canon_intervals (depth <$> c' :: cs') (CodeMake (depth c) 0) (depth c))
    as [_ Hfirst]; [exact Hch|simpl; lia|simpl; lia|by rewrite Hsum|].
  specialize (Hfirst (depth c') (depth <$> cs') (fmap_cons depth c' cs')).
  unfold hi, lo, weight in Hfirst. simpl in Hfirst, Hch.
  destruct (decide (depth c' = depth c)) as [Hsame|Hne]; [lia|].
  rewrite shiftr_one in Hfirst by lia.
  rewrite Nat.sub_diag in Hfirst. simpl in Hfirst. lia.
Qed.
End tables.

(** Two sets of leaves with the same cells give the same table. *)
Lemma build_Permutation (st1 st2 : Store) (leaves1 leaves2 : Nodes) (t : CodeTable) :
  NoDup (element <$> cells_of st1 leaves1) ->
  Forall (fun c => element c < ALPHABET_SIZE) (cells_of st1 leaves1) ->
  cells_of st1 leaves1 ≡ₚ cells_of st2 leaves2 ->
  _buildTable st1 (std_sort (_LeafComparator st1) leaves1) zero_table = Ok t ->
  _buildTable st2 (std_sort (_LeafComparator st2) leaves2) zero_table = Ok t.
Proof.
  intros Hnd Hsyms Hperm Hb.
  assert (sorted_cells st1 leaves1 = sorted_cells st2 leaves2) as Heq.
  { apply (StronglySorted_unique leaf_le); [apply sorted_cells_sorted..|].
    by rewrite !sorted_cells_Permutation. }
  apply build_spec; [by rewrite <- Hperm..|].
  apply build_spec in Hb; [|done..]. by rewrite <- Heq.
Qed.

(** ** The height of the merge tree

    A tree that the merge builds weighs at least [fib (height + 2)]: the
    deepest leaf of a buffer of [n] bytes is no deeper than the Fibonacci
    numbers allow. *)

Lemma fib_SS (n : nat) : fib (S (S n)) = fib n + fib (S n).
Proof. done. Qed.

Lemma fib_plus2 (n : nat) : fib (n + 2) = fib (S (S n)).
Proof. f_equal. lia. Qed.

Lemma fib_plus3 (n : nat) : fib (S n + 2) = fib (S n) + fib (n + 2).
Proof. rewrite !fib_plus2. apply fib_SS. Qed.

Lemma fib_mono_S (n : nat) : fib n <= fib (S n).
Proof. destruct n as [|n]; [simpl; lia|]. rewrite fib_SS. lia. Qed.

Lemma fib_mono (n m : nat) : n <= m -> fib n <= fib m.
Proof.
  induction 1 as [|m _ IH]; [done|]. pose proof (fib_mono_S m). lia.
Qed.

Lemma fibbed_weight (w : nat -> nat) (n : DepthCounterNode) :
  fibbed w n -> fib (height n + 2) <= weight_of w n.
Proof.
  destruct n as [p|l r]; cbn [fibbed height weight_of].
  - rewrite fib_plus2. simpl. lia.
  - by intros (_ & _ & ?).
Qed.

Lemma leaf_depths_height (n : DepthCounterNode) :
  Forall (fun pd => pd.2 <= height n) (leaf_depths n).
Proof.
  induction n as [p|l IHl r IHr]; simpl; [by repeat constructor|].
  rewrite Forall_fmap, Forall_app. split.
  - eapply Forall_impl; [exact IHl|]. intros [p d]; simpl. lia.
  - eapply Forall_impl; [exact IHr|]. intros [p d]; simpl. lia.
Qed.

Lemma tree_insert_sorted (k : nat) (v : DepthCounterNode) (t : Tree) :
  StronglySorted (fun a b => a.1 <= b.1) t ->
  StronglySorted (fun a b => a.1 <= b.1) (tree_insert k v t).
Proof.
  induction 1 as [|[k' v'] t Hss IH Hall]; simpl; [repeat constructor|].
  destruct (Nat.ltb_spec k k') as [Hlt|Hge].
  - constructor; [by constructor|]. constructor; [simpl; lia|].
    eapply Forall_impl; [exact Hall|]. simpl. lia.
  - constructor; [done|]. rewrite tree_insert_Permutation.
    constructor; [simpl; lia|done].
Qed.

Lemma fib_ok_merge (w : nat -> nat) (k1 k2 : nat) (n1 n2 : DepthCounterNode)
      (rest : Tree) :
  fib_ok w ((k1, n1) :: (k2, n2) :: rest) ->
  fib_ok w (tree_insert (k1 + k2) (Internal n1 n2) rest).
Proof.
  intros (Hss & Hall & Hlow).
  apply StronglySorted_inv in Hss as [Hss H1].
  apply StronglySorted_inv in Hss as [Hss H2].
  apply Forall_cons in H1 as [Hk12 H1]. simpl in Hk12.
  apply Forall_cons in Hall as [[Hw1 Hf1] Hall].
  apply Forall_cons in Hall as [[Hw2 Hf2] Hall]. simpl in Hw1, Hw2, Hf1, Hf2.
  assert (fibbed w (Internal n1 n2)) as Hf.
  { cbn [fibbed]. split_and!; [done..|].
    pose proof (fibbed_weight w n1 Hf1) as Hfw1.
    pose proof (fibbed_weight w n2 Hf2) as Hfw2.
    rewrite <- Hw1 in Hfw1 |- *. rewrite <- Hw2 in Hfw2 |- *.
    rewrite fib_plus3.
    (* the lighter tree weighs at least [fib (H + 1)] *)
    assert (fib (S (height n1 `max` height n2)) <= k1) as Hlight.
    { destruct (Nat.max_spec (height n1) (height n2)) as [[Hlt ->]|[Hle ->]].
      - (* [n2] is the higher one: one of its children has height [H - 1] *)
        destruct n2 as [p|l r]; [cbn [height] in Hlt; lia|].
        cbn [fibbed] in Hf2. destruct Hf2 as (Hfl & Hfr & _).
        assert (child_weight w (Internal l r) <= k1) as Hc
            by (apply (Hlow (k2, Internal l r) (k1, n1)); rewrite !elem_of_cons; auto).
        cbn [child_weight] in Hc. cbn [height].
        destruct (Nat.max_spec (height l) (height r)) as [[_ ->]|[_ ->]].
        + pose proof (fibbed_weight w r Hfr) as Hr.
          rewrite fib_plus2 in Hr. lia.
        + pose proof (fibbed_weight w l Hfl) as Hl.
          rewrite fib_plus2 in Hl. lia.
      - rewrite fib_plus2 in Hfw1.
        pose proof (fib_mono_S (S (height n1))). lia. }
    destruct (Nat.max_spec (height n1) (height n2)) as [[_ Hm]|[_ Hm]];
      rewrite Hm in *; lia. }
  split_and!.
  - by apply tree_insert_sorted.
  - rewrite tree_insert_Permutation. constructor; [|done]. simpl.
    split; [lia|done].
  - intros kn kn'. rewrite !tree_insert_Permutation, !elem_of_cons.
    rewrite Forall_forall in H1, H2.
    intros [->|Hkn] [->|Hkn']; simpl.
    + lia.
    + specialize (H2 _ Hkn'). simpl in H2. lia.
    + assert (child_weight w kn.2 <= k1); [|lia].
      apply (Hlow kn (k1, n1)); rewrite !elem_of_cons; auto.
    + apply (Hlow kn kn'); rewrite !elem_of_cons; auto.
Qed.

Lemma _buildTree_loop_fib (w : nat -> nat) (n : nat) (tree tree' : Tree)
      (st st' : Store) :
  fib_ok w tree ->
  _buildTree_loop n tree st = Ok (tree', st') ->
  fib_ok w tree'.
Proof.
  revert tree st. induction n as [|n IH]; intros tree st Hok Hrun; simpl in Hrun.
  - by injection Hrun as <- _.
  - destruct tree as [|[f1 n1] [|[f2 n2] rest]]; [done..|].
    eapply IH; [|exact Hrun]. by apply fib_ok_merge.
Qed.

Lemma leaf_forest_fib_ok (w : nat -> nat) (tree : Tree) :
  leaf_forest w tree -> fib_ok w tree.
Proof.
  intros [Hss Hall]. split_and!; [done| |].
  - eapply Forall_impl; [exact Hall|]. intros [k n] (p & Hn & Hk & Hp).
    simpl in *. by subst.
  - intros [k n] kn' Hkn _. rewrite Forall_forall in Hall.
    destruct (Hall _ Hkn) as (p & Hn & _). simpl in *. subst. simpl. lia.
Qed.

Lemma push_frequency_leaf_forest (w : nat -> nat) (fs : list Frequency)
      (st : Store) (tree : Tree) (leaves : Nodes) :
  leaf_forest w tree ->
  (forall i f, fs !! i = Some f -> w (length st + i) = frequency f /\ 1 <= frequency f) ->
  leaf_forest w (fold_left push_frequency_leaf fs (st, tree, leaves)).1.2.
Proof.
  revert st tree leaves. induction fs as [|f fs IH]; intros st tree leaves Hok Hw.
  - done.
  - cbn [fold_left]. unfold push_frequency_leaf at 2. unfold new_leaf.
    apply IH.
    + destruct Hok as [Hss Hall]. destruct (Hw 0 f eq_refl) as [Hw0 Hpos].
      rewrite Nat.add_0_r in Hw0. split.
      * by apply tree_insert_sorted.
      * rewrite tree_insert_Permutation. constructor; [|done].
        exists (length st). simpl. split_and!; [done|done|lia].
    + intros i f' Hi. rewrite length_app. simpl.
      replace (length st + 1 + i) with (length st + S i) by lia.
      by apply Hw.
Qed.

Lemma weight_of_sum (w : nat -> nat) (n : DepthCounterNode) :
  weight_of w n = sum_list_with w (leaf_pointers n).
Proof.
  induction n as [p|l IHl r IHr]; simpl; [lia|].
  by rewrite sum_list_with_app, IHl, IHr.
Qed.

Lemma sum_list_with_fmap {A B : Type} (g : B -> nat) (h : A -> B) (l : list A) :
  sum_list_with g (h <$> l) = sum_list_with (g ∘ h) l.
Proof. induction l as [|x l IH]; csimpl; [done|]. by rewrite IH. Qed.

Lemma lookup_total_seq {A : Type} `{!Inhabited A} (l : list A) :
  (l !!!.) <$> seq 0 (length l) = l.
Proof.
  apply list_eq. intros i. rewrite list_lookup_fmap.
  destruct (decide (i < length l)) as [Hlt|Hge].
  - rewrite lookup_seq_lt by done. simpl.
    destruct (lookup_lt_is_Some_2 l i Hlt) as [c Hc].
    by rewrite Hc, (list_lookup_total_correct _ _ _ Hc).
  - by rewrite lookup_seq_ge, lookup_ge_None_2 by lia.
Qed.

Lemma sum_list_with_filter_pos {A : Type} (f : A -> nat) (l : list A) :
  sum_list_with f (filter (fun i => 0 < f i) l) = sum_list_with f l.
Proof.
  induction l as [|x l IH]; [done|]. rewrite filter_cons.
  destruct (decide (0 < f x)); simpl; rewrite IH; lia.
Qed.

Lemma filter_length_split (data : list Byte.byte) (n : nat) :
  length (filter (fun b => Byte.to_nat b < S n) data) =
  length (filter (fun b => Byte.to_nat b < n) data) + occurrences n data.
Proof.
  unfold occurrences. induction data as [|b data IH]; [done|].
  rewrite !filter_cons.
  destruct (decide (Byte.to_nat b < S n)), (decide (Byte.to_nat b < n)),
    (decide (Byte.to_nat b = n)); simpl; lia.
Qed.

Lemma sum_occurrences_below (data : list Byte.byte) (n : nat) :
  sum_list_with (fun i => occurrences i data) (seq 0 n) =
  length (filter (fun b => Byte.to_nat b < n) data).
Proof.
  induction n as [|n IH].
  - simpl. induction data as [|b data IHd]; [done|].
    rewrite filter_cons. destruct (decide (Byte.to_nat b < 0)); [lia|done].
  - rewrite seq_S, sum_list_with_app, IH, filter_length_split. simpl. lia.
Qed.

Lemma sum_occurrences (data : list Byte.byte) :
  sum_list_with (fun i => occurrences i data) (seq 0 ALPHABET_SIZE) = length data.
Proof.
  rewrite sum_occurrences_below. induction data as [|b data IH]; [done|].
  rewrite filter_cons. pose proof (Byte.to_nat_bounded b).
  rewrite decide_True by (rewrite ALPHABET_SIZE_eq; lia). simpl. by rewrite IH.
Qed.

(** The frequencies of a buffer add up to its length. *)
Lemma sum_frequencies (data : list Byte.byte) :
  sum_list_with frequency (_countFrequencies data) = length data.
Proof.
  rewrite _countFrequencies_Permutation, sum_list_with_fmap.
  unfold used_symbols.
  rewrite (sum_list_with_filter_pos (fun i => occurrences i data)).
  apply sum_occurrences.
Qed.

Lemma frequencies_positive (data : list Byte.byte) :
  Forall (fun f => 1 <= frequency f) (_countFrequencies data).
Proof.
  rewrite _countFrequencies_Permutation, Forall_fmap.
  apply Forall_forall. intros i Hi. simpl.
  apply list_elem_of_filter in Hi as [Hi _]. lia.
Qed.

(** With two or more symbols, a leaf of depth [d] is found only in a buffer
    of at least [fib (d + 2)] bytes. *)
Lemma resolve_heights (data : list Byte.byte) (st : Store) (leaves : Nodes) :
  resolve data = Ok (st, leaves) ->
  2 <= length st ->
  Forall (fun c => fib (depth c + 2) <= length data) st.
Proof.
  unfold resolve. set (fs := _countFrequencies data).
  set (w := fun p => frequency (fs !!! p)).
  assert (leaf_forest w (fold_left push_frequency_leaf fs ([], [], [])).1.2) as Hlf.
  { apply push_frequency_leaf_forest; [by split; constructor|].
    intros i f Hi. simpl. unfold w. rewrite (list_lookup_total_correct _ _ _ Hi).
    split; [done|]. pose proof (frequencies_positive data) as Hpos.
    rewrite Forall_forall in Hpos. apply Hpos. by eapply list_elem_of_lookup_2. }
  destruct (push_frequency_loop fs [] [] []) as (tree & Heq & Hperm).
  rewrite Heq in Hlf |- *. simpl in Hlf. clear Heq.
  rewrite !app_nil_l in *. cbn [length] in *.
  set (st0 := (fun f => {| element := symbol f; depth := 0 |}) <$> fs) in *.
  assert (length tree = length fs) as Hlent.
  { rewrite <- (length_fmap snd), Hperm, length_fmap. apply length_seq. }
  destruct (Nat.ltb_spec 1 (length tree)) as [Hbig|Hsmall].
  - unfold _buildTree.
    destruct (_buildTree_loop_ok (length tree - 1) tree st0)
      as (tree' & st' & Hrun & Hl & Hok & Hel);
      [lia|rewrite Hperm; apply forest_initial|].
    rewrite Hrun, bind_Ok_l.
    rewrite (assert_true (length tree' =? 1)), bind_Ok_l by (apply Nat.eqb_eq; lia).
    apply leaf_forest_fib_ok in Hlf.
    pose proof (_buildTree_loop_fib w _ _ _ _ _ Hlf Hrun) as (_ & Hfib & _).
    destruct tree' as [|[k root] [|? ?]]; simpl in Hl; [lia| |lia].
    rewrite !bind_Ok_l. intros [= <- <-] _.
    apply Forall_cons in Hfib as [[Hk Hfib] _]. simpl in Hk, Hfib.
    apply fibbed_weight in Hfib.
    destruct Hok as [Hptrs Hdepths]. simpl in Hptrs, Hdepths.
    rewrite app_nil_r in Hptrs. apply Forall_cons in Hdepths as [Hdepths _].
    assert (length st' = length fs) as Hlen'.
    { rewrite <- (length_fmap element st'), Hel. unfold st0.
      by rewrite !length_fmap. }
    assert (weight_of w root = length data) as Hweight.
    { rewrite weight_of_sum, Hptrs, Hlen'. unfold w.
      change (fun p => frequency (fs !!! p)) with (frequency ∘ (fs !!!.)).
      rewrite <- sum_list_with_fmap, lookup_total_seq.
      apply sum_frequencies. }
    apply Forall_forall. intros c Hc.
    apply list_elem_of_lookup in Hc as [p Hp].
    assert (p ∈ leaf_pointers root) as Hin.
    { rewrite Hptrs. apply elem_of_seq. apply lookup_lt_Some in Hp. lia. }
    rewrite <- leaf_depths_fst in Hin.
    apply list_elem_of_fmap in Hin as ([p' d] & -> & Hpd). simpl in Hp.
    rewrite Forall_forall in Hdepths. pose proof (Hdepths _ Hpd) as Hd.
    simpl in Hd. rewrite Hp in Hd. injection Hd as Hd.
    pose proof (leaf_depths_height root) as Hh. rewrite Forall_forall in Hh.
    specialize (Hh _ Hpd). simpl in Hh.
    pose proof (fib_mono (depth c + 2) (height root + 2)). lia.
  - destruct tree as [|[k root] [|? ?]]; simpl in Hsmall; [done| |lia].
    destruct root as [p|l r]; simpl; [|done].
    intros [= <- <-]. rewrite length_alter. unfold st0. rewrite length_fmap.
    simpl in Hlent. lia.
Qed.

Lemma fib_below (d n m : nat) : fib (d + 2) <= n -> n < fib (m + 2) -> d < m.
Proof.
  intros Hle Hlt. destruct (decide (d < m)) as [|Hge]; [done|].
  pose proof (fib_mono (m + 2) (d + 2)). lia.
Qed.

(** * The claims about the builder *)

(** C1 (canonical code assignment).  For every non-empty set of
    (symbol, length) pairs with distinct symbols and lengths in
    [1, MAXIMUM_CODELENGTH), the builder walks the pairs sorted by descending
    length and, among equal lengths, ascending symbol; the first pair gets
    pattern 0 at its length; a following pair of the same length gets the
    previous pattern plus 1, and one of a shorter length gets the previous
    pattern plus 1 shifted right by the difference of the lengths.  The
    length of the first pair is recorded as [max_codelength]. *)
Theorem canonical_code_assignment (st : Store) (leaves : Nodes) :
  leaves ≠ [] ->
  NoDup (element <$> cells_of st leaves) ->
  Forall (fun c => element c < ALPHABET_SIZE /\ 1 <= depth c < MAXIMUM_CODELENGTH)
         (cells_of st leaves) ->
  let sorted := cells_of st (std_sort (_LeafComparator st) leaves) in
  sorted ≡ₚ cells_of st leaves /\
  (forall i j a b, i < j -> sorted !! i = Some a -> sorted !! j = Some b ->
     depth b <= depth a /\ (depth a = depth b -> element a < element b)) /\
  exists t,
    _buildTable st (std_sort (_LeafComparator st) leaves) zero_table = Ok t /\
    (forall a, sorted !! 0 = Some a ->
       codes t !! element a = Some (CodeMake (depth a) 0) /\
       max_codelength (info t) = depth a) /\
    (forall i a b ka,
       sorted !! i = Some a -> sorted !! S i = Some b ->
       codes t !! element a = Some ka ->
       codes t !! element b =
       Some (CodeMake (depth b)
               (if depth b =? depth a then (code ka + 1)%Z
                else Z.shiftr (code ka + 1) (Z.of_nat (depth a - depth b))))).
Proof.
  intros Hne Hnd Hall sorted. fold (sorted_cells st leaves) in sorted. subst sorted.
  assert (Forall (fun c => element c < ALPHABET_SIZE) (cells_of st leaves)) as Hsyms
      by (eapply Forall_impl; [exact Hall|]; simpl; tauto).
  assert (Forall (fun c => depth c < MAXIMUM_CODELENGTH) (sorted_cells st leaves)) as Hmax.
  { rewrite sorted_cells_Permutation.
    eapply Forall_impl; [exact Hall|]. simpl. lia. }
  pose proof (sorted_cells_sorted st leaves) as Hss.
  pose proof (sorted_nodup st leaves Hnd) as Hnds.
  split; [apply sorted_cells_Permutation|]. split.
  { intros i j a b Hij Ha Hb.
    destruct (StronglySorted_lookup _ _ i j a b Hss Hij Ha Hb) as [Hd He].
    split; [done|]. intros Heq. specialize (He Heq).
    assert (element a ≠ element b); [|lia]. intros Hsame.
    assert (i = j); [|lia].
    apply (NoDup_lookup (element <$> sorted_cells st leaves) i j (element a));
      [exact Hnds|by rewrite list_lookup_fmap, Ha|by rewrite list_lookup_fmap, Hb, Hsame]. }
  assert (length (sorted_cells st leaves) = length leaves) as Hlen.
  { unfold sorted_cells, cells_of. by rewrite length_fmap, std_sort_Permutation. }
  destruct (sorted_cells st leaves) as [|c cs] eqn:Hsorted.
  { by destruct leaves. }
  assert (exists t, _buildTable st (std_sort (_LeafComparator st) leaves) zero_table = Ok t)
    as [t Ht].
  { eexists. apply build_spec; [done..|]. exists c, cs.
    split_and!; [done|by apply sorted_chain|by rewrite Hsorted]. }
  exists t. split; [done|]. split.
  - intros a [= <-].
    destruct (built_lookup st leaves Hnd Hsyms t Ht 0 c) as (k & Hk & _ & Hlook);
      [by rewrite Hsorted|].
    rewrite Hsorted in Hk. simpl in Hk. injection Hk as <-. split; [done|].
    destruct (built_max_codelength st leaves Hnd Hsyms t Ht) as (c' & cs' & Heq & Hmax' & _).
    rewrite Hsorted in Heq. by injection Heq as <- <-.
  - intros i a b ka Ha Hb Hka.
    destruct (built_lookup st leaves Hnd Hsyms t Ht i a) as (k & Hk & Hlen1 & Hlook);
      [by rewrite Hsorted|].
    destruct (built_lookup st leaves Hnd Hsyms t Ht (S i) b) as (k' & Hk' & Hlen' & Hlook');
      [by rewrite Hsorted|].
    rewrite Hka in Hlook. injection Hlook as <-.
    rewrite Hsorted in Hk, Hk'. cbn [canonical_codes] in Hk, Hk'.
    destruct (canon_lookup_S _ _ i ka k' Hk Hk') as (d & Hd & ->).
    rewrite Hlook'. unfold step. simpl in Hlen'. subst d. rewrite Hlen1.
    destruct (Nat.eqb_spec (depth b) (depth a)) as [->|_]; [|done].
    by rewrite Nat.sub_diag, Z.shiftr_0_r.
Qed.

(** C7 ([max_codelength]).  In every built table, from raw data or from a
    length descriptor, the stored [max_codelength] is the greatest codelength
    among the assigned codes: some assigned code has that length and no code
    is longer. *)
Theorem max_codelength_is_greatest :
  (forall data t, CodeTableAdapter_data data = Ok t ->
     (exists s c, codes t !! s = Some c /\ codelength c ≠ 0 /\
                  codelength c = max_codelength (info t)) /\
     (forall s c, codes t !! s = Some c -> codelength c <= max_codelength (info t))) /\
  (forall file_data t, CodeTableAdapter_lengths file_data = Ok t ->
     (exists s c, codes t !! s = Some c /\ codelength c ≠ 0 /\
                  codelength c = max_codelength (info t)) /\
     (forall s c, codes t !! s = Some c -> codelength c <= max_codelength (info t))).
Proof.
  assert (forall (st : Store) t,
            NoDup (element <$> st) ->
            Forall (fun c => element c < ALPHABET_SIZE) st ->
            Forall (fun c => 1 <= depth c) st ->
            _buildTable st (std_sort (_LeafComparator st) (seq 0 (length st))) zero_table
              = Ok t ->
            (exists s c, codes t !! s = Some c /\ codelength c ≠ 0 /\
                         codelength c = max_codelength (info t)) /\
            (forall s c, codes t !! s = Some c ->
                         codelength c <= max_codelength (info t))) as Hmain.
  { intros st t Hnd Hsyms Hpos Hb.
    rewrite <- (cells_of_seq st) in Hnd, Hsyms, Hpos.
    destruct (built_max_codelength _ _ Hnd Hsyms t Hb) as (c & cs & Heq & Hmax & Hle).
    split.
    - destruct (built_lookup _ _ Hnd Hsyms t Hb 0 c) as (k & _ & Hlen & Hlook);
        [by rewrite Heq|].
      exists (element c), k. split_and!; [done| |congruence].
      rewrite Forall_forall in Hpos.
      assert (1 <= depth c); [|lia]. apply Hpos.
      rewrite <- (sorted_cells_Permutation st), Heq. left.
    - intros s k Hs. destruct (decide (codelength k = 0)) as [->|Hnz]; [lia|].
      destruct (built_assigned _ _ Hnd Hsyms t Hb s k Hs Hnz)
        as (i & c' & Hi & _ & _ & Hlen).
      rewrite Forall_forall in Hle. rewrite Hmax, Hlen. apply Hle.
      rewrite <- Heq. by eapply list_elem_of_lookup_2. }
  split.
  - intros data t Ht.
    destruct data as [|b data].
    { unfold CodeTableAdapter_data in Ht. rewrite resolve_nil in Ht.
      by destruct (assert _). }
    destruct (CodeTableAdapter_data_unfold (b :: data)) as
      (st & _ & Hctor & Hnd & Hsyms & _ & Hpos & _); [done|].
    rewrite Hctor in Ht. apply bind_Ok in Ht as (_ & _ & Ht). by eapply Hmain.
  - intros file_data t Ht.
    apply CodeTableAdapter_lengths_spec in Ht as (_ & _ & Ht).
    eapply Hmain; [apply length_cells_nodup|apply length_cells_syms| |exact Ht].
    apply Forall_forall. intros c Hc%length_cells_elem. lia.
Qed.

(** C9 (unused symbols untouched).  In every built table every symbol that
    is not among the pairs (a byte that does not occur in the data, a symbol
    of length 0 in the descriptor) keeps the zero entry, and [_buildTable]
    leaves the entry of every symbol outside its leaves as it found it. *)
Theorem unused_symbols_untouched :
  (forall data t s,
     CodeTableAdapter_data data = Ok t ->
     s < ALPHABET_SIZE -> s ∉ Byte.to_nat <$> data ->
     codes t !! s = Some (CodeMake 0 0)) /\
  (forall file_data t s,
     CodeTableAdapter_lengths file_data = Ok t ->
     (Byte.to_nat <$> file_data) !! s = Some 0 ->
     codes t !! s = Some (CodeMake 0 0)) /\
  (forall st leaves t0 t s,
     _buildTable st leaves t0 = Ok t ->
     s ∉ element <$> cells_of st leaves ->
     codes t !! s = codes t0 !! s).
Proof.
  split_and!.
  - intros data t s Ht Hs Hnotin.
    destruct data as [|b data].
    { unfold CodeTableAdapter_data in Ht. rewrite resolve_nil in Ht.
      by destruct (assert _). }
    destruct (CodeTableAdapter_data_unfold (b :: data)) as
      (st & _ & Hctor & Hnd & Hsyms & Hel & _); [done|].
    rewrite Hctor in Ht. apply bind_Ok in Ht as (_ & _ & Ht).
    rewrite <- (cells_of_seq st) in Hnd, Hsyms.
    apply (built_other _ _ Hnd Hsyms t Ht s Hs).
    rewrite cells_of_seq. by rewrite Hel.
  - intros file_data t s Ht Hzero.
    apply CodeTableAdapter_lengths_spec in Ht as (Hlen & _ & Ht).
    set (cells := length_cells _ _) in *.
    pose proof (length_cells_nodup (Byte.to_nat <$> file_data)) as Hnd.
    pose proof (length_cells_syms (Byte.to_nat <$> file_data)) as Hsyms.
    fold cells in Hnd, Hsyms. rewrite <- (cells_of_seq cells) in Hnd, Hsyms.
    apply (built_other _ _ Hnd Hsyms t Ht s).
    + apply lookup_lt_Some in Hzero. by rewrite length_fmap, Hlen in Hzero.
    + rewrite cells_of_seq. intros Hin.
      apply list_elem_of_fmap in Hin as (c & -> & Hc).
      apply length_cells_elem in Hc as (_ & Hpos & Hd).
      rewrite (list_lookup_total_correct _ _ _ Hzero) in Hd. lia.
  - intros st leaves t0 t s Ht Hnotin.
    apply _buildTable_spec in Ht as (c & cells & Heq & _ & ->).
    rewrite Heq in Hnotin. by rewrite write_codes_other.
Qed.

(** * The claims about the two constructors *)

(** What the constructor from raw data hands to the builder. *)
Lemma CodeTableAdapter_data_built (data : list Byte.byte) (t : CodeTable) :
  CodeTableAdapter_data data = Ok t ->
  exists st : Store,
    resolve data = Ok (st, seq 0 (length st)) /\
    length data <= MAXIMUM_DATABLOCK_SIZE /\
    _buildTable st (std_sort (_LeafComparator st) (seq 0 (length st))) zero_table = Ok t /\
    NoDup (element <$> cells_of st (seq 0 (length st))) /\
    Forall (fun c => element c < ALPHABET_SIZE) (cells_of st (seq 0 (length st))) /\
    (forall s, s ∈ element <$> st <-> s ∈ Byte.to_nat <$> data) /\
    Forall (fun c => 1 <= depth c) (cells_of st (seq 0 (length st))) /\
    ((2 <= length st /\ (kraft_sum (depth <$> st) == 1)%Q) \/
     exists c, st = [c] /\ depth c = 1).
Proof.
  intros Ht. destruct data as [|b data].
  { unfold CodeTableAdapter_data in Ht. rewrite resolve_nil in Ht.
    by destruct (assert _). }
  destruct (CodeTableAdapter_data_unfold (b :: data)) as
    (st & Hres & Hctor & Hnd & Hsyms & Hel & Hpos & Hkraft); [done|].
  rewrite Hctor in Ht. apply bind_Ok in Ht as (u & Hsize & Ht).
  apply assert_Ok, Nat.leb_le in Hsize.
  exists st. rewrite cells_of_seq. done.
Qed.

Lemma kraft_sum_single : (kraft_sum [1%nat] <= 1)%Q.
Proof. by vm_compute. Qed.

Lemma data_cells_kraft (st : Store) :
  (2 <= length st /\ (kraft_sum (depth <$> st) == 1)%Q) \/
  (exists c, st = [c] /\ depth c = 1) ->
  (kraft_sum (depth <$> st) <= 1)%Q.
Proof.
  intros [[_ ->]|(c & -> & Hc)]; [apply Qle_refl|].
  csimpl. rewrite Hc. apply kraft_sum_single.
Qed.

(** C10 (pattern width).  In every table built from lengths that satisfy
    Kraft's inequality (a length descriptor that does, or raw data, whose
    resolved lengths always do) the pattern of every assigned code is below
    [2^codelength]. *)
Theorem pattern_fits_codelength :
  (forall file_data t,
     CodeTableAdapter_lengths file_data = Ok t ->
     (kraft_sum (descriptor_lengths file_data) <= 1)%Q ->
     forall s c, codes t !! s = Some c -> codelength c ≠ 0 ->
                 (0 <= code c < 2 ^ Z.of_nat (codelength c))%Z) /\
  (forall data t,
     CodeTableAdapter_data data = Ok t ->
     forall s c, codes t !! s = Some c -> codelength c ≠ 0 ->
                 (0 <= code c < 2 ^ Z.of_nat (codelength c))%Z).
Proof.
  assert (forall (st : Store) (leaves : Nodes) t s c,
            NoDup (element <$> cells_of st leaves) ->
            Forall (fun c => element c < ALPHABET_SIZE) (cells_of st leaves) ->
            _buildTable st (std_sort (_LeafComparator st) leaves) zero_table = Ok t ->
            (kraft_sum (depth <$> cells_of st leaves) <= 1)%Q ->
            codes t !! s = Some c -> codelength c ≠ 0 -> fits c) as Hmain.
  { intros st leaves t s c Hnd Hsyms Hb Hkraft Hs Hc.
    pose proof (built_fits st leaves t Hnd Hsyms Hb Hkraft) as Hfits.
    destruct (built_assigned st leaves Hnd Hsyms t Hb s c Hs Hc) as (i & _ & _ & _ & Hi & _).
    rewrite Forall_forall in Hfits. apply Hfits. by eapply list_elem_of_lookup_2. }
  split.
  - intros file_data t Ht Hkraft s c Hs Hc.
    apply CodeTableAdapter_lengths_spec in Ht as (Hlen & _ & Ht).
    set (cells := length_cells _ _) in *.
    pose proof (length_cells_nodup (Byte.to_nat <$> file_data)) as Hnd.
    pose proof (length_cells_syms (Byte.to_nat <$> file_data)) as Hsyms.
    fold cells in Hnd, Hsyms. rewrite <- (cells_of_seq cells) in Hnd, Hsyms.
    apply (Hmain _ _ t s c Hnd Hsyms Ht); [|done..].
    rewrite cells_of_seq. unfold cells.
    rewrite <- Hlen, <- (length_fmap Byte.to_nat), length_cells_depths. exact Hkraft.
  - intros data t Ht s c Hs Hc.
    destruct (CodeTableAdapter_data_built data t Ht)
      as (st & _ & _ & Hb & Hnd & Hsyms & _ & _ & Hkraft).
    apply (Hmain _ _ t s c Hnd Hsyms Hb); [|done..].
    rewrite cells_of_seq. by apply data_cells_kraft.
Qed.

(** C4 (prefix-freeness), as the code has it.  A table built from a length
    descriptor whose Kraft sum is exactly 1, or which names a single symbol,
    is prefix-free; so is every table built from raw data.  (Kraft's
    inequality alone is not enough: see [prefix_free_counterexample].) *)
Theorem prefix_free_complete :
  (forall file_data t,
     CodeTableAdapter_lengths file_data = Ok t ->
     (kraft_sum (descriptor_lengths file_data) == 1)%Q \/
     length (descriptor_lengths file_data) = 1 ->
     prefix_free t) /\
  (forall data t, CodeTableAdapter_data data = Ok t -> prefix_free t).
Proof.
  split.
  - intros file_data t Ht Hcase.
    apply CodeTableAdapter_lengths_spec in Ht as (Hlen & _ & Ht).
    set (cells := length_cells _ _) in *.
    pose proof (length_cells_nodup (Byte.to_nat <$> file_data)) as Hnd.
    pose proof (length_cells_syms (Byte.to_nat <$> file_data)) as Hsyms.
    fold cells in Hnd, Hsyms. rewrite <- (cells_of_seq cells) in Hnd, Hsyms.
    apply (built_prefix_free _ _ t Hnd Hsyms Ht).
    assert (depth <$> cells = descriptor_lengths file_data) as Hd.
    { unfold cells. by rewrite <- Hlen, <- (length_fmap Byte.to_nat), length_cells_depths. }
    rewrite cells_of_seq, length_seq, <- (length_fmap depth), Hd. exact Hcase.
  - intros data t Ht.
    destruct (CodeTableAdapter_data_built data t Ht)
      as (st & _ & _ & Hb & Hnd & Hsyms & _ & _ & Hkraft).
    apply (built_prefix_free _ _ t Hnd Hsyms Hb).
    rewrite cells_of_seq, length_seq.
    destruct Hkraft as [[_ Hk]|(c & -> & _)]; [by left|by right].
Qed.

(** C5 (Kraft compliance).  For every non-empty buffer the resolver
    (frequency count, then merging the two rarest) returns, and the depths it
    leaves in the leaves satisfy Kraft's inequality; so do the codelengths of
    the table built from them. *)
Theorem resolver_kraft (data : list Byte.byte) :
  data ≠ [] ->
  exists st leaves,
    resolve data = Ok (st, leaves) /\
    (kraft_sum (depth <$> cells_of st leaves) <= 1)%Q /\
    forall t, CodeTableAdapter_data data = Ok t ->
              (kraft_sum (assigned_lengths t) <= 1)%Q.
Proof.
  intros Hdata.
  destruct (CodeTableAdapter_data_unfold data Hdata)
    as (st & Hres & Hctor & Hnd & Hsyms & _ & Hpos & Hkraft).
  exists st, (seq 0 (length st)). rewrite cells_of_seq.
  split_and!; [done|by apply data_cells_kraft|].
  intros t Ht. rewrite Hctor in Ht. apply bind_Ok in Ht as (_ & _ & Ht).
  rewrite <- (cells_of_seq st) in Hnd, Hsyms, Hpos.
  rewrite (built_assigned_lengths _ _ t Hnd Hsyms Ht Hpos), cells_of_seq.
  by apply data_cells_kraft.
Qed.

(** The builder succeeds on the leaves of the resolver when, with two or
    more symbols, their depths are below the limit. *)
Lemma CodeTableAdapter_data_Ok (data : list Byte.byte) (st : Store) (leaves : Nodes) :
  length data <= MAXIMUM_DATABLOCK_SIZE ->
  data ≠ [] ->
  resolve data = Ok (st, leaves) ->
  (2 <= length st ->
   Forall (fun c => depth c < MAXIMUM_CODELENGTH) (cells_of st leaves)) ->
  exists t, CodeTableAdapter_data data = Ok t.
Proof.
  intros Hsize Hdata Hres Hmax.
  destruct (CodeTableAdapter_data_unfold data Hdata)
    as (st' & Hres' & Hctor & Hnd & Hsyms & _ & Hpos & Hkraft).
  rewrite Hres in Hres'. injection Hres' as <- ->.
  rewrite Hctor, (assert_true (length data <=? MAXIMUM_DATABLOCK_SIZE)), bind_Ok_l
    by (by apply Nat.leb_le).
  rewrite <- (cells_of_seq st) in Hnd, Hsyms.
  destruct Hkraft as [[Hlen2 _]|(c0 & -> & _)].
  - specialize (Hmax Hlen2).
    assert (length (sorted_cells st (seq 0 (length st))) = length st) as Hlen.
    { unfold sorted_cells, cells_of.
      by rewrite length_fmap, std_sort_Permutation, length_seq. }
    destruct (sorted_cells st (seq 0 (length st))) as [|c cs] eqn:Hsorted.
    { simpl in Hlen. lia. }
    eexists. apply build_spec; [done..|]. exists c, cs.
    split_and!; [done| |by rewrite Hsorted].
    apply sorted_chain.
    + rewrite <- Hsorted. apply sorted_cells_sorted.
    + by rewrite <- Hsorted, sorted_cells_Permutation.
  - assert (sorted_cells [c0] (seq 0 (length [c0])) = [c0]) as Hsorted.
    { apply Permutation_singleton_r.
      by rewrite sorted_cells_Permutation, cells_of_seq. }
    eexists. apply build_spec; [done..|]. exists c0, []. by rewrite Hsorted.
Qed.

(** C8 (failure modes), as the code has it.  Construction from a raw buffer
    completes for every non-empty buffer of at most [MAXIMUM_DATABLOCK_SIZE]
    bytes whose resolved code lengths are all below [MAXIMUM_CODELENGTH]: the
    size check and the codelength assertion of [_buildTable] are the checks
    the constructor makes.  The lengths are below the limit for every such
    buffer when [MAXIMUM_DATABLOCK_SIZE < fib (MAXIMUM_CODELENGTH + 2)]: a
    leaf of depth [d] needs [fib (d + 2)] bytes.  (The empty buffer is not
    among the inputs it completes on: see [empty_buffer_undefined].) *)
Theorem construction_completes (data : list Byte.byte) :
  data ≠ [] ->
  length data <= MAXIMUM_DATABLOCK_SIZE ->
  (MAXIMUM_DATABLOCK_SIZE < fib (MAXIMUM_CODELENGTH + 2) \/
   exists st leaves,
     resolve data = Ok (st, leaves) /\
     Forall (fun c => depth c < MAXIMUM_CODELENGTH) (cells_of st leaves)) ->
  exists t, CodeTableAdapter_data data = Ok t.
Proof.
  intros Hdata Hsize [Hfib|(st & leaves & Hres & Hmax)].
  - destruct (resolve_spec data Hdata) as (st & Hres & _).
    eapply CodeTableAdapter_data_Ok; [done..|]. intros Hlen2.
    rewrite cells_of_seq.
    eapply Forall_impl; [exact (resolve_heights data st _ Hres Hlen2)|].
    intros c Hc. simpl in Hc. eapply fib_below; [exact Hc|lia].
  - by eapply CodeTableAdapter_data_Ok.
Qed.

(** C6 (single symbol).  A non-empty buffer (within the size limit) in which
    one byte value [b] occurs gives a table in which [b] has the code of
    length 1 and pattern 0, and every other symbol the zero entry. *)
Theorem single_symbol (data : list Byte.byte) (b : Byte.byte) :
  data ≠ [] ->
  Forall (fun x => x = b) data ->
  length data <= MAXIMUM_DATABLOCK_SIZE ->
  exists t,
    CodeTableAdapter_data data = Ok t /\
    codes t !! Byte.to_nat b = Some (CodeMake 1 0) /\
    forall s, s < ALPHABET_SIZE -> s ≠ Byte.to_nat b ->
              codes t !! s = Some (CodeMake 0 0).
Proof.
  intros Hdata Hall Hsize.
  destruct (CodeTableAdapter_data_unfold data Hdata)
    as (st & Hres & Hctor & Hnd & Hsyms & Hel & Hpos & Hkraft).
  assert (forall s, s ∈ element <$> st <-> s = Byte.to_nat b) as Hel'.
  { intros s. rewrite Hel, list_elem_of_fmap. split.
    - intros (x & -> & Hx). rewrite Forall_forall in Hall. by rewrite (Hall x Hx).
    - intros ->. destruct data as [|x data]; [done|].
      exists x. apply Forall_cons in Hall as [-> _]. split; [done|left]. }
  assert (exists c, st = [c] /\ element c = Byte.to_nat b) as (c & -> & Hc).
  { destruct st as [|c [|c' st]].
    - assert (Byte.to_nat b ∈ element <$> []) as Hin by (by apply Hel').
      by apply not_elem_of_nil in Hin.
    - exists c. split; [done|]. apply Hel'. left.
    - exfalso. csimpl in Hnd. apply NoDup_cons in Hnd as [Hnotin _].
      assert (element c = Byte.to_nat b) as Hc1 by (apply Hel'; left).
      assert (element c' = Byte.to_nat b) as Hc2 by (apply Hel'; right; left).
      apply Hnotin. rewrite Hc1, <- Hc2. left. }
  assert (depth c = 1) as Hdepth.
  { destruct Hkraft as [[Hlen _]|(c' & [= <-] & ?)]; [simpl in Hlen; lia|done]. }
  rewrite <- (cells_of_seq [c]) in Hnd, Hsyms.
  assert (sorted_cells [c] (seq 0 (length [c])) = [c]) as Hsorted.
  { apply Permutation_singleton_r. by rewrite sorted_cells_Permutation, cells_of_seq. }
  assert (exists t, _buildTable [c] (std_sort (_LeafComparator [c]) (seq 0 (length [c])))
                      zero_table = Ok t) as [t Ht].
  { eexists. apply build_spec; [done..|]. exists c, []. by rewrite Hsorted. }
  exists t. split_and!.
  - rewrite Hctor, (assert_true (length data <=? MAXIMUM_DATABLOCK_SIZE)), bind_Ok_l
      by (by apply Nat.leb_le). exact Ht.
  - destruct (built_lookup _ _ Hnd Hsyms t Ht 0 c) as (k & Hk & _ & Hlook);
      [by rewrite Hsorted|].
    rewrite Hsorted in Hk. simpl in Hk. injection Hk as <-.
    by rewrite <- Hc, <- Hdepth.
  - intros s Hs Hne. apply (built_other _ _ Hnd Hsyms t Ht s Hs).
    rewrite cells_of_seq. rewrite Hel'. done.
Qed.

(** ** Round trip through the serialised lengths *)

Section roundtrip.

(** A codelength is written as one character: the limit is at most 256, and
    a code of length 1 is allowed. *)
Hypothesis MAXIMUM_CODELENGTH_range : 1 < MAXIMUM_CODELENGTH <= 256.

Lemma data_cells_below_max (data : list Byte.byte) (t : CodeTable) (st : Store) :
  resolve data = Ok (st, seq 0 (length st)) ->
  CodeTableAdapter_data data = Ok t ->
  Forall (fun c => depth c < MAXIMUM_CODELENGTH) st.
Proof.
  intros Hres Ht.
  destruct (CodeTableAdapter_data_built data t Ht)
    as (st' & Hres' & _ & Hb & Hnd & Hsyms & _ & Hpos & Hkraft).
  rewrite Hres in Hres'. injection Hres' as <-.
  rewrite <- (cells_of_seq st) at 1.
  apply (built_below_max _ _ t Hnd Hsyms Hb).
  rewrite cells_of_seq, length_seq.
  destruct Hkraft as [?|(c & -> & Hc)]; [by left|right].
  split; [done|]. repeat constructor. lia.
Qed.

Lemma operator_lshift_lengths (st : Store) (leaves : Nodes) (t : CodeTable) :
  NoDup (element <$> cells_of st leaves) ->
  Forall (fun c => element c < ALPHABET_SIZE) (cells_of st leaves) ->
  _buildTable st (std_sort (_LeafComparator st) leaves) zero_table = Ok t ->
  Forall (fun c => depth c < MAXIMUM_CODELENGTH) (cells_of st leaves) ->
  Byte.to_nat <$> operator_lshift t = codelength <$> codes t.
Proof.
  intros Hnd Hsyms Hb Hmax. unfold operator_lshift. rewrite <- list_fmap_compose.
  apply list_fmap_ext. intros s k Hs. simpl.
  apply byte_of_nat_to_nat.
  destruct (decide (codelength k = 0)) as [->|Hnz]; [lia|].
  destruct (built_assigned st leaves Hnd Hsyms t Hb s k Hs Hnz)
    as (i & c & Hi & _ & _ & ->).
  rewrite Forall_forall in Hmax.
  assert (depth c < MAXIMUM_CODELENGTH); [|lia]. apply Hmax.
  rewrite <- (sorted_cells_Permutation st leaves). by eapply list_elem_of_lookup_2.
Qed.

(** C2 (round trip via lengths).  For every non-empty buffer within the size
    limit: if the constructor from raw data builds the table [t], then the
    constructor from a length descriptor, given the 256 codelengths of [t]
    as [operator<<] writes them, builds the same table: the same
    [(codelength, code)] pair for every symbol, and the same [info]. *)
Theorem round_trip_via_lengths (data : list Byte.byte) (t : CodeTable) :
  data ≠ [] ->
  length data <= MAXIMUM_DATABLOCK_SIZE ->
  CodeTableAdapter_data data = Ok t ->
  exists t',
    CodeTableAdapter_lengths (operator_lshift t) = Ok t' /\ t' = t.
Proof.
  intros _ _ Ht. exists t. split; [|done].
  destruct (CodeTableAdapter_data_built data t Ht)
    as (st & Hres & _ & Hb & Hnd & Hsyms & _ & Hpos & Hkraft).
  pose proof (data_cells_below_max data t st Hres Ht) as Hmax.
  rewrite <- (cells_of_seq st) in Hmax.
  apply CodeTableAdapter_lengths_spec.
  rewrite (operator_lshift_lengths _ _ t Hnd Hsyms Hb Hmax).
  pose proof (built_cells _ _ t Hnd Hsyms Hb Hpos) as Hcells.
  set (cells := length_cells (codelength <$> codes t) (seq 0 ALPHABET_SIZE)) in *.
  split_and!.
  - unfold operator_lshift. rewrite length_fmap. by eapply built_length.
  - by rewrite Hcells.
  - apply (build_Permutation st cells (seq 0 (length st)) (seq 0 (length cells)) t);
      [done..| |done].
    by rewrite (cells_of_seq cells).
Qed.
End roundtrip.

(** ** The bit stream *)

Section stream.

(** A word holds at least one bit. *)
Hypothesis word_bits_pos : 0 < word_bits.

Lemma pack_words_length (n : nat) (bits : list bool) : length (pack_words n bits) = n.
Proof. revert bits. induction n as [|n IH]; intros bits; simpl; [done|]. by rewrite IH. Qed.

Lemma pack_words_bit (n : nat) (bits : list bool) (pos : nat) (b : bool) :
  bits !! pos = Some b -> pos < n * word_bits ->
  Z.testbit (pack_words n bits !!! (pos / word_bits))
            (Z.of_nat (word_bits - 1 - pos mod word_bits)) = b.
Proof.
  revert bits pos. induction n as [|n IH]; intros bits pos Hb Hpos; [simpl in Hpos; lia|].
  cbn [pack_words].
  destruct (decide (pos < word_bits)) as [Hlt|Hge].
  - rewrite Nat.div_small, Nat.mod_small by done. cbn [lookup_total list_lookup_total].
    set (chunk := take word_bits (bits ++ replicate word_bits false)).
    assert (length chunk = word_bits) as Hlen.
    { unfold chunk. rewrite length_take, length_app, length_replicate. lia. }
    rewrite <- Hlen at 1. apply word_of_bits_testbit.
    unfold chunk. rewrite lookup_take_lt by done. by apply lookup_app_l_Some.
  - assert (pos = (pos - word_bits) + 1 * word_bits) as Hsplit by lia.
    rewrite Hsplit at 1 2.
    rewrite Nat.div_add, Nat.Div0.mod_add, Nat.add_1_r by lia.
    cbn [lookup_total list_lookup_total]. apply IH.
    + rewrite lookup_drop. rewrite <- Hb. f_equal. lia.
    + simpl in Hpos. lia.
Qed.

Lemma ceil_words (len : nat) :
  len <= (len + word_bits - 1) / word_bits * word_bits.
Proof.
  pose proof (Nat.div_mod_eq (len + word_bits - 1) word_bits) as Hdm.
  pose proof (Nat.mod_upper_bound (len + word_bits - 1) word_bits) as Hub.
  nia.
Qed.

Lemma Encode_stream_bits (t : CodeTable) (data : list Byte.byte) :
  stream_bits (Encode t data) = length (encode_bits t data).
Proof.
  unfold stream_bits, Encode. cbn [encoded_data encoded_data_trail_zeroes].
  rewrite pack_words_length. pose proof (ceil_words (length (encode_bits t data))). lia.
Qed.

Lemma Encode_bit_at (t : CodeTable) (data : list Byte.byte) (pos : nat) (b : bool) :
  encode_bits t data !! pos = Some b -> bit_at (Encode t data) pos = Ok b.
Proof.
  intros Hb. unfold bit_at. rewrite Encode_stream_bits.
  apply lookup_lt_Some in Hb as Hlt.
  destruct (Nat.ltb_spec pos (length (encode_bits t data))); [|lia].
  f_equal. unfold Encode. cbn [encoded_data]. apply pack_words_bit; [done|].
  pose proof (ceil_words (length (encode_bits t data))). lia.
Qed.

(** ** Decoding one symbol, one block *)

Section decode.
Variables (t : CodeTable) (e : Encoded).
Hypothesis Hfree : prefix_free t.

(** Reading the bits of the code of [s] from [pos] yields [s]. *)
Lemma decode_symbol_code (s : nat) (c : Code) (pos : nat) :
  codes t !! s = Some c -> codelength c ≠ 0 -> fits c ->
  (forall j b, code_to_bits c !! j = Some b -> bit_at e (pos + j) = Ok b) ->
  forall (m k lookahead : nat),
    codelength c = k + m -> 1 <= m -> m <= lookahead ->
    decode_symbol lookahead t e (pos + k) (word_of_bits (take k (code_to_bits c))) k
    = Ok (s, pos + codelength c).
Proof.
  intros Hs Hnz Hfit Hbits. induction m as [|m IH]; intros k lookahead Hlen Hm Hla; [lia|].
  destruct lookahead as [|lookahead]; [lia|]. cbn [decode_symbol].
  destruct (lookup_lt_is_Some_2 (code_to_bits c) k) as [b Hb];
    [rewrite code_to_bits_length; lia|].
  rewrite (Hbits k b Hb), bind_Ok_l.
  assert (push_bit (word_of_bits (take k (code_to_bits c))) b
          = word_of_bits (take (S k) (code_to_bits c))) as ->
      by (by rewrite (take_S_r _ _ _ Hb), word_of_bits_snoc).
  assert (length (take (S k) (code_to_bits c)) = S k) as Htake
      by (rewrite length_take, code_to_bits_length; lia).
  unfold find_symbol.
  destruct (list_find _ (codes t)) as [[i c']|] eqn:Hfind.
  - apply list_find_Some in Hfind as (Hi & -> & _).
    assert (code_to_bits (CodeMake (S k) (word_of_bits (take (S k) (code_to_bits c))))
            = take (S k) (code_to_bits c)) as Hbits'.
    { rewrite <- Htake at 1. apply code_to_bits_word. }
    destruct (decide (i = s)) as [->|Hne].
    + rewrite Hs in Hi. injection Hi as Hc. f_equal. f_equal.
      apply (f_equal codelength) in Hc. simpl in Hc. lia.
    + exfalso. apply (Hfree i s _ c Hi Hs); [simpl; lia|done|done|].
      rewrite Hbits'. apply prefix_take.
  - destruct m as [|m].
    + exfalso. apply list_find_None in Hfind. rewrite Forall_forall in Hfind.
      apply (Hfind c); [by eapply list_elem_of_lookup_2|].
      rewrite take_ge, word_of_code_to_bits by (rewrite ?code_to_bits_length; done || lia).
      destruct c as [l p]. simpl in *. f_equal. lia.
    + replace (S (pos + k)) with (pos + S k) by lia. apply IH; lia.
Qed.

Lemma decode_symbol_first (s : nat) (c : Code) (pos : nat) :
  codes t !! s = Some c -> codelength c ≠ 0 -> fits c ->
  codelength c <= max_codelength (info t) ->
  (forall j b, code_to_bits c !! j = Some b -> bit_at e (pos + j) = Ok b) ->
  decode_symbol (max_codelength (info t)) t e pos 0%Z 0 = Ok (s, pos + codelength c).
Proof.
  intros Hs Hnz Hfit Hmax Hbits.
  pose proof (decode_symbol_code s c pos Hs Hnz Hfit Hbits (codelength c) 0
                (max_codelength (info t))) as H.
  rewrite Nat.add_0_r in H. apply H; lia.
Qed.
End decode.

Lemma byte_of_nat_of_byte (b : Byte.byte) : byte_of_nat (Byte.to_nat b) = b.
Proof.
  unfold byte_of_nat. pose proof (Byte.to_nat_bounded b).
  rewrite Nat.mod_small by lia. by rewrite Byte.of_to_nat.
Qed.

Lemma decode_block_encoded (t : CodeTable) (all : list Byte.byte) (data : list Byte.byte)
      (pos : nat) :
  code_book t data ->
  drop pos (encode_bits t all) = encode_bits t data ->
  decode_block (length data) t (Encode t all) pos = Ok data.
Proof.
  intros [Hfree Hbook]. revert pos.
  induction Hbook as [|b data (c & Hc & Hnz & Hfit & Hmax) _ IH]; intros pos Hdrop; [done|].
  cbn [length decode_block].
  unfold encode_bits in Hdrop at 2. rewrite bind_cons in Hdrop.
  fold (encode_bits t data) in Hdrop.
  rewrite (list_lookup_total_correct _ _ _ Hc) in Hdrop.
  rewrite (decode_symbol_first t (Encode t all) Hfree (Byte.to_nat b) c pos Hc Hnz Hfit Hmax).
  2:{ intros j bit Hj. apply Encode_bit_at.
      rewrite <- lookup_drop, Hdrop. by apply lookup_app_l_Some. }
  rewrite bind_Ok_l, IH, bind_Ok_l, byte_of_nat_of_byte; [done|].
  rewrite <- drop_drop, Hdrop, <- (code_to_bits_length c).
  apply drop_app_length.
Qed.

Lemma Decode_Encode (t : CodeTable) (data : list Byte.byte) :
  code_book t data -> Decode t (Encode t data) = Ok data.
Proof.
  intros Hbook. unfold Decode. cbn [Encode block_count block_sym_sizes
    block_bit_offsets block_int_size seq for_each].
  change ([length data] !!! 0) with (length data). change ([0] !!! 0) with 0.
  rewrite Nat.add_0_r, Nat.mul_0_l.
  change (0 * word_bits) with 0.
  by rewrite (decode_block_encoded t data data 0 Hbook).
Qed.

(** ** The table of a buffer decodes the buffer *)

Lemma data_code_book (data : list Byte.byte) (t : CodeTable) :
  CodeTableAdapter_data data = Ok t -> code_book t data.
Proof.
  intros Ht.
  destruct (CodeTableAdapter_data_built data t Ht)
    as (st & _ & _ & Hb & Hnd & Hsyms & Hel & Hpos & Hkraft).
  assert ((kraft_sum (depth <$> cells_of st (seq 0 (length st))) <= 1)%Q) as Hle
      by (rewrite cells_of_seq; by apply data_cells_kraft).
  pose proof (built_fits _ _ t Hnd Hsyms Hb Hle) as Hfits.
  destruct (built_max_codelength _ _ Hnd Hsyms t Hb) as (c0 & cs0 & Heq0 & Hmax & Hall).
  split.
  - apply (built_prefix_free _ _ t Hnd Hsyms Hb).
    rewrite cells_of_seq, length_seq.
    destruct Hkraft as [[_ Hk]|(c & -> & _)]; [by left|by right].
  - apply Forall_forall. intros b Hbyte.
    assert (Byte.to_nat b ∈ element <$> st) as Hin.
    { apply Hel, list_elem_of_fmap. by exists b. }
    apply list_elem_of_fmap in Hin as (c & Hc & Hin).
    rewrite <- (cells_of_seq st), <- sorted_cells_Permutation in Hin.
    apply list_elem_of_lookup in Hin as [i Hi].
    destruct (built_lookup _ _ Hnd Hsyms t Hb i c Hi) as (k & Hk & Hlen & Hlook).
    exists k. rewrite Hc. split_and!.
    + done.
    + rewrite Hlen. rewrite Forall_forall in Hpos.
      assert (1 <= depth c); [|lia]. apply Hpos.
      rewrite <- sorted_cells_Permutation. by eapply list_elem_of_lookup_2.
    + rewrite Forall_forall in Hfits. apply Hfits. by eapply list_elem_of_lookup_2.
    + rewrite Hmax, Hlen. rewrite Forall_forall in Hall. apply Hall.
      rewrite <- Heq0. by eapply list_elem_of_lookup_2.
Qed.

(** C3 (decode correctness), as the code has it.  For every non-empty
    buffer [D] within the size limit for which the constructor builds a
    table: encoding [D] with that table into a single block and decoding the
    block with the same table and the block's metadata gives back [D]. *)
Theorem decode_correct (data : list Byte.byte) (t : CodeTable) :
  data ≠ [] ->
  length data <= MAXIMUM_DATABLOCK_SIZE ->
  CodeTableAdapter_data data = Ok t ->
  Decode t (Encode t data) = Ok data.
Proof.
  intros _ _ Ht. by apply Decode_Encode, data_code_book.
Qed.
End stream.

(** * Further properties of the code

    What follows covers the helpers and the accessors on their own: the
    comparators, [_countFrequencies], [_buildTree], [_buildTable], the two
    constructors, [operator<<], [operator==], [at] and [info]. *)

(** ** The comparators *)

(** X1.  [_LeafComparator] is a strict weak ordering, as [std::sort] asks of
    its comparator, and it leaves two leaves unordered only when they have
    the same depth and the same symbol: leaves with distinct symbols have
    one sorted order. *)
Theorem _LeafComparator_strict_weak_order (st : Store) :
  StrictWeakOrder (_LeafComparator st) /\
  forall l r,
    _LeafComparator st l r = false /\ _LeafComparator st r l = false <->
    depth (st !!! l) = depth (st !!! r) /\ element (st !!! l) = element (st !!! r).
Proof.
  split; [apply _LeafComparator_swo|].
  intros l r. rewrite !_LeafComparator_false. lia.
Qed.

(** X2.  [_FrequencyComparator] is a strict weak ordering, and it leaves two
    entries unordered exactly when their frequencies are equal: the order of
    symbols of equal frequency is left to [std::sort]. *)
Theorem _FrequencyComparator_strict_weak_order :
  StrictWeakOrder _FrequencyComparator /\
  forall l r,
    _FrequencyComparator l r = false /\ _FrequencyComparator r l = false <->
    frequency l = frequency r.
Proof.
  split; [apply _FrequencyComparator_swo|].
  intros l r. unfold _FrequencyComparator. rewrite !Nat.ltb_ge. lia.
Qed.

(** ** [_countFrequencies] *)

Lemma StronglySorted_weaken {A : Type} (R1 R2 : relation A) (l : list A) :
  (forall x y, R1 x y -> R2 x y) -> StronglySorted R1 l -> StronglySorted R2 l.
Proof.
  intros HR. induction 1 as [|x l _ IH Hall]; constructor; [done|].
  eapply Forall_impl; [exact Hall|]. intros y. apply HR.
Qed.

(** X3.  [_countFrequencies] returns one entry for every byte value that
    occurs in the buffer and no other entry; the entry holds the number of
    occurrences; the entries are in ascending order of frequency; and the
    frequencies add up to the size of the buffer. *)
Theorem _countFrequencies_entries (data : list Byte.byte) :
  NoDup (symbol <$> _countFrequencies data) /\
  (forall f, f ∈ _countFrequencies data <->
             symbol f < ALPHABET_SIZE /\ 0 < frequency f /\
             frequency f = length (filter (fun b => Byte.to_nat b = symbol f) data)) /\
  StronglySorted (fun a b => frequency a <= frequency b) (_countFrequencies data) /\
  sum_list_with frequency (_countFrequencies data) = length data.
Proof.
  split_and!.
  - rewrite _countFrequencies_symbols. apply used_symbols_nodup.
  - intros f. rewrite _countFrequencies_Permutation, list_elem_of_fmap.
    unfold used_symbols. setoid_rewrite list_elem_of_filter.
    setoid_rewrite elem_of_seq. fold (occurrences (symbol f) data). split.
    + intros (i & -> & Hpos & Hi). simpl. repeat split; try done; lia.
    + intros (Hs & Hpos & Hf). exists (symbol f). repeat split; try lia.
      destruct f as [s n]. simpl in *. by subst.
  - unfold _countFrequencies.
    apply (StronglySorted_weaken (not_after _FrequencyComparator)).
    + intros x y. unfold not_after, _FrequencyComparator.
      rewrite Nat.ltb_ge. lia.
    + apply std_sort_sorted, _FrequencyComparator_swo.
  - apply sum_frequencies.
Qed.

(** ** [_buildTable] *)

Lemma chain_adjacent (d : nat) (ds : list nat) :
  chain d ds <->
  forall i a b, (d :: ds) !! i = Some a -> (d :: ds) !! S i = Some b ->
                b <= a /\ b < MAXIMUM_CODELENGTH /\
                (b < a -> (Z.of_nat (a - b) < code_bits)%Z).
Proof.
  revert d. induction ds as [|d' ds IH]; intros d.
  - simpl. split; [|done]. intros _ i a b _ Hb. by destruct i.
  - cbn [chain]. rewrite IH. split.
    + intros (H1 & H2 & H3 & Hrest) [|i] a b Ha Hb.
      * simpl in Ha, Hb. injection Ha as <-. injection Hb as <-. done.
      * by apply (Hrest i).
    + intros Hall. split_and!; try by apply (Hall 0 d d').
      intros i a b Ha Hb. by apply (Hall (S i)).
Qed.

(** X4.  [_buildTable] completes exactly when there is a first leaf and
    every later leaf passes the assertions of the loop against the leaf
    before it: its depth is not greater, it is below [MAXIMUM_CODELENGTH],
    and a drop in depth is a shift by less than the width of a pattern.
    The depth of the first leaf is not checked. *)
Theorem _buildTable_completes (st : Store) (leaves : Nodes) (adaptee : CodeTable) :
  (exists t, _buildTable st leaves adaptee = Ok t) <->
  leaves ≠ [] /\
  forall i p q,
    leaves !! i = Some p -> leaves !! S i = Some q ->
    depth (st !!! q) <= depth (st !!! p) /\
    depth (st !!! q) < MAXIMUM_CODELENGTH /\
    (depth (st !!! q) < depth (st !!! p) ->
     (Z.of_nat (depth (st !!! p) - depth (st !!! q)) < code_bits)%Z).
Proof.
  assert (forall p0 ps, depth (st !!! p0) :: (depth <$> cells_of st ps) =
                        (fun p => depth (st !!! p)) <$> (p0 :: ps)) as Hdepths.
  { intros p0 ps. unfold cells_of. by rewrite <- list_fmap_compose. }
  split.
  - intros [t Ht]. apply _buildTable_spec in Ht as (c & cells & Hcells & Hchain & _).
    destruct leaves as [|p0 leaves]; [done|]. split; [done|].
    unfold cells_of in Hcells. rewrite fmap_cons in Hcells.
    injection Hcells as <- <-. fold (cells_of st leaves) in Hchain.
    intros i p q Hp Hq.
    apply (proj1 (chain_adjacent _ _) Hchain i);
      rewrite Hdepths, list_lookup_fmap; [by rewrite Hp|by rewrite Hq].
  - intros [Hne Hall]. destruct leaves as [|p0 leaves]; [done|].
    eexists. apply _buildTable_spec. exists (st !!! p0), (cells_of st leaves).
    split_and!; [done| |done].
    apply chain_adjacent. intros i a b Ha Hb.
    rewrite Hdepths, list_lookup_fmap in Ha, Hb.
    destruct ((p0 :: leaves) !! i) as [p|] eqn:Hp; [|done].
    destruct ((p0 :: leaves) !! S i) as [q|] eqn:Hq; [|done].
    simpl in Ha, Hb. injection Ha as <-. injection Hb as <-.
    by apply (Hall i).
Qed.

(** ** The constructor from a length descriptor *)

Lemma push_length_loop_error (lengths symbols : list nat) (st : Store)
      (leaves : Nodes) :
  (exists s, for_each (push_length_leaf lengths) symbols (st, leaves) = Ok s) \/
  for_each (push_length_leaf lengths) symbols (st, leaves) = Err AssertionFailed.
Proof.
  revert st leaves. induction symbols as [|i symbols IH]; intros st leaves.
  - left. by eexists.
  - cbn [for_each]. rewrite push_length_leaf_spec.
    destruct (0 <? lengths !!! i); [|rewrite bind_Ok_l; apply IH].
    destruct (lengths !!! i <? MAXIMUM_CODELENGTH).
    + rewrite bind_Ok_l. apply IH.
    + by right.
Qed.

Lemma byte_of_to_nat (b : Byte.byte) : byte_of_nat (Byte.to_nat b) = b.
Proof.
  clear. unfold byte_of_nat. pose proof (Byte.to_nat_bounded b).
  rewrite Nat.mod_small by lia. by rewrite Byte.of_to_nat.
Qed.

Lemma length_cells_nonempty (lengths : list nat) :
  length lengths = ALPHABET_SIZE ->
  Exists (fun l => 0 < l) lengths ->
  length_cells lengths (seq 0 ALPHABET_SIZE) ≠ [].
Proof.
  intros Hlen Hex Hnil. apply Exists_exists in Hex as (l & Hl & Hpos).
  apply list_elem_of_lookup in Hl as [i Hi].
  assert ({| element := i; depth := l |}
            ∈ length_cells lengths (seq 0 ALPHABET_SIZE)) as Hin.
  { apply length_cells_elem. simpl.
    rewrite (list_lookup_total_correct _ _ _ Hi).
    apply lookup_lt_Some in Hi. rewrite Hlen in Hi. done. }
  rewrite Hnil in Hin. by apply not_elem_of_nil in Hin.
Qed.

(** X5.  What the constructor from a length descriptor does with its input.
    A descriptor that is not of 256 characters fails the size assertion; a
    non-zero length that is not below [MAXIMUM_CODELENGTH] fails the
    assertion of the loop; a descriptor of 256 zeros reaches [_buildTable]
    with no leaf, where [leaves.begin()] is dereferenced; every other
    descriptor gives a table.  Kraft's inequality is not checked. *)
Theorem CodeTableAdapter_lengths_result (file_data : list Byte.byte) :
  let lengths := Byte.to_nat <$> file_data in
  (length file_data ≠ ALPHABET_SIZE ->
   CodeTableAdapter_lengths file_data = Err AssertionFailed) /\
  (length file_data = ALPHABET_SIZE ->
   Exists (fun l => 0 < l /\ MAXIMUM_CODELENGTH <= l) lengths ->
   CodeTableAdapter_lengths file_data = Err AssertionFailed) /\
  (length file_data = ALPHABET_SIZE ->
   Forall (fun l => l = 0) lengths ->
   CodeTableAdapter_lengths file_data = Err UndefinedBehaviour) /\
  (length file_data = ALPHABET_SIZE ->
   Forall (fun l => l < MAXIMUM_CODELENGTH) lengths ->
   Exists (fun l => 0 < l) lengths ->
   exists t, CodeTableAdapter_lengths file_data = Ok t).
Proof.
  intros lengths.
  set (cells := length_cells lengths (seq 0 ALPHABET_SIZE)).
  assert (forall c, c ∈ cells -> depth c ∈ lengths) as Hdepth.
  { intros c Hc. apply length_cells_elem in Hc as (Hlt & Hpos & Heq).
    rewrite Heq in Hpos |- *. apply list_elem_of_lookup_total_2.
    destruct (decide (element c < length lengths)); [done|]. exfalso.
    rewrite list_lookup_total_alt, lookup_ge_None_2 in Hpos by lia.
    simpl in Hpos. lia. }
  split_and!.
  - intros Hlen. unfold CodeTableAdapter_lengths.
    by rewrite (proj2 (Nat.eqb_neq _ _) Hlen).
  - intros Hlen Hex. unfold CodeTableAdapter_lengths.
    rewrite (assert_true (length file_data =? ALPHABET_SIZE)), bind_Ok_l
      by (by apply Nat.eqb_eq).
    fold lengths.
    destruct (push_length_loop_error lengths (seq 0 ALPHABET_SIZE) [] [])
      as [[[st leaves] Hloop]| ->]; [|done].
    exfalso. apply push_length_loop in Hloop as (Hall & _).
    apply Exists_exists in Hex as (l & Hl & Hpos & Hbig).
    apply list_elem_of_lookup in Hl as [i Hi].
    rewrite Forall_forall in Hall.
    assert (depth {| element := i; depth := l |} < MAXIMUM_CODELENGTH) as Hlt;
      [|simpl in Hlt; lia].
    apply Hall, length_cells_elem. simpl.
    rewrite (list_lookup_total_correct _ _ _ Hi).
    apply lookup_lt_Some in Hi. unfold lengths in Hi.
    rewrite length_fmap, Hlen in Hi. done.
  - intros Hlen Hzero. unfold CodeTableAdapter_lengths.
    rewrite (assert_true (length file_data =? ALPHABET_SIZE)), bind_Ok_l
      by (by apply Nat.eqb_eq).
    fold lengths.
    assert (cells = []) as Hnil.
    { destruct (decide (cells = [])) as [|Hne]; [done|]. exfalso.
      destruct cells as [|c cs] eqn:Hcells; [done|].
      assert (c ∈ cells) as Hc by (rewrite Hcells; left).
      rewrite <- Hcells in Hdepth. pose proof (Hdepth c Hc) as Hin.
      rewrite Forall_forall in Hzero. apply Hzero in Hin.
      apply length_cells_elem in Hc. lia. }
    assert (for_each (push_length_leaf lengths) (seq 0 ALPHABET_SIZE) ([], [])
            = Ok ([], [])) as ->.
    { apply push_length_loop. fold cells. rewrite Hnil. by split_and!. }
    rewrite bind_Ok_l.
    assert (std_sort (_LeafComparator []) [] = @nil nat) as ->; [|done].
    apply Permutation_nil_r. by rewrite std_sort_Permutation.
  - intros Hlen Hall Hex.
    assert (Forall (fun c => depth c < MAXIMUM_CODELENGTH) cells) as Hmax.
    { apply Forall_forall. intros c Hc. rewrite Forall_forall in Hall.
      by apply Hall, Hdepth. }
    assert (cells ≠ []) as Hne.
    { apply length_cells_nonempty; [|done]. unfold lengths.
      by rewrite length_fmap. }
    pose proof (length_cells_nodup lengths) as Hnd.
    pose proof (length_cells_syms lengths) as Hsyms.
    fold cells in Hnd, Hsyms. rewrite <- (cells_of_seq cells) in Hnd, Hsyms.
    destruct (sorted_cells cells (seq 0 (length cells))) as [|c cs] eqn:Hsorted.
    { exfalso. apply Hne. apply Permutation_nil_r.
      by rewrite <- (cells_of_seq cells), <- sorted_cells_Permutation, Hsorted. }
    eexists. apply CodeTableAdapter_lengths_spec. fold lengths. fold cells.
    split_and!; [done|done|].
    apply build_spec; [done..|]. exists c, cs. split_and!; [done| |by rewrite Hsorted].
    apply sorted_chain.
    + rewrite <- Hsorted. apply sorted_cells_sorted.
    + by rewrite <- Hsorted, sorted_cells_Permutation, cells_of_seq.
Qed.

(** The codelength a descriptor asks for is the codelength of the table. *)
Lemma CodeTableAdapter_lengths_codelength (file_data : list Byte.byte)
      (t : CodeTable) (i : nat) :
  CodeTableAdapter_lengths file_data = Ok t ->
  i < ALPHABET_SIZE ->
  length (codes t) = ALPHABET_SIZE /\
  codelength (codes t !!! i) = (Byte.to_nat <$> file_data) !!! i.
Proof.
  intros Ht Hi. apply CodeTableAdapter_lengths_spec in Ht as (Hlen & Hmax & Hb).
  set (lengths := Byte.to_nat <$> file_data) in *.
  set (cells := length_cells lengths (seq 0 ALPHABET_SIZE)) in *.
  pose proof (length_cells_nodup lengths) as Hnd.
  pose proof (length_cells_syms lengths) as Hsyms.
  fold cells in Hnd, Hsyms. rewrite <- (cells_of_seq cells) in Hnd, Hsyms.
  split; [by eapply built_length|].
  destruct (decide (0 < lengths !!! i)) as [Hpos|Hzero].
  - assert ({| element := i; depth := lengths !!! i |} ∈ cells) as Hin
        by (by apply length_cells_elem).
    rewrite <- (cells_of_seq cells) in Hin.
    by apply (built_codelength_total _ _ t Hnd Hsyms Hb) in Hin.
  - assert (codes t !! i = Some (CodeMake 0 0)) as Hlook.
    { apply (built_other _ _ Hnd Hsyms t Hb i Hi). rewrite cells_of_seq.
      intros Hin. apply list_elem_of_fmap in Hin as (c & -> & Hc).
      apply length_cells_elem in Hc. lia. }
    rewrite (list_lookup_total_correct _ _ _ Hlook). simpl. lia.
Qed.

(** X6.  Serialising the table built from a length descriptor gives the
    descriptor back: [operator<<] undoes the constructor, and the table is
    rebuilt from its own serialisation. *)
Theorem operator_lshift_of_lengths (file_data : list Byte.byte) (t : CodeTable) :
  CodeTableAdapter_lengths file_data = Ok t ->
  operator_lshift t = file_data /\
  CodeTableAdapter_lengths (operator_lshift t) = Ok t.
Proof.
  intros Ht. assert (operator_lshift t = file_data) as Heq; [|by rewrite Heq].
  pose proof (proj1 (CodeTableAdapter_lengths_spec file_data t) Ht) as (Hlen & _).
  apply list_eq. intros i. unfold operator_lshift. rewrite list_lookup_fmap.
  destruct (decide (i < ALPHABET_SIZE)) as [Hi|Hi].
  - destruct (CodeTableAdapter_lengths_codelength file_data t i Ht Hi) as [Hl Hc].
    destruct (lookup_lt_is_Some_2 (codes t) i) as [k Hk]; [lia|].
    destruct (lookup_lt_is_Some_2 file_data i) as [b Hb]; [lia|].
    rewrite Hk, Hb. simpl. f_equal.
    rewrite (list_lookup_total_correct _ _ _ Hk) in Hc. rewrite Hc.
    assert ((Byte.to_nat <$> file_data) !! i = Some (Byte.to_nat b)) as Hb'
        by (by rewrite list_lookup_fmap, Hb).
    rewrite (list_lookup_total_correct _ _ _ Hb'). apply byte_of_to_nat.
  - destruct (CodeTableAdapter_lengths_codelength file_data t 0 Ht) as [Hl _].
    { rewrite ALPHABET_SIZE_eq. lia. }
    by rewrite !lookup_ge_None_2 by lia.
Qed.

(** ** Tables the constructors have built *)

(** Both constructors end in [_buildTable] on sorted leaves with distinct
    symbols and depths of at least 1. *)
Lemma constructed_built (t : CodeTable) :
  constructed t ->
  exists st : Store,
    NoDup (element <$> cells_of st (seq 0 (length st))) /\
    Forall (fun c => element c < ALPHABET_SIZE) (cells_of st (seq 0 (length st))) /\
    Forall (fun c => 1 <= depth c) (cells_of st (seq 0 (length st))) /\
    _buildTable st (std_sort (_LeafComparator st) (seq 0 (length st))) zero_table = Ok t.
Proof.
  intros [[data Ht]|[file_data Ht]].
  - destruct (CodeTableAdapter_data_built data t Ht)
      as (st & _ & _ & Hb & Hnd & Hsyms & _ & Hpos & _).
    by exists st.
  - apply CodeTableAdapter_lengths_spec in Ht as (_ & _ & Hb).
    eexists. rewrite cells_of_seq. split_and!; [| | |exact Hb].
    + apply length_cells_nodup.
    + apply length_cells_syms.
    + apply Forall_forall. intros c Hc. apply length_cells_elem in Hc. lia.
Qed.

(** [max_codelength] can be read off the codes. *)
Lemma constructed_max_codelength (t : CodeTable) :
  constructed t ->
  length (codes t) = ALPHABET_SIZE /\
  (exists s c, codes t !! s = Some c /\ codelength c = max_codelength (info t)) /\
  (forall s c, codes t !! s = Some c -> codelength c <= max_codelength (info t)).
Proof.
  intros Hc. destruct (constructed_built t Hc) as (st & Hnd & Hsyms & Hpos & Hb).
  split; [by eapply built_length|].
  destruct (built_max_codelength _ _ Hnd Hsyms t Hb) as (c & cs & Heq & Hmax & Hle).
  split.
  - destruct (built_lookup _ _ Hnd Hsyms t Hb 0 c) as (k & _ & Hlen & Hlook);
      [by rewrite Heq|].
    exists (element c), k. split; [done|congruence].
  - intros s k Hs. destruct (decide (codelength k = 0)) as [->|Hnz]; [lia|].
    destruct (built_assigned _ _ Hnd Hsyms t Hb s k Hs Hnz)
      as (i & c' & Hi & _ & _ & Hlen).
    rewrite Forall_forall in Hle. rewrite Hmax, Hlen. apply Hle.
    rewrite <- Heq. by eapply list_elem_of_lookup_2.
Qed.

(** X8.  In the table built from a buffer, a byte value has a code, of
    positive length, exactly when it occurs in the buffer. *)
Theorem assigned_iff_occurs (data : list Byte.byte) (t : CodeTable) (s : nat) :
  CodeTableAdapter_data data = Ok t ->
  s < ALPHABET_SIZE ->
  (0 < codelength (codes t !!! s) <-> s ∈ Byte.to_nat <$> data).
Proof.
  intros Ht Hs.
  destruct (CodeTableAdapter_data_built data t Ht)
    as (st & _ & _ & Hb & Hnd & Hsyms & Hel & Hpos & _).
  rewrite <- Hel. split.
  - intros Hlen. destruct (decide (s ∈ element <$> st)) as [|Hnot]; [done|].
    rewrite <- (cells_of_seq st) in Hnot.
    pose proof (built_other _ _ Hnd Hsyms t Hb s Hs Hnot) as Hlook.
    rewrite (list_lookup_total_correct _ _ _ Hlook) in Hlen. simpl in Hlen. lia.
  - intros Hin. apply list_elem_of_fmap in Hin as (c & -> & Hc).
    rewrite <- (cells_of_seq st) in Hc.
    rewrite (built_codelength_total _ _ t Hnd Hsyms Hb c Hc).
    rewrite Forall_forall in Hpos. specialize (Hpos c Hc). lia.
Qed.

Lemma to_nat_inj (a b : Byte.byte) : Byte.to_nat a = Byte.to_nat b -> a = b.
Proof.
  intros Heq. apply (f_equal Byte.of_nat) in Heq.
  rewrite !Byte.of_to_nat in Heq. by injection Heq.
Qed.

(** X9.  The code of a buffer is complete: with two or more distinct byte
    values the Kraft sum of the assigned codelengths is exactly 1, and with
    a single byte value it is exactly 1/2 (one code of length 1). *)
Theorem table_kraft_sum (data : list Byte.byte) (t : CodeTable) :
  CodeTableAdapter_data data = Ok t ->
  ((exists a b, a ∈ data /\ b ∈ data /\ a ≠ b) ->
   (kraft_sum (assigned_lengths t) == 1)%Q) /\
  ((exists b, Forall (fun x => x = b) data) ->
   (kraft_sum (assigned_lengths t) == 1 # 2)%Q).
Proof.
  intros Ht.
  destruct (CodeTableAdapter_data_built data t Ht)
    as (st & _ & _ & Hb & Hnd & Hsyms & Hel & Hpos & Hkraft).
  rewrite (built_assigned_lengths _ _ t Hnd Hsyms Hb Hpos), cells_of_seq.
  rewrite cells_of_seq in Hnd. split.
  - intros (a & b & Ha & Hb' & Hne).
    destruct Hkraft as [[_ Hk]|(c & -> & _)]; [done|]. exfalso.
    assert (Byte.to_nat a ∈ element <$> [c]) as Ha'
        by (apply Hel, list_elem_of_fmap; by exists a).
    assert (Byte.to_nat b ∈ element <$> [c]) as Hb''
        by (apply Hel, list_elem_of_fmap; by exists b).
    apply list_elem_of_singleton in Ha', Hb''.
    apply Hne, to_nat_inj. congruence.
  - intros (b & Hall).
    destruct Hkraft as [[Hlen _]|(c & -> & Hc)].
    + exfalso. destruct st as [|c1 [|c2 st]]; simpl in Hlen; [lia..|].
      csimpl in Hnd. apply NoDup_cons in Hnd as [Hnot _].
      assert (forall s, s ∈ element <$> c1 :: c2 :: st -> s = Byte.to_nat b) as Hall'.
      { intros s Hs. apply Hel, list_elem_of_fmap in Hs as (x & -> & Hx).
        rewrite Forall_forall in Hall. by rewrite (Hall x Hx). }
      apply Hnot. rewrite (Hall' (element c1)) by left.
      rewrite <- (Hall' (element c2)) by (right; left). left.
    + csimpl. rewrite Hc. by vm_compute.
Qed.

(** With Kraft's equality the codes tile the patterns of [max_codelength]
    bits in sorted order of the leaves. *)
Lemma built_intervals_max (st : Store) (leaves : Nodes) (t : CodeTable) :
  NoDup (element <$> cells_of st leaves) ->
  Forall (fun c => element c < ALPHABET_SIZE) (cells_of st leaves) ->
  _buildTable st (std_sort (_LeafComparator st) leaves) zero_table = Ok t ->
  (kraft_sum (depth <$> cells_of st leaves) == 1)%Q ->
  StronglySorted (fun a b => hi (max_codelength (info t)) a
                             <= lo (max_codelength (info t)) b)%Z
                 (canonical_codes (sorted_cells st leaves)).
Proof.
  intros Hnd Hsyms Hb Hkraft.
  destruct (built_scaled st leaves t Hnd Hsyms Hb) as (c & cs & Heq & Hch & Hle & Hsum).
  destruct (built_max_codelength st leaves Hnd Hsyms t Hb) as (c' & cs' & Heq' & -> & _).
  rewrite Heq in Heq'. injection Heq' as <- <-.
  rewrite <- (sorted_cells_Permutation st leaves) in Hkraft.
  apply (kraft_eq_scaled (depth c)) in Hkraft; [|done].
  rewrite Heq in Hkraft, Hsum |- *. simpl.
  apply (canon_intervals _ _ (depth c)); simpl; [done|lia|lia|lia].
Qed.

Lemma built_order (st : Store) (t : CodeTable) (a b : nat) (ka kb : Code) :
  NoDup (element <$> cells_of st (seq 0 (length st))) ->
  Forall (fun c => element c < ALPHABET_SIZE) (cells_of st (seq 0 (length st))) ->
  _buildTable st (std_sort (_LeafComparator st) (seq 0 (length st))) zero_table = Ok t ->
  (kraft_sum (depth <$> st) == 1)%Q ->
  codes t !! a = Some ka -> codes t !! b = Some kb ->
  codelength ka ≠ 0 -> codelength kb ≠ 0 ->
  codelength kb < codelength ka \/ (codelength ka = codelength kb /\ a < b) ->
  ((code ka + 1) * 2 ^ Z.of_nat (max_codelength (info t) - codelength ka)
   <= code kb * 2 ^ Z.of_nat (max_codelength (info t) - codelength kb))%Z.
Proof.
  intros Hnd Hsyms Hb Hkraft Ha Hb' Hza Hzb Horder.
  destruct (built_assigned _ _ Hnd Hsyms t Hb a ka Ha Hza)
    as (i & ca & Hi & Hea & Hka & Hla).
  destruct (built_assigned _ _ Hnd Hsyms t Hb b kb Hb' Hzb)
    as (j & cb & Hj & Heb & Hkb & Hlb).
  rewrite <- (cells_of_seq st) in Hkraft.
  pose proof (built_intervals_max _ _ t Hnd Hsyms Hb Hkraft) as Hss.
  pose proof (sorted_cells_sorted st (seq 0 (length st))) as Hsorted.
  assert (i < j) as Hij.
  { destruct (decide (i < j)) as [|Hge]; [done|]. exfalso.
    destruct (decide (i = j)) as [->|Hne].
    - rewrite Hi in Hj. injection Hj as <-. lia.
    - pose proof (StronglySorted_lookup _ _ j i cb ca Hsorted ltac:(lia) Hj Hi)
        as [Hd He].
      lia. }
  exact (StronglySorted_lookup _ _ i j ka kb Hss Hij Hka Hkb).
Qed.

(** X10.  The canonical order of a complete code (every table built from a
    buffer, and every table built from a descriptor with Kraft sum 1).  Of
    two assigned codes, the longer one, or among equal lengths the one of
    the smaller symbol, comes first: left-aligned to [max_codelength] bits,
    the patterns it is a prefix of all lie below those of the other.  So
    codes of equal length ascend with the symbol, and a longer code is
    numerically below every shorter one. *)
Theorem canonical_order :
  (forall data t a b ka kb,
     CodeTableAdapter_data data = Ok t ->
     codes t !! a = Some ka -> codes t !! b = Some kb ->
     codelength ka ≠ 0 -> codelength kb ≠ 0 ->
     codelength kb < codelength ka \/ (codelength ka = codelength kb /\ a < b) ->
     ((code ka + 1) * 2 ^ Z.of_nat (max_codelength (info t) - codelength ka)
      <= code kb * 2 ^ Z.of_nat (max_codelength (info t) - codelength kb))%Z) /\
  (forall file_data t a b ka kb,
     CodeTableAdapter_lengths file_data = Ok t ->
     (kraft_sum (descriptor_lengths file_data) == 1)%Q ->
     codes t !! a = Some ka -> codes t !! b = Some kb ->
     codelength ka ≠ 0 -> codelength kb ≠ 0 ->
     codelength kb < codelength ka \/ (codelength ka = codelength kb /\ a < b) ->
     ((code ka + 1) * 2 ^ Z.of_nat (max_codelength (info t) - codelength ka)
      <= code kb * 2 ^ Z.of_nat (max_codelength (info t) - codelength kb))%Z).
Proof.
  split.
  - intros data t a b ka kb Ht Ha Hb Hza Hzb Horder.
    destruct (CodeTableAdapter_data_built data t Ht)
      as (st & _ & _ & Hbuilt & Hnd & Hsyms & _ & Hpos & Hkraft).
    destruct Hkraft as [[_ Hk]|(c & -> & _)].
    + by apply (built_order st t a b ka kb).
    + exfalso.
      destruct (built_assigned _ _ Hnd Hsyms t Hbuilt a ka Ha Hza)
        as (i & ca & Hi & Hea & _ & _).
      destruct (built_assigned _ _ Hnd Hsyms t Hbuilt b kb Hb Hzb)
        as (j & cb & Hj & Heb & _ & _).
      assert (a = b) as ->.
      { apply list_elem_of_lookup_2 in Hi, Hj.
        rewrite sorted_cells_Permutation, cells_of_seq in Hi, Hj.
        apply list_elem_of_singleton in Hi, Hj. congruence. }
      rewrite Ha in Hb. injection Hb as <-. lia.
  - intros file_data t a b ka kb Ht Hkraft Ha Hb Hza Hzb Horder.
    apply CodeTableAdapter_lengths_spec in Ht as (Hlen & _ & Hbuilt).
    set (cells := length_cells (Byte.to_nat <$> file_data) (seq 0 ALPHABET_SIZE)) in *.
    apply (built_order cells t a b ka kb); try done.
    + rewrite cells_of_seq. apply length_cells_nodup.
    + rewrite cells_of_seq. apply length_cells_syms.
    + unfold cells. rewrite <- Hkraft. unfold descriptor_lengths.
      rewrite <- (length_cells_depths (Byte.to_nat <$> file_data)).
      by rewrite length_fmap, Hlen.
Qed.

(** ** [_buildTree] *)

Lemma _buildTree_loop_keys (n : nat) (tree tree' : Tree) (st st' : Store) :
  _buildTree_loop n tree st = Ok (tree', st') ->
  sum_list_with fst tree' = sum_list_with fst tree /\
  tree'.*2 ≫= leaf_pointers ≡ₚ tree.*2 ≫= leaf_pointers.
Proof.
  revert tree st. induction n as [|n IH]; intros tree st Hrun; simpl in Hrun.
  - by injection Hrun as <- _.
  - destruct tree as [|[f1 n1] [|[f2 n2] rest]]; [done..|].
    apply IH in Hrun as [-> ->]. rewrite !tree_insert_Permutation.
    csimpl. split; [lia|]. by rewrite <- (assoc_L (++)).
Qed.

Lemma height_lt_leaves (n : DepthCounterNode) : height n < length (leaf_pointers n).
Proof.
  induction n as [p|l IHl r IHr]; simpl; [lia|]. rewrite length_app. lia.
Qed.

Lemma leaf_forest_pointers (w : nat -> nat) (tree : Tree) :
  leaf_forest w tree -> length (tree.*2 ≫= leaf_pointers) = length tree.
Proof.
  intros [_ Hall]. induction Hall as [|[k n] tree (p & Hn & _) _ IH]; [done|].
  simpl in Hn. subst n. csimpl. by rewrite IH.
Qed.

(** X11.  [_buildTree] on one or more trees whose leaves are the cells of
    the store, each cell holding its distance from the root of its tree:
    the merge completes with a single tree, every cell hangs in it exactly
    once and holds its distance from the root, and no symbol is touched. *)
Theorem _buildTree_root (tree : Tree) (st : Store) :
  tree ≠ [] ->
  tree.*2 ≫= leaf_pointers ≡ₚ seq 0 (length st) ->
  (forall n p d, n ∈ tree.*2 -> (p, d) ∈ leaf_depths n ->
                 depth <$> st !! p = Some d) ->
  exists root st',
    _buildTree tree st = Ok (root, st') /\
    leaf_pointers root ≡ₚ seq 0 (length st) /\
    (forall p d, (p, d) ∈ leaf_depths root -> depth <$> st' !! p = Some d) /\
    element <$> st' = element <$> st.
Proof.
  intros Hne Hptrs Hdepths.
  assert (forest_ok tree.*2 st) as Hok.
  { split; [done|]. apply Forall_forall. intros n Hn.
    apply Forall_forall. intros [p d] Hpd. by apply (Hdepths n). }
  destruct (_buildTree_loop_ok (length tree - 1) tree st)
    as (tree' & st' & Hrun & Hl & [Hptrs' Hdepths'] & Hel); [|done|].
  { destruct tree; [done|]. simpl. lia. }
  assert (length tree' = 1) as Hone by (destruct tree; [done|]; simpl in Hl; lia).
  destruct tree' as [|[k root] [|? ?]]; simpl in Hone; [lia| |lia].
  assert (length st' = length st) as Hlen.
  { by rewrite <- (length_fmap element st'), Hel, length_fmap. }
  exists root, st'. unfold _buildTree. rewrite Hrun. split_and!; [done| | |done].
  - csimpl in Hptrs'. rewrite app_nil_r in Hptrs'. by rewrite Hptrs', Hlen.
  - intros p d Hpd. apply Forall_cons in Hdepths' as [Hd _].
    rewrite Forall_forall in Hd. by apply (Hd (p, d)).
Qed.

(** X12.  The height of the tree [_buildTree] returns.  For leaves with
    weights of at least 1 that stand in the multimap under their weights, a
    root of height [h] has [fib (h + 2)] or less as the sum of the weights,
    and [h] is less than the number of leaves. *)
Theorem _buildTree_height (w : nat -> nat) (tree : Tree) (st st' : Store)
        (root : DepthCounterNode) :
  StronglySorted (fun a b => a.1 <= b.1) tree ->
  Forall (fun kn => exists p, kn.2 = Leaf p /\ kn.1 = w p /\ 1 <= w p) tree ->
  _buildTree tree st = Ok (root, st') ->
  fib (height root + 2) <= sum_list_with fst tree /\
  height root < length tree.
Proof.
  intros Hss Hall Hbuild.
  assert (leaf_forest w tree) as Hlf by done.
  unfold _buildTree in Hbuild.
  apply bind_Ok in Hbuild as ([tree' st''] & Hrun & Hbuild).
  apply bind_Ok in Hbuild as (u & Hone & Hbuild).
  apply assert_Ok, Nat.eqb_eq in Hone.
  destruct tree' as [|[k root'] [|? ?]]; simpl in Hone; [lia| |lia].
  injection Hbuild as <- <-.
  pose proof (_buildTree_loop_fib w _ _ _ _ _ (leaf_forest_fib_ok w tree Hlf) Hrun)
    as (_ & Hfib & _).
  apply Forall_cons in Hfib as [[Hk Hfib] _]. simpl in Hk, Hfib.
  apply fibbed_weight in Hfib.
  destruct (_buildTree_loop_keys _ _ _ _ _ Hrun) as [Hsum Hptrs].
  simpl in Hsum. csimpl in Hptrs. rewrite app_nil_r in Hptrs. split; [lia|].
  rewrite <- (leaf_forest_pointers w tree Hlf), <- Hptrs.
  apply height_lt_leaves.
Qed.

(** ** The resolver *)

(** The run of the merge inside the constructor from raw data. *)
Lemma resolve_run (data : list Byte.byte) (st : Store) (leaves : Nodes) :
  resolve data = Ok (st, leaves) ->
  2 <= length st ->
  exists tree k root,
    leaf_forest (fun p => frequency (_countFrequencies data !!! p)) tree /\
    tree.*2 ≡ₚ Leaf <$> seq 0 (length (_countFrequencies data)) /\
    _buildTree_loop (length tree - 1) tree
      ((fun f => {| element := symbol f; depth := 0 |}) <$> _countFrequencies data)
      = Ok ([(k, root)], st) /\
    _buildTree tree
      ((fun f => {| element := symbol f; depth := 0 |}) <$> _countFrequencies data)
      = Ok (root, st) /\
    leaves = seq 0 (length st) /\
    length st = length (_countFrequencies data) /\
    element <$> st = symbol <$> _countFrequencies data /\
    forest_ok [root] st.
Proof.
  unfold resolve. set (fs := _countFrequencies data).
  set (w := fun p => frequency (fs !!! p)).
  assert (leaf_forest w (fold_left push_frequency_leaf fs ([], [], [])).1.2) as Hlf.
  { apply push_frequency_leaf_forest; [by split; constructor|].
    intros i f Hi. simpl. unfold w. rewrite (list_lookup_total_correct _ _ _ Hi).
    split; [done|]. pose proof (frequencies_positive data) as Hpos.
    rewrite Forall_forall in Hpos. apply Hpos. by eapply list_elem_of_lookup_2. }
  destruct (push_frequency_loop fs [] [] []) as (tree & Heq & Hperm).
  rewrite Heq in Hlf |- *. simpl in Hlf. clear Heq.
  rewrite !app_nil_l in *. cbn [length] in *.
  set (st0 := (fun f => {| element := symbol f; depth := 0 |}) <$> fs) in *.
  assert (length tree = length fs) as Hlent.
  { rewrite <- (length_fmap snd), Hperm, length_fmap. apply length_seq. }
  destruct (Nat.ltb_spec 1 (length tree)) as [Hbig|Hsmall].
  - unfold _buildTree.
    destruct (_buildTree_loop_ok (length tree - 1) tree st0)
      as (tree' & st' & Hrun & Hl & Hok & Hel);
      [lia|rewrite Hperm; apply forest_initial|].
    rewrite Hrun, bind_Ok_l.
    rewrite (assert_true (length tree' =? 1)), bind_Ok_l by (apply Nat.eqb_eq; lia).
    destruct tree' as [|[k root] [|? ?]]; simpl in Hl; [lia| |lia].
    rewrite !bind_Ok_l. intros [= <- <-] _.
    assert (length st' = length fs) as Hlen'.
    { rewrite <- (length_fmap element st'), Hel. unfold st0.
      by rewrite !length_fmap. }
    exists tree, k, root. rewrite Hlen'. split_and!; try done.
    + unfold _buildTree. by rewrite Hrun.
    + rewrite Hel. unfold st0. rewrite <- list_fmap_compose. by apply list_fmap_ext.
  - destruct tree as [|[k root] [|? ?]]; simpl in Hsmall; [done| |lia].
    destruct root as [p|l r]; simpl; [|done].
    intros [= <- <-]. rewrite length_alter. unfold st0. rewrite length_fmap.
    simpl in Hlent. lia.
Qed.

Lemma forest_single_depth (root : DepthCounterNode) (st : Store) (c : LeafCell) :
  forest_ok [root] st -> c ∈ st ->
  exists p, st !! p = Some c /\ (p, depth c) ∈ leaf_depths root.
Proof.
  intros [Hptrs Hdepths] Hc. csimpl in Hptrs. rewrite app_nil_r in Hptrs.
  apply Forall_cons in Hdepths as [Hdepths _].
  apply list_elem_of_lookup in Hc as [p Hp]. exists p. split; [done|].
  assert (p ∈ leaf_pointers root) as Hin.
  { rewrite Hptrs. apply elem_of_seq. apply lookup_lt_Some in Hp. lia. }
  rewrite <- leaf_depths_fst in Hin.
  apply list_elem_of_fmap in Hin as ([p' d] & -> & Hpd). simpl in Hp.
  rewrite Forall_forall in Hdepths. pose proof (Hdepths _ Hpd) as Hd.
  simpl in Hd. rewrite Hp in Hd. injection Hd as ->. done.
Qed.

(** X13.  Bounds on the codelengths of a table built from a buffer.  No
    code is longer than 255 bits (one less than the number of symbols);
    beyond length 1, a code of length [n] is found only when the buffer has
    [fib (n + 2)] bytes or more, and it is below [MAXIMUM_CODELENGTH]. *)
Theorem codelength_bounds (data : list Byte.byte) (t : CodeTable) (s : nat) (c : Code) :
  CodeTableAdapter_data data = Ok t ->
  codes t !! s = Some c ->
  codelength c < ALPHABET_SIZE /\
  (codelength c <= 1 \/
   (fib (codelength c + 2) <= length data /\ codelength c < MAXIMUM_CODELENGTH)).
Proof.
  intros Ht Hs.
  destruct (decide (codelength c = 0)) as [Hz|Hnz].
  { rewrite Hz, ALPHABET_SIZE_eq. split; [lia|left; lia]. }
  destruct (CodeTableAdapter_data_built data t Ht)
    as (st & Hres & _ & Hb & Hnd & Hsyms & _ & Hpos & Hkraft).
  destruct (built_assigned _ _ Hnd Hsyms t Hb s c Hs Hnz)
    as (i & cell & Hi & _ & _ & Hlen).
  assert (cell ∈ st) as Hcell.
  { rewrite <- (cells_of_seq st), <- sorted_cells_Permutation.
    by eapply list_elem_of_lookup_2. }
  rewrite Hlen.
  destruct Hkraft as [[Hlen2 Hk]|(c1 & -> & Hc1)].
  - pose proof (resolve_heights data st _ Hres Hlen2) as Hfib.
    rewrite Forall_forall in Hfib.
    assert (Forall (fun c => depth c < MAXIMUM_CODELENGTH)
                   (cells_of st (seq 0 (length st)))) as Hmax.
    { apply (built_below_max _ _ t Hnd Hsyms Hb). left.
      rewrite length_seq, cells_of_seq. done. }
    rewrite cells_of_seq, Forall_forall in Hmax.
    destruct (resolve_run data st _ Hres Hlen2)
      as (tree & k & root & _ & _ & _ & _ & _ & _ & _ & Hok).
    destruct (forest_single_depth root st cell Hok Hcell) as (p & Hp & Hpd).
    pose proof (leaf_depths_height root) as Hh. rewrite Forall_forall in Hh.
    specialize (Hh _ Hpd). simpl in Hh.
    pose proof (height_lt_leaves root) as Hlt.
    destruct Hok as [Hptrs _]. csimpl in Hptrs. rewrite app_nil_r in Hptrs.
    rewrite Hptrs, length_seq in Hlt.
    assert (length st <= ALPHABET_SIZE) as Hn.
    { rewrite <- (length_fmap element).
      apply NoDup_bounded_length; [by rewrite cells_of_seq in Hnd|].
      rewrite cells_of_seq in Hsyms. by rewrite Forall_fmap. }
    split; [lia|]. right. split; [by apply Hfib|by apply Hmax].
  - apply list_elem_of_singleton in Hcell. subst cell. rewrite Hc1.
    split; [rewrite ALPHABET_SIZE_eq; lia|by left].
Qed.

(** ** Frequent symbols get short codes *)

Lemma first_leaf_in (n : DepthCounterNode) : first_leaf n ∈ leaf_pointers n.
Proof.
  induction n as [p|l IHl r _]; simpl; [left|]. apply elem_of_app. by left.
Qed.

Lemma tree_insert_split (k : nat) (v : DepthCounterNode) (t : Tree) :
  StronglySorted (fun a b => a.1 <= b.1) t ->
  exists l r,
    t = l ++ r /\ tree_insert k v t = l ++ (k, v) :: r /\
    Forall (fun x => k < x.1) r.
Proof.
  induction 1 as [|[k' v'] t Hss IH Hall]; simpl.
  - by exists [], [].
  - destruct (Nat.ltb_spec k k') as [Hlt|Hge].
    + exists [], ((k', v') :: t). split_and!; [done..|].
      constructor; [done|]. eapply Forall_impl; [exact Hall|]. simpl. lia.
    + destruct IH as (l & r & -> & -> & Hr). by exists ((k', v') :: l), r.
Qed.

Lemma StronglySorted_middle {A : Type} (R : relation A) (l1 l2 : list A) (x : A) :
  StronglySorted R (l1 ++ x :: l2) ->
  Forall (fun y => R y x) l1 /\ Forall (R x) l2 /\ StronglySorted R (l1 ++ l2).
Proof.
  induction l1 as [|y l1 IH]; simpl; intros Hss.
  - apply StronglySorted_inv in Hss as [Hss Hall]. done.
  - apply StronglySorted_inv in Hss as [Hss Hall].
    destruct (IH Hss) as (H1 & H2 & H3).
    rewrite Forall_app, Forall_cons in Hall. destruct Hall as (Hl1 & Hyx & Hl2).
    split_and!; [by constructor|done|].
    constructor; [done|]. by apply Forall_app.
Qed.

Lemma StronglySorted_ext_in {A : Type} (R1 R2 : relation A) (l : list A) :
  (forall x y, x ∈ l -> y ∈ l -> R1 x y -> R2 x y) ->
  StronglySorted R1 l -> StronglySorted R2 l.
Proof.
  intros HR Hss. induction Hss as [|x l Hss IH Hall]; constructor.
  - apply IH. intros y z Hy Hz. apply HR; by right.
  - apply Forall_forall. intros y Hy. rewrite Forall_forall in Hall.
    apply HR; [left|by right|by apply Hall].
Qed.

(** The store after [new DepthCounterNode(left, right)]. *)
Lemma new_internal_depth (l r : DepthCounterNode) (st : Store) (p : nat) :
  NoDup (leaf_pointers l ++ leaf_pointers r) ->
  p < length st ->
  depth ((new_internal l r st).2 !!! p) =
  depth (st !!! p) + (if decide (p ∈ leaf_pointers l ++ leaf_pointers r) then 1 else 0).
Proof.
  intros Hnd Hp. unfold new_internal. cbn [snd].
  destruct (lookup_lt_is_Some_2 st p Hp) as [c Hc].
  pose proof (alter_many_lookup inc_depth _ st p Hnd) as Hlook.
  rewrite Hc in Hlook. rewrite (list_lookup_total_correct _ _ _ Hc).
  destruct (decide (p ∈ leaf_pointers l ++ leaf_pointers r));
    rewrite (list_lookup_total_correct _ _ _ Hlook); simpl; lia.
Qed.

Lemma _buildTree_loop_gains (w : nat -> nat) (n : nat) (tree tree' : Tree)
      (st st' : Store) :
  fib_ok w tree ->
  NoDup (tree.*2 ≫= leaf_pointers) ->
  (forall p, p ∈ tree.*2 ≫= leaf_pointers -> p < length st) ->
  _buildTree_loop n tree st = Ok (tree', st') ->
  length tree' = 1 ->
  Forall (fun kn => rises st st' kn.2) tree /\
  StronglySorted (gain_order st st') tree.
Proof.
  revert tree st. induction n as [|n IH]; intros tree st Hok Hnd Hlt Hrun Hone.
  - simpl in Hrun. injection Hrun as <- <-.
    destruct tree as [|kn [|? ?]]; simpl in Hone; [lia| |lia].
    split; [|by repeat constructor].
    constructor; [|done]. intros p _. unfold gain. lia.
  - destruct tree as [|[k1 a] [|[k2 b] rest]]; [done..|].
    cbn [_buildTree_loop] in Hrun. unfold new_internal at 1 in Hrun.
    set (st1 := (new_internal a b st).2) in *.
    csimpl in Hnd. csimpl in Hlt.
    rewrite (assoc_L (++)) in Hnd. apply NoDup_app in Hnd as (Hnd12 & Hdisj & Hndr).
    assert (length st1 = length st) as Hlen1.
    { unfold st1, new_internal. cbn [snd]. apply alter_many_length. }
    assert (forall p, p ∈ leaf_pointers a ++ leaf_pointers b ->
                      depth (st1 !!! p) = depth (st !!! p) + 1) as Hin12.
    { intros p Hp. unfold st1. rewrite new_internal_depth; [|done|].
      - by rewrite decide_True.
      - apply Hlt. rewrite (assoc_L (++)). apply elem_of_app. by left. }
    assert (forall u p, u ∈ rest -> p ∈ leaf_pointers u.2 -> st1 !!! p = st !!! p)
      as Hrest.
    { intros u p Hu Hp.
      assert (p ∈ rest.*2 ≫= leaf_pointers) as Hpr.
      { apply list_elem_of_bind. exists u.2. split; [done|].
        apply list_elem_of_fmap. by exists u. }
      assert (p < length st) as Hpl.
      { apply Hlt. rewrite (assoc_L (++)). apply elem_of_app. by right. }
      destruct (lookup_lt_is_Some_2 st p Hpl) as [c Hc].
      pose proof (alter_many_lookup inc_depth _ st p Hnd12) as Hlook.
      rewrite decide_False in Hlook by (intros Hp12; by apply (Hdisj p)).
      rewrite Hc in Hlook. unfold st1, new_internal. cbn [snd].
      by rewrite (list_lookup_total_correct _ _ _ Hlook),
        (list_lookup_total_correct _ _ _ Hc). }
    pose proof Hok as (Hss & Hkeys & Hlow).
    apply StronglySorted_inv in Hss as [Hss H1].
    apply StronglySorted_inv in Hss as [Hssr H2].
    apply Forall_cons in H1 as [Hk12 _]. simpl in Hk12.
    destruct (tree_insert_split (k1 + k2) (Internal a b) rest Hssr)
      as (L & R & HLR & Hins & HR).
    destruct (IH (tree_insert (k1 + k2) (Internal a b) rest) st1) as [Hr1 Hs1].
    { by apply fib_ok_merge. }
    { rewrite tree_insert_Permutation. csimpl. apply NoDup_app. done. }
    { intros p Hp. rewrite Hlen1. apply Hlt.
      rewrite tree_insert_Permutation in Hp. csimpl in Hp.
      by rewrite <- (assoc_L (++)) in Hp. }
    { done. }
    { done. }
    rewrite Hins in Hr1, Hs1.
    apply Forall_app in Hr1 as [HrL Hr1]. apply Forall_cons in Hr1 as [HrN HrR].
    simpl in HrN.
    destruct (StronglySorted_middle _ _ _ _ Hs1) as (HsL & HsR & HsLR).
    set (gN := gain st1 st' (Internal a b)) in *.
    assert (forall u, u = a \/ u = b ->
                      gain st st' u = gN + 1 /\ rises st st' u) as Hab.
    { intros u Hu.
      assert (forall p, p ∈ leaf_pointers u ->
                        p ∈ leaf_pointers a ++ leaf_pointers b) as Hsub.
      { intros p Hp. apply elem_of_app. destruct Hu as [-> | ->]; auto. }
      assert (gain st st' u = gN + 1) as Hg.
      { unfold gain at 1. pose proof (first_leaf_in u) as Hf. apply Hsub in Hf.
        rewrite (HrN _ Hf), (Hin12 _ Hf). fold gN. lia. }
      split; [done|]. intros p Hp. apply Hsub in Hp.
      rewrite (HrN _ Hp), (Hin12 _ Hp), Hg. fold gN. lia. }
    assert (forall u, u ∈ rest ->
                      gain st st' u.2 = gain st1 st' u.2 /\ rises st st' u.2) as Hu.
    { intros u Hin.
      assert (rises st1 st' u.2) as Hr.
      { rewrite HLR in Hin. apply elem_of_app in Hin as [Hin|Hin].
        - rewrite Forall_forall in HrL. by apply HrL.
        - rewrite Forall_forall in HrR. by apply HrR. }
      assert (gain st st' u.2 = gain st1 st' u.2) as Hg.
      { unfold gain. by rewrite (Hrest u _ Hin (first_leaf_in u.2)). }
      split; [done|]. intros p Hp.
      rewrite (Hr p Hp), (Hrest u p Hin Hp), Hg. done. }
    destruct (Hab a (or_introl eq_refl)) as [Hga Hra].
    destruct (Hab b (or_intror eq_refl)) as [Hgb Hrb].
    assert (forall x, x = a \/ x = b -> forall k,
              Forall (gain_order st st' (k, x)) rest) as Hfirst.
    { intros x Hx k. apply Forall_forall. intros y Hy.
      destruct (Hab x Hx) as [Hgx _]. destruct (Hu y Hy) as [Hgy _].
      unfold gain_order. cbn [fst snd]. rewrite Hgx, Hgy.
      rewrite HLR in Hy. apply elem_of_app in Hy as [Hy|Hy].
      - rewrite Forall_forall in HsL. destruct (HsL y Hy) as [Hle Hint].
        cbn [fst snd] in Hle, Hint. fold gN in Hle, Hint.
        specialize (Hint eq_refl). lia.
      - rewrite Forall_forall in HsR. destruct (HsR y Hy) as [Hle _].
        cbn [fst snd] in Hle. fold gN in Hle. split; [lia|].
        intros Hinternal. exfalso.
        rewrite Forall_forall in HR. specialize (HR y Hy).
        assert (y ∈ (k1, a) :: (k2, b) :: rest) as Hmem.
        { do 2 right. rewrite HLR. apply elem_of_app. by right. }
        rewrite Forall_forall in Hkeys. destruct (Hkeys y Hmem) as [Hky _].
        pose proof (Hlow y (k1, a) Hmem ltac:(left)) as Hchild.
        destruct y as [ky [p|c1 c2]]; [done|]. simpl in *. lia. }
    split.
    + constructor; [done|]. constructor; [done|].
      apply Forall_forall. intros u Hin. by apply Hu.
    + constructor.
      * constructor.
        -- rewrite HLR. apply (StronglySorted_ext_in (gain_order st1 st')); [|done].
           intros x y Hx Hy. rewrite <- HLR in Hx, Hy.
           destruct (Hu x Hx) as [Hgx _]. destruct (Hu y Hy) as [Hgy _].
           unfold gain_order. by rewrite Hgx, Hgy.
        -- apply Hfirst. by right.
      * constructor; [|apply Hfirst; by left].
        unfold gain_order. cbn [fst snd]. rewrite Hga, Hgb. lia.
Qed.

Lemma frequency_index (data : list Byte.byte) (a : nat) :
  0 < occurrences a data ->
  exists p, _countFrequencies data !! p = Some (FrequencyMake a (occurrences a data)).
Proof.
  intros Hpos. apply list_elem_of_lookup.
  rewrite _countFrequencies_Permutation. apply list_elem_of_fmap.
  exists a. split; [done|]. apply list_elem_of_filter. split; [done|].
  apply elem_of_seq. split; [lia|]. simpl.
  unfold occurrences in Hpos.
  destruct (filter _ data) as [|x l] eqn:Hf; [simpl in Hpos; lia|].
  assert (x ∈ filter (fun b => Byte.to_nat b = a) data) as Hx by (rewrite Hf; left).
  apply list_elem_of_filter in Hx as [<- _].
  pose proof (Byte.to_nat_bounded x). rewrite ALPHABET_SIZE_eq. lia.
Qed.

(** In the resolver a leaf of smaller frequency is at least as deep. *)
Lemma resolve_monotone (data : list Byte.byte) (st : Store) (leaves : Nodes)
      (p q : nat) (f g : Frequency) :
  resolve data = Ok (st, leaves) ->
  _countFrequencies data !! p = Some f ->
  _countFrequencies data !! q = Some g ->
  frequency f < frequency g ->
  depth (st !!! q) <= depth (st !!! p).
Proof.
  intros Hres Hp Hq Hfg.
  assert (data ≠ []) as Hdata.
  { intros ->. by rewrite resolve_nil in Hres. }
  destruct (resolve_spec data Hdata) as (st2 & Hres2 & Hel & _).
  rewrite Hres in Hres2. injection Hres2 as <- ->.
  assert (length st = length (_countFrequencies data)) as Hlen.
  { by rewrite <- (length_fmap element st), Hel, length_fmap. }
  assert (p ≠ q) as Hpq by (intros ->; rewrite Hp in Hq; injection Hq as ->; lia).
  pose proof (lookup_lt_Some _ _ _ Hp) as Hpl.
  pose proof (lookup_lt_Some _ _ _ Hq) as Hql.
  destruct (resolve_run data st _ Hres ltac:(lia))
    as (tree & k & root & Hlf & Hperm & Hrun & _ & _ & _ & _ & _).
  set (fs := _countFrequencies data) in *.
  set (w := fun p => frequency (fs !!! p)) in *.
  set (st0 := (fun f => {| element := symbol f; depth := 0 |}) <$> fs) in *.
  assert (NoDup (tree.*2 ≫= leaf_pointers)) as Hnd
      by (rewrite Hperm, leaves_pointers; apply NoDup_seq).
  assert (forall x, x ∈ tree.*2 ≫= leaf_pointers -> x < length st0) as Hbound.
  { intros x Hx. rewrite Hperm, leaves_pointers in Hx.
    apply elem_of_seq in Hx. unfold st0. rewrite length_fmap. lia. }
  destruct (_buildTree_loop_gains w _ _ _ _ _ (leaf_forest_fib_ok w tree Hlf)
              Hnd Hbound Hrun eq_refl) as [_ Hsorted].
  assert (forall x h, fs !! x = Some h ->
            gain st0 st (Leaf x) = depth (st !!! x) /\
            exists i, tree !! i = Some (frequency h, Leaf x)) as Hleaf.
  { intros x h Hx. split.
    - unfold gain. cbn [first_leaf].
      assert (st0 !! x = Some {| element := symbol h; depth := 0 |}) as H0
          by (unfold st0; by rewrite list_lookup_fmap, Hx).
      rewrite (list_lookup_total_correct _ _ _ H0). simpl. lia.
    - assert (Leaf x ∈ tree.*2) as Hin.
      { rewrite Hperm. apply list_elem_of_fmap. exists x. split; [done|].
        apply elem_of_seq. apply lookup_lt_Some in Hx. lia. }
      apply list_elem_of_fmap in Hin as ([kx nx] & Heq & Hin). simpl in Heq. subst nx.
      destruct Hlf as [_ Hall]. rewrite Forall_forall in Hall.
      destruct (Hall _ Hin) as (x' & [= <-] & Hk & _). simpl in Hk.
      unfold w in Hk. rewrite (list_lookup_total_correct _ _ _ Hx) in Hk. subst kx.
      by apply list_elem_of_lookup. }
  destruct (Hleaf p f Hp) as [Hgp [i Hi]].
  destruct (Hleaf q g Hq) as [Hgq [j Hj]].
  assert (i < j) as Hij.
  { destruct (decide (i < j)) as [|Hge]; [done|]. exfalso.
    destruct (decide (i = j)) as [->|Hne]; [rewrite Hi in Hj; by injection Hj|].
    destruct Hlf as [Hss _].
    pose proof (StronglySorted_lookup _ _ j i _ _ Hss ltac:(lia) Hj Hi) as Hle.
    simpl in Hle. lia. }
  destruct (StronglySorted_lookup _ _ i j _ _ Hsorted Hij Hi Hj) as [Hle _].
  cbn [fst snd] in Hle. lia.
Qed.

(** X14.  A more frequent byte value never gets a longer code: of two byte
    values that occur in the buffer, the one that occurs more often has a
    code that is not longer. *)
Theorem frequent_symbols_shorter (data : list Byte.byte) (t : CodeTable) (a b : nat) :
  CodeTableAdapter_data data = Ok t ->
  0 < length (filter (fun x => Byte.to_nat x = a) data) ->
  length (filter (fun x => Byte.to_nat x = a) data)
  < length (filter (fun x => Byte.to_nat x = b) data) ->
  codelength (codes t !!! b) <= codelength (codes t !!! a).
Proof.
  intros Ht Ha Hab. fold (occurrences a data) in Ha, Hab.
  fold (occurrences b data) in Hab.
  destruct (CodeTableAdapter_data_built data t Ht)
    as (st & Hres & _ & Hb & Hnd & Hsyms & _ & _ & _).
  assert (data ≠ []) as Hdata.
  { intros ->. by rewrite resolve_nil in Hres. }
  destruct (resolve_spec data Hdata) as (st2 & Hres2 & Hel & _).
  rewrite Hres in Hres2. injection Hres2 as <-.
  destruct (frequency_index data a Ha) as [p Hp].
  destruct (frequency_index data b ltac:(lia)) as [q Hq].
  assert (forall x s n, _countFrequencies data !! x = Some (FrequencyMake s n) ->
                        codelength (codes t !!! s) = depth (st !!! x)) as Hcode.
  { intros x s n Hx.
    assert ((element <$> st) !! x = Some s) as Hs
        by (by rewrite Hel, list_lookup_fmap, Hx).
    rewrite list_lookup_fmap in Hs.
    destruct (st !! x) as [c|] eqn:Hc; [|done]. simpl in Hs. injection Hs as <-.
    rewrite (list_lookup_total_correct _ _ _ Hc).
    apply (built_codelength_total _ _ t Hnd Hsyms Hb).
    rewrite cells_of_seq. by eapply list_elem_of_lookup_2. }
  rewrite (Hcode _ _ _ Hp), (Hcode _ _ _ Hq).
  by apply (resolve_monotone data st _ p q _ _ Hres Hp Hq).
Qed.

(** ** What does not depend on [std::sort] *)

(** The tree the constructor starts from is a matter of the frequencies
    alone, not of the symbols that have them. *)
Lemma push_frequency_tree (fs1 fs2 : list Frequency) (st1 st2 : Store)
      (tree : Tree) (leaves1 leaves2 : Nodes) :
  frequency <$> fs1 = frequency <$> fs2 ->
  length st1 = length st2 ->
  (fold_left push_frequency_leaf fs1 (st1, tree, leaves1)).1.2 =
  (fold_left push_frequency_leaf fs2 (st2, tree, leaves2)).1.2.
Proof.
  revert fs2 st1 st2 tree leaves1 leaves2.
  induction fs1 as [|f1 fs1 IH]; intros [|f2 fs2] st1 st2 tree leaves1 leaves2;
    csimpl; intros Heq Hlen; try done.
  injection Heq as Hf Heq. unfold new_leaf. rewrite Hf, Hlen.
  apply IH; [done|]. rewrite !length_app. simpl. lia.
Qed.

Lemma alter_many_depths (ps : list nat) (st : Store) :
  depth <$> fold_left (fun s p => alter inc_depth p s) ps st =
  fold_left (fun s p => alter S p s) ps (depth <$> st).
Proof.
  revert st. induction ps as [|p ps IH]; intros st; simpl; [done|].
  rewrite IH. f_equal. apply list_fmap_alter. by apply Forall_true.
Qed.

(** The depths after the merge are a matter of the tree and of the depths
    before it. *)
Lemma _buildTree_loop_depths (n : nat) (tree tree' : Tree) (st1 st1' st2 : Store) :
  depth <$> st1 = depth <$> st2 ->
  _buildTree_loop n tree st1 = Ok (tree', st1') ->
  exists st2',
    _buildTree_loop n tree st2 = Ok (tree', st2') /\
    depth <$> st1' = depth <$> st2'.
Proof.
  revert tree st1 st2. induction n as [|n IH]; intros tree st1 st2 Heq Hrun.
  - simpl in Hrun. injection Hrun as <- <-. by exists st2.
  - destruct tree as [|[f1 n1] [|[f2 n2] rest]]; [done..|].
    cbn [_buildTree_loop] in Hrun |- *. unfold new_internal in Hrun |- *.
    eapply IH; [|exact Hrun]. by rewrite !alter_many_depths, Heq.
Qed.

Lemma sum_filter_split (g : nat -> nat) (data : list Byte.byte) (n : nat) :
  sum_list_with (fun b => g (Byte.to_nat b))
                (filter (fun b => Byte.to_nat b < S n) data) =
  sum_list_with (fun b => g (Byte.to_nat b))
                (filter (fun b => Byte.to_nat b < n) data)
  + occurrences n data * g n.
Proof.
  unfold occurrences. induction data as [|b data IH]; [done|].
  rewrite !filter_cons.
  destruct (decide (Byte.to_nat b < S n)), (decide (Byte.to_nat b < n)),
    (decide (Byte.to_nat b = n)); simpl; try lia.
  subst. lia.
Qed.

(** A sum over the bytes of a buffer, taken symbol by symbol. *)
Lemma sum_by_symbol (g : nat -> nat) (data : list Byte.byte) :
  sum_list_with (fun s => occurrences s data * g s) (seq 0 ALPHABET_SIZE) =
  sum_list_with (fun b => g (Byte.to_nat b)) data.
Proof.
  assert (forall n, sum_list_with (fun s => occurrences s data * g s) (seq 0 n) =
                    sum_list_with (fun b => g (Byte.to_nat b))
                                  (filter (fun b => Byte.to_nat b < n) data)) as Hn.
  { induction n as [|n IH].
    - simpl. induction data as [|b data IHd]; [done|].
      rewrite filter_cons. destruct (decide (Byte.to_nat b < 0)); [lia|done].
    - rewrite seq_S, sum_list_with_app, IH, sum_filter_split. simpl. lia. }
  rewrite Hn. clear Hn. f_equal. induction data as [|b data IH]; [done|].
  rewrite filter_cons. pose proof (Byte.to_nat_bounded b).
  rewrite decide_True by (rewrite ALPHABET_SIZE_eq; lia). by rewrite IH.
Qed.

Lemma sum_list_with_filter_zero {A : Type} (h : A -> nat) (P : A -> Prop)
      `{!forall x, Decision (P x)} (l : list A) :
  (forall x, ¬ P x -> h x = 0) ->
  sum_list_with h (filter P l) = sum_list_with h l.
Proof.
  intros Hz. induction l as [|x l IH]; [done|]. rewrite filter_cons.
  destruct (decide (P x)) as [|Hn]; simpl; rewrite IH; [done|].
  rewrite (Hz x Hn). lia.
Qed.

Lemma sum_zip_with (h : Frequency -> nat) (fs : list Frequency) (st : Store) :
  length fs = length st ->
  (forall p f c, fs !! p = Some f -> st !! p = Some c ->
                 h f = frequency f * depth c) ->
  sum_list_with h fs = sum_list (zip_with Nat.mul (frequency <$> fs) (depth <$> st)).
Proof.
  revert st. induction fs as [|f fs IH]; intros [|c st] Hlen Hall; try done.
  csimpl. rewrite (Hall 0 f c eq_refl eq_refl). f_equal.
  apply IH; [by injection Hlen|]. intros p f' c' Hf Hc. by apply (Hall (S p)).
Qed.

(** The number of code bits of a buffer, from the frequencies and the
    depths of the leaves. *)
Lemma table_bits (data : list Byte.byte) (t : CodeTable) (st : Store) :
  CodeTableAdapter_data data = Ok t ->
  resolve data = Ok (st, seq 0 (length st)) ->
  sum_list_with (fun b => codelength (codes t !!! Byte.to_nat b)) data =
  sum_list (zip_with Nat.mul (frequency <$> _countFrequencies data) (depth <$> st)).
Proof.
  intros Ht Hres.
  destruct (CodeTableAdapter_data_built data t Ht)
    as (st2 & Hres2 & _ & Hb & Hnd & Hsyms & _ & _ & _).
  rewrite Hres in Hres2. injection Hres2 as <-.
  assert (data ≠ []) as Hdata.
  { intros ->. by rewrite resolve_nil in Hres. }
  destruct (resolve_spec data Hdata) as (st2 & Hres2 & Hel & _).
  rewrite Hres in Hres2. injection Hres2 as <-.
  rewrite <- (sum_by_symbol (fun s => codelength (codes t !!! s))).
  rewrite <- (sum_list_with_filter_zero _ (fun s => 0 < occurrences s data))
    by (intros s Hs; lia).
  fold (used_symbols data).
  change (fun s => occurrences s data * codelength (codes t !!! s))
    with ((fun f => frequency f * codelength (codes t !!! symbol f))
            ∘ (fun i => FrequencyMake i (occurrences i data))).
  rewrite <- sum_list_with_fmap, <- _countFrequencies_Permutation.
  apply sum_zip_with.
  - by rewrite <- (length_fmap symbol), <- Hel, length_fmap.
  - intros p f c Hf Hc. f_equal.
    assert ((element <$> st) !! p = Some (symbol f)) as Hs
        by (by rewrite Hel, list_lookup_fmap, Hf).
    rewrite list_lookup_fmap, Hc in Hs. simpl in Hs. injection Hs as <-.
    apply (built_codelength_total _ _ t Hnd Hsyms Hb).
    rewrite cells_of_seq. by eapply list_elem_of_lookup_2.
Qed.

(** ** The failures of the constructor from raw data *)

(** In a complete code the two longest codes have the same length. *)
Lemma kraft_top_two (d1 d2 : nat) (rest : list nat) :
  1 <= d1 -> d2 <= d1 -> Forall (fun d => d <= d2) rest ->
  (kraft_sum (d1 :: d2 :: rest) == 1)%Q ->
  d2 = d1.
Proof.
  intros Hpos Hle Hrest Hkraft.
  apply (kraft_eq_scaled d1) in Hkraft.
  - destruct (decide (d2 = d1)) as [|Hne]; [done|]. exfalso.
    assert (weight d1 (d1 - 1) | ksum d1 (d2 :: rest))%Z as [k Hk].
    { apply ksum_divide; [lia|]. constructor; [lia|].
      eapply Forall_impl; [exact Hrest|]. simpl. lia. }
    change (ksum d1 (d1 :: d2 :: rest))
      with (weight d1 d1 + ksum d1 (d2 :: rest))%Z in Hkraft.
    rewrite Hk in Hkraft. unfold weight in Hkraft.
    replace (d1 - d1) with 0 in Hkraft by lia.
    replace (d1 - (d1 - 1)) with 1 in Hkraft by lia.
    replace (Z.of_nat d1) with (Z.succ (Z.of_nat (d1 - 1))) in Hkraft by lia.
    rewrite Z.pow_succ_r in Hkraft by lia.
    change (2 ^ Z.of_nat 0)%Z with 1%Z in Hkraft.
    change (2 ^ Z.of_nat 1)%Z with 2%Z in Hkraft. lia.
  - constructor; [lia|]. constructor; [lia|].
    eapply Forall_impl; [exact Hrest|]. simpl. lia.
Qed.

(** On leaves in descending order of depth the loop of [_buildTable] fails
    by an assertion or not at all, as long as the code before the first of
    them is below the limit or of the same length. *)
Lemma _buildTable_loop_failure (st : Store) (nodes : Nodes) (last : Code)
      (t : CodeTable) :
  StronglySorted (fun a b => b <= a)
                 (codelength last :: ((fun p => depth (st !!! p)) <$> nodes)) ->
  codelength last < MAXIMUM_CODELENGTH \/
  (exists p rest, nodes = p :: rest /\ depth (st !!! p) = codelength last) ->
  (exists t', _buildTable_loop st nodes last t = Ok t') \/
  _buildTable_loop st nodes last t = Err AssertionFailed.
Proof.
  revert last t. induction nodes as [|p nodes IH]; intros last t Hss Hfirst.
  - left. by eexists.
  - rewrite fmap_cons in Hss. apply StronglySorted_inv in Hss as [Hss Hall].
    apply Forall_cons in Hall as [Hle _].
    cbn [_buildTable_loop].
    set (d := depth (st !!! p)) in *.
    assert (exists pattern,
              (if d =? codelength last
               then Ok (code_succ (code last))
               else assert (d <? codelength last);;
                    shift_right (code_succ (code last)) (codelength last - d))
              = Ok pattern) as [pattern ->].
    { destruct (Nat.eqb_spec d (codelength last)) as [Heq|Hne]; [by eexists|].
      rewrite (assert_true (d <? codelength last)), bind_Ok_l
        by (apply Nat.ltb_lt; lia).
      unfold shift_right.
      assert (codelength last < MAXIMUM_CODELENGTH) as Hlt.
      { destruct Hfirst as [|(p' & rest & [= <- <-] & Heq)]; [done|].
        by fold d in Heq. }
      rewrite (proj2 (Z.ltb_lt _ _)) by lia. by eexists. }
    rewrite bind_Ok_l.
    destruct (Nat.ltb_spec d MAXIMUM_CODELENGTH) as [Hlt|Hge]; [|by right].
    cbn [assert]. rewrite bind_Ok_l. apply IH; [done|by left].
Qed.

(** X17.  The failures of the constructor from raw data.  A buffer over
    the size limit fails the first assertion.  On a non-empty buffer the
    constructor completes or fails an assertion, the size limit or the
    codelength limit of [_buildTable]: no iterator is dereferenced past the
    end and no pattern is shifted by its width or more. *)
Theorem CodeTableAdapter_data_failures (data : list Byte.byte) :
  (MAXIMUM_DATABLOCK_SIZE < length data ->
   CodeTableAdapter_data data = Err AssertionFailed) /\
  (data ≠ [] ->
   (exists t, CodeTableAdapter_data data = Ok t) \/
   CodeTableAdapter_data data = Err AssertionFailed).
Proof.
  split.
  - intros Hbig. unfold CodeTableAdapter_data.
    by rewrite (proj2 (Nat.leb_gt _ _) Hbig).
  - intros Hdata.
    destruct (CodeTableAdapter_data_unfold data Hdata)
      as (st & _ & -> & _ & _ & _ & Hpos & Hkraft).
    destruct (length data <=? MAXIMUM_DATABLOCK_SIZE); [|by right].
    cbn [assert]. rewrite bind_Ok_l.
    pose proof (sorted_cells_sorted st (seq 0 (length st))) as Hsorted.
    pose proof (sorted_cells_Permutation st (seq 0 (length st))) as Hperm.
    rewrite cells_of_seq in Hperm. unfold sorted_cells, cells_of in Hsorted, Hperm.
    destruct (std_sort (_LeafComparator st) (seq 0 (length st))) as [|p nodes] eqn:Hs.
    { exfalso. symmetry in Hperm. apply Permutation_nil_r in Hperm. subst st.
      destruct Hkraft as [[Hl _]|(c & [=] & _)]. simpl in Hl. lia. }
    cbn [_buildTable].
    destruct nodes as [|q nodes]; [left; by eexists|].
    apply _buildTable_loop_failure.
    + cbn [codelength]. rewrite fmap_cons in Hsorted.
      change ((fun p => depth (st !!! p)) <$> q :: nodes)
        with ((depth ∘ (st !!!.)) <$> q :: nodes).
      rewrite list_fmap_compose, <- fmap_cons.
      apply (StronglySorted_fmap _ leaf_le); [|done]. by intros a b [Hle _].
    + cbn [codelength]. right.
      exists q, nodes. split; [done|]. rewrite !fmap_cons in Hsorted, Hperm.
      destruct Hkraft as [[_ Hk]|(c & -> & _)].
      * apply StronglySorted_inv in Hsorted as [Hsorted Hall].
        apply Forall_cons in Hall as [[Hqp _] _].
        apply StronglySorted_inv in Hsorted as [_ Hall].
        rewrite <- Hperm in Hk. rewrite !fmap_cons in Hk.
        apply (kraft_top_two _ _ (depth <$> ((st !!!.) <$> nodes))); [|done| |done].
        -- rewrite Forall_forall in Hpos. apply Hpos.
           assert (st !!! p ∈ st !!! p :: st !!! q :: ((st !!!.) <$> nodes)) as Hin
               by left.
           by rewrite Hperm in Hin.
        -- rewrite Forall_fmap. eapply Forall_impl; [exact Hall|].
           by intros c [Hle _].
      * apply Permutation_length in Hperm. simpl in Hperm. lia.
Qed.

(** ** The code of a buffer is optimal

    The proof is the textbook one, on lists: the weights stand in ascending
    order, as the multimap keeps them, and a competitor is a list of code
    lengths with Kraft sum of at most 1.  The two greatest lengths are
    brought to the front, where the two least weights are; they are made
    equal; and the two are merged into one length, as [_buildTree] merges
    the two trees. *)

Lemma cost_cons (k d : nat) (K D : list nat) :
  cost (k :: K) (d :: D) = k * d + cost K D.
Proof. done. Qed.

Lemma cost_app (K1 K2 D1 D2 : list nat) :
  length K1 = length D1 ->
  cost (K1 ++ K2) (D1 ++ D2) = cost K1 D1 + cost K2 D2.
Proof.
  intros Hlen. unfold cost. rewrite zip_with_app by done.
  by rewrite sum_list_with_app.
Qed.

Lemma cost_fmap {A : Type} (f g : A -> nat) (l : list A) :
  cost (f <$> l) (g <$> l) = sum_list_with (fun x => f x * g x) l.
Proof. induction l as [|x l IH]; [done|]. csimpl. rewrite cost_cons. by rewrite IH. Qed.

(** The greatest length can stand first, where the least weight is. *)
Lemma max_to_front (K D : list nat) :
  StronglySorted le K -> length K = length D -> D ≠ [] ->
  exists m D',
    D ≡ₚ m :: D' /\ Forall (fun d => d <= m) D' /\ cost K (m :: D') <= cost K D.
Proof.
  intros Hss. revert D. induction Hss as [|k Ks Hss IH Hk]; intros D Hlen Hne.
  - by destruct D.
  - destruct D as [|d Ds]; [done|]. injection Hlen as Hlen.
    destruct Ds as [|d1 Ds].
    { exists d, []. split_and!; [done|constructor|done]. }
    destruct (IH (d1 :: Ds) Hlen ltac:(done)) as (m' & Ds' & Hperm & Hall & Hcost).
    destruct Ks as [|k1 Ks']; [done|].
    apply Forall_cons in Hk as [Hk1 _].
    destruct (decide (m' <= d)) as [Hle|Hgt].
    + exists d, (m' :: Ds'). split_and!.
      * by rewrite Hperm.
      * constructor; [done|]. eapply Forall_impl; [exact Hall|]. simpl. lia.
      * rewrite !cost_cons in *. lia.
    + exists m', (d :: Ds'). split_and!.
      * rewrite Hperm. apply Permutation_swap.
      * constructor; [lia|done].
      * rewrite !cost_cons in *.
        assert (k * m' + k1 * d <= k * d + k1 * m') by nia. lia.
Qed.

(** The two greatest lengths can stand first, in descending order. *)
Lemma two_max_to_front (k : nat) (K D : list nat) :
  StronglySorted le (k :: K) -> length (k :: K) = length D -> K ≠ [] ->
  exists m1 m2 D',
    D ≡ₚ m1 :: m2 :: D' /\ m2 <= m1 /\ Forall (fun d => d <= m2) D' /\
    cost (k :: K) (m1 :: m2 :: D') <= cost (k :: K) D.
Proof.
  intros Hss Hlen HK.
  destruct (max_to_front (k :: K) D Hss Hlen) as (m1 & D1 & Hperm1 & Hall1 & Hcost1).
  { intros ->. done. }
  apply StronglySorted_inv in Hss as [HssK _].
  assert (length K = length D1) as Hlen1.
  { apply Permutation_length in Hperm1. simpl in *. lia. }
  destruct (max_to_front K D1 HssK Hlen1) as (m2 & D' & Hperm2 & Hall2 & Hcost2).
  { intros ->. by destruct K. }
  exists m1, m2, D'. split_and!.
  - by rewrite Hperm1, Hperm2.
  - rewrite Forall_forall in Hall1. apply Hall1. rewrite Hperm2. left.
  - done.
  - rewrite cost_cons in *. lia.
Qed.

(** A greatest length that stands alone can be cut down to the next one. *)
Lemma kraft_lower_first (m1 m2 : nat) (D : list nat) :
  m2 <= m1 -> Forall (fun d => d <= m2) D ->
  (kraft_sum (m1 :: m2 :: D) <= 1)%Q ->
  (kraft_sum (m2 :: m2 :: D) <= 1)%Q.
Proof.
  intros Hle Hall Hkraft.
  destruct (decide (m2 = m1)) as [->|Hne]; [done|].
  assert (Forall (fun d => d <= m1) (m2 :: D)) as Hall1.
  { constructor; [done|]. eapply Forall_impl; [exact Hall|]. simpl. lia. }
  apply (kraft_le_scaled m1) in Hkraft; [|by constructor].
  apply (kraft_le_scaled m1); [constructor; [done|exact Hall1]|].
  change (ksum m1 (m1 :: m2 :: D)) with (weight m1 m1 + ksum m1 (m2 :: D))%Z in Hkraft.
  change (ksum m1 (m2 :: m2 :: D)) with (weight m1 m2 + ksum m1 (m2 :: D))%Z.
  destruct (ksum_divide m1 m2 (m2 :: D) Hle) as [x Hx]; [by constructor|].
  pose proof (weight_split m1 m2 0 ltac:(lia) Hle) as Hfull.
  rewrite weight_full in Hfull. rewrite Nat.sub_0_r in Hfull.
  pose proof (weight_pos m1 m2) as Hq.
  assert (weight m1 m1 = 1%Z) as H1 by (unfold weight; by rewrite Nat.sub_diag).
  rewrite Hx, Hfull, H1 in *.
  assert (x < 2 ^ Z.of_nat m2)%Z by nia. nia.
Qed.

Lemma kraft_two_positive (m : nat) (D : list nat) :
  (kraft_sum (m :: m :: D) <= 1)%Q -> 1 <= m.
Proof.
  intros Hkraft. destruct m as [|m]; [|lia]. exfalso.
  rewrite !kraft_sum_cons in Hkraft. pose proof (kraft_sum_nonneg D) as Hpos.
  change (Qpower 2 (- Z.of_nat 0)) with 1%Q in Hkraft. lra.
Qed.

(** Two codes of the same length [S m] take the room of one code of
    length [m]. *)
Lemma kraft_merge (m : nat) (D : list nat) :
  (kraft_sum (m :: D) == kraft_sum (S m :: S m :: D))%Q.
Proof. rewrite !kraft_sum_cons, kraft_term_S. lra. Qed.

(** The exchange: a competitor for the weights gives a competitor for the
    weights after the merge of the two least ones, cheaper by their sum. *)
Lemma exchange (k0 k1 : nat) (L R D : list nat) :
  StronglySorted le (k0 :: k1 :: L ++ R) ->
  length D = 2 + length L + length R ->
  (kraft_sum D <= 1)%Q ->
  exists D',
    length D' = S (length L + length R) /\
    (kraft_sum D' <= 1)%Q /\
    cost (L ++ (k0 + k1) :: R) D' + k0 + k1 <= cost (k0 :: k1 :: L ++ R) D.
Proof.
  intros Hss Hlen Hkraft.
  destruct (two_max_to_front k0 (k1 :: L ++ R) D Hss)
    as (m1 & m2 & Dr & Hperm & Hle & Hall & Hcost); [|done|].
  { simpl. rewrite length_app. lia. }
  rewrite Hperm in Hkraft.
  apply kraft_lower_first in Hkraft; [|done..].
  pose proof (kraft_two_positive _ _ Hkraft) as Hpos.
  assert (length Dr = length L + length R) as Hlenr.
  { apply Permutation_length in Hperm. simpl in Hperm. lia. }
  exists (take (length L) Dr ++ (m2 - 1) :: drop (length L) Dr). split_and!.
  - rewrite length_app. simpl. rewrite length_take, length_drop. lia.
  - rewrite <- Permutation_middle, take_drop.
    destruct m2 as [|m]; [lia|]. replace (S m - 1) with m by lia.
    by rewrite kraft_merge.
  - rewrite cost_app by (rewrite length_take; lia). rewrite cost_cons.
    rewrite !cost_cons in Hcost.
    rewrite <- (take_drop (length L) Dr) in Hcost at 1.
    rewrite cost_app in Hcost by (rewrite length_take; lia).
    apply StronglySorted_inv in Hss as [_ Hk0]. apply Forall_cons in Hk0 as [Hk01 _].
    nia.
Qed.

(** What one merge does to the gains. *)
Lemma merge_gains (a b : DepthCounterNode) (rest : Tree) (st st' : Store) :
  NoDup (leaf_pointers a ++ leaf_pointers b ++ rest.*2 ≫= leaf_pointers) ->
  (forall p, p ∈ leaf_pointers a ++ leaf_pointers b ++ rest.*2 ≫= leaf_pointers ->
             p < length st) ->
  rises (new_internal a b st).2 st' (Internal a b) ->
  gain st st' a = gain (new_internal a b st).2 st' (Internal a b) + 1 /\
  gain st st' b = gain (new_internal a b st).2 st' (Internal a b) + 1 /\
  forall u, u ∈ rest -> gain st st' u.2 = gain (new_internal a b st).2 st' u.2.
Proof.
  intros Hnd Hlt HrN. set (st1 := (new_internal a b st).2) in *.
  rewrite (assoc_L (++)) in Hnd. apply NoDup_app in Hnd as (Hnd12 & Hdisj & Hndr).
  assert (forall p, p ∈ leaf_pointers a ++ leaf_pointers b ->
                    depth (st1 !!! p) = depth (st !!! p) + 1) as Hin12.
  { intros p Hp. unfold st1. rewrite new_internal_depth; [|done|].
    - by rewrite decide_True.
    - apply Hlt. rewrite (assoc_L (++)). apply elem_of_app. by left. }
  set (gN := gain st1 st' (Internal a b)) in *.
  assert (forall u, u = a \/ u = b -> gain st st' u = gN + 1) as Hab.
  { intros u Hu. unfold gain at 1. pose proof (first_leaf_in u) as Hf.
    assert (first_leaf u ∈ leaf_pointers a ++ leaf_pointers b) as Hf'.
    { apply elem_of_app. destruct Hu as [-> | ->]; auto. }
    rewrite (HrN _ Hf'), (Hin12 _ Hf'). fold gN. lia. }
  split_and!; [apply Hab; by left|apply Hab; by right|].
  intros u Hu. unfold gain. f_equal. f_equal.
  pose proof (first_leaf_in u.2) as Hp.
  assert (first_leaf u.2 ∈ rest.*2 ≫= leaf_pointers) as Hpr.
  { apply list_elem_of_bind. exists u.2. split; [done|].
    apply list_elem_of_fmap. by exists u. }
  assert (first_leaf u.2 < length st) as Hpl.
  { apply Hlt. rewrite (assoc_L (++)). apply elem_of_app. by right. }
  destruct (lookup_lt_is_Some_2 st _ Hpl) as [c Hc].
  pose proof (alter_many_lookup inc_depth _ st (first_leaf u.2) Hnd12) as Hlook.
  rewrite decide_False in Hlook by (intros Hp12; by apply (Hdisj _ Hp12)).
  rewrite Hc in Hlook. unfold st1, new_internal. cbn [snd].
  by rewrite (list_lookup_total_correct _ _ _ Hlook),
    (list_lookup_total_correct _ _ _ Hc).
Qed.

(** The merge is optimal: no list of lengths with a Kraft sum of at most 1
    is cheaper for the weights of the multimap than the depths the merge
    gives to its trees. *)
Lemma _buildTree_loop_optimal (w : nat -> nat) (n : nat) (tree tree' : Tree)
      (st st' : Store) (D : list nat) :
  fib_ok w tree ->
  NoDup (tree.*2 ≫= leaf_pointers) ->
  (forall p, p ∈ tree.*2 ≫= leaf_pointers -> p < length st) ->
  _buildTree_loop n tree st = Ok (tree', st') ->
  length tree' = 1 ->
  length D = length tree ->
  (kraft_sum D <= 1)%Q ->
  cost tree.*1 (gain st st' <$> tree.*2) <= cost tree.*1 D.
Proof.
  revert tree st D. induction n as [|n IH]; intros tree st D Hok Hnd Hlt Hrun Hone Hlen HD.
  - simpl in Hrun. injection Hrun as <- <-.
    destruct tree as [|[k a] [|? ?]]; simpl in Hone; [lia| |lia].
    csimpl. rewrite cost_cons. unfold gain.
    rewrite Nat.sub_diag, Nat.mul_0_r. change (cost [] []) with 0. lia.
  - destruct tree as [|[k1 a] [|[k2 b] rest]]; [done..|].
    cbn [_buildTree_loop] in Hrun. unfold new_internal at 1 in Hrun.
    set (st1 := (new_internal a b st).2) in *.
    csimpl in Hnd. csimpl in Hlt.
    assert (length st1 = length st) as Hlen1.
    { unfold st1, new_internal. cbn [snd]. apply alter_many_length. }
    pose proof Hok as (Hss & _ & _).
    assert (StronglySorted le ((k1, a) :: (k2, b) :: rest).*1) as HssK.
    { by apply (StronglySorted_fmap _ (fun x y => x.1 <= y.1)). }
    apply StronglySorted_inv in Hss as [Hss _].
    apply StronglySorted_inv in Hss as [Hssr _].
    destruct (tree_insert_split (k1 + k2) (Internal a b) rest Hssr)
      as (L & R & HLR & Hins & _).
    assert (fib_ok w (tree_insert (k1 + k2) (Internal a b) rest)) as Hok1
        by (by apply fib_ok_merge).
    assert (NoDup ((tree_insert (k1 + k2) (Internal a b) rest).*2 ≫= leaf_pointers))
      as Hnd1.
    { rewrite tree_insert_Permutation. csimpl. by rewrite <- (assoc_L (++)). }
    assert (forall p, p ∈ (tree_insert (k1 + k2) (Internal a b) rest).*2 ≫= leaf_pointers ->
                      p < length st1) as Hlt1.
    { intros p Hp. rewrite Hlen1. apply Hlt.
      rewrite tree_insert_Permutation in Hp. csimpl in Hp.
      by rewrite <- (assoc_L (++)) in Hp. }
    destruct (_buildTree_loop_gains w n _ _ _ _ Hok1 Hnd1 Hlt1 Hrun Hone) as [Hr1 _].
    assert (rises st1 st' (Internal a b)) as HrN.
    { rewrite Forall_forall in Hr1. apply (Hr1 (k1 + k2, Internal a b)).
      rewrite tree_insert_Permutation. left. }
    destruct (merge_gains a b rest st st' Hnd Hlt HrN) as (Hga & Hgb & Hu).
    fold st1 in Hga, Hgb, Hu. set (gN := gain st1 st' (Internal a b)) in *.
    csimpl in HssK. rewrite HLR, fmap_app in HssK.
    destruct (exchange k1 k2 L.*1 R.*1 D HssK) as (D' & HlenD' & HD' & Hcost); [|done|].
    { rewrite Hlen, HLR. simpl. rewrite length_app, !length_fmap. lia. }
    assert (length D' = length (tree_insert (k1 + k2) (Internal a b) rest)) as Hlen'.
    { rewrite tree_insert_length, HlenD', HLR, length_app, !length_fmap. done. }
    specialize (IH _ st1 D' Hok1 Hnd1 Hlt1 Hrun Hone Hlen' HD').
    rewrite Hins in IH. rewrite !fmap_app, !fmap_cons in IH. cbn [fst snd] in IH.
    rewrite cost_app, cost_cons in IH by (by rewrite !length_fmap).
    assert (gain st st' <$> rest.*2 = gain st1 st' <$> rest.*2) as Hrest.
    { apply list_fmap_ext. intros i u Hi. apply list_elem_of_lookup_2 in Hi.
      apply list_elem_of_fmap in Hi as (kn & -> & Hkn). by apply Hu. }
    csimpl. rewrite !cost_cons, Hga, Hgb, Hrest, HLR, !fmap_app.
    rewrite cost_app by (by rewrite !length_fmap).
    fold gN in IH. nia.
Qed.

Lemma leaf_forest_entries (w : nat -> nat) (tree : Tree) :
  leaf_forest w tree -> tree = (fun n => (w (first_leaf n), n)) <$> tree.*2.
Proof.
  intros [_ Hall]. induction Hall as [|[k n] tree (p & Hn & Hk & _) _ IH]; [done|].
  simpl in Hn, Hk. subst. csimpl. by rewrite <- IH.
Qed.

Lemma sum_list_with_ext_in {A : Type} (f g : A -> nat) (l : list A) :
  (forall x, x ∈ l -> f x = g x) -> sum_list_with f l = sum_list_with g l.
Proof.
  intros Hfg. induction l as [|x l IH]; [done|]. simpl.
  rewrite (Hfg x) by left. rewrite IH; [done|]. intros y Hy. apply Hfg. by right.
Qed.

Lemma cost_seq {A B : Type} `{!Inhabited A, !Inhabited B}
      (f : A -> nat) (g : B -> nat) (l : list A) (k : list B) :
  length l = length k ->
  sum_list_with (fun p => f (l !!! p) * g (k !!! p)) (seq 0 (length l)) =
  cost (f <$> l) (g <$> k).
Proof.
  revert k. induction l as [|x l IH]; intros [|y k] Hlen; try done.
  injection Hlen as Hlen. cbn [length seq]. rewrite <- fmap_S_seq.
  csimpl. rewrite cost_cons, sum_list_with_fmap. f_equal. by apply IH.
Qed.

Lemma occurrences_pos (i : nat) (data : list Byte.byte) :
  0 < occurrences i data <-> i ∈ Byte.to_nat <$> data.
Proof.
  unfold occurrences. rewrite list_elem_of_fmap. split.
  - intros Hpos. destruct (filter _ data) as [|b l] eqn:Hf; [simpl in Hpos; lia|].
    assert (b ∈ filter (fun b => Byte.to_nat b = i) data) as Hb by (rewrite Hf; left).
    apply list_elem_of_filter in Hb as [Hb1 Hb2]. by exists b.
  - intros (b & -> & Hb).
    assert (b ∈ filter (fun b' => Byte.to_nat b' = Byte.to_nat b) data) as Hin
        by (by apply list_elem_of_filter).
    destruct (filter _ data); [by apply not_elem_of_nil in Hin|simpl; lia].
Qed.

Lemma sum_at_least_length (g : nat -> nat) (data : list Byte.byte) :
  (forall b, b ∈ data -> 1 <= g (Byte.to_nat b)) ->
  length data <= sum_list_with (fun b => g (Byte.to_nat b)) data.
Proof.
  induction data as [|b data IH]; intros Hg; [done|]. simpl.
  pose proof (Hg b ltac:(left)). 
  assert (length data <= sum_list_with (fun b => g (Byte.to_nat b)) data); [|lia].
  apply IH. intros b' Hb'. apply Hg. by right.
Qed.

(** The code bits a list of lengths per symbol takes, from the frequencies. *)
Lemma lengths_bits (g : nat -> nat) (data : list Byte.byte) :
  sum_list_with (fun b => g (Byte.to_nat b)) data =
  cost (frequency <$> _countFrequencies data) ((g ∘ symbol) <$> _countFrequencies data).
Proof.
  rewrite <- (sum_by_symbol g).
  rewrite <- (sum_list_with_filter_zero _ (fun s => 0 < occurrences s data))
    by (intros s Hs; lia).
  fold (used_symbols data).
  change (fun s => occurrences s data * g s)
    with ((fun f => frequency f * (g ∘ symbol) f)
            ∘ (fun i => FrequencyMake i (occurrences i data))).
  rewrite <- sum_list_with_fmap, <- _countFrequencies_Permutation.
  by rewrite cost_fmap.
Qed.

(** X18.  The code of a buffer is optimal.  Give every byte value that
    occurs a code length of at least 1, in any way that satisfies Kraft's
    inequality (as the lengths of every prefix-free code do): the buffer
    does not take fewer code bits with those lengths than with the
    codelengths of the table. *)
Theorem table_optimal (data : list Byte.byte) (t : CodeTable) (lengths : nat -> nat) :
  CodeTableAdapter_data data = Ok t ->
  (forall b, b ∈ data -> 1 <= lengths (Byte.to_nat b)) ->
  (kraft_sum (lengths <$> filter (fun s => s ∈ Byte.to_nat <$> data)
                                 (seq 0 ALPHABET_SIZE)) <= 1)%Q ->
  sum_list_with (fun b => codelength (codes t !!! Byte.to_nat b)) data <=
  sum_list_with (fun b => lengths (Byte.to_nat b)) data.
Proof.
  intros Ht Hpos Hkraft.
  destruct (CodeTableAdapter_data_built data t Ht)
    as (st & Hres & _ & _ & _ & _ & _ & _ & Hcase).
  assert (data ≠ []) as Hdata.
  { intros ->. by rewrite resolve_nil in Hres. }
  destruct (resolve_spec data Hdata) as (st2 & Hres2 & Hel & _).
  rewrite Hres in Hres2. injection Hres2 as <-.
  rewrite (table_bits data t st Ht Hres).
  set (fs := _countFrequencies data) in *.
  assert (length st = length fs) as Hlen
      by (by rewrite <- (length_fmap element st), Hel, length_fmap).
  destruct Hcase as [[Hlen2 _]|(c & -> & Hc)].
  - rewrite (lengths_bits lengths). fold fs. fold (cost (frequency <$> fs) (depth <$> st)).
    destruct (resolve_run data st _ Hres Hlen2)
      as (tree & k & root & Hlf & Hperm & Hrun & _ & _ & _ & _ & _).
    fold fs in Hlf, Hperm, Hrun.
    set (w := fun p => frequency (fs !!! p)) in *.
    set (st0 := (fun f => {| element := symbol f; depth := 0 |}) <$> fs) in *.
    assert (NoDup (tree.*2 ≫= leaf_pointers)) as Hnd
        by (rewrite Hperm, leaves_pointers; apply NoDup_seq).
    assert (forall x, x ∈ tree.*2 ≫= leaf_pointers -> x < length st0) as Hbound.
    { intros x Hx. rewrite Hperm, leaves_pointers in Hx.
      apply elem_of_seq in Hx. unfold st0. rewrite length_fmap. lia. }
    assert (tree ≡ₚ (fun p => (w p, Leaf p)) <$> seq 0 (length fs)) as Htree.
    { rewrite (leaf_forest_entries w tree Hlf), Hperm, <- list_fmap_compose. done. }
    set (dfun := fun kn : nat * DepthCounterNode =>
                   lengths (symbol (fs !!! first_leaf kn.2))).
    assert ((fun p => lengths (symbol (fs !!! p))) <$> seq 0 (length fs)
            = (lengths ∘ symbol) <$> fs) as Hseq.
    { change (fun p => lengths (symbol (fs !!! p)))
        with ((lengths ∘ symbol) ∘ (fs !!!.)).
      by rewrite list_fmap_compose, lookup_total_seq. }
    assert (kraft_sum (dfun <$> tree) <= 1)%Q as HD.
    { rewrite Htree, <- list_fmap_compose.
      change (dfun ∘ _) with (fun p => lengths (symbol (fs !!! p))).
      rewrite Hseq, list_fmap_compose. unfold fs.
      rewrite _countFrequencies_symbols. unfold used_symbols.
      rewrite (list_filter_iff _ (fun s => s ∈ Byte.to_nat <$> data)); [done|].
      intros s. apply occurrences_pos. }
    pose proof (_buildTree_loop_optimal w _ _ _ _ _ (dfun <$> tree)
                  (leaf_forest_fib_ok w tree Hlf) Hnd Hbound Hrun eq_refl
                  ltac:(by rewrite length_fmap) HD) as Hopt.
    rewrite <- list_fmap_compose, !cost_fmap in Hopt.
    rewrite !Htree, !sum_list_with_fmap in Hopt.
    rewrite <- (cost_seq frequency depth fs st) by done.
    rewrite <- (cost_seq frequency (lengths ∘ symbol) fs fs) by done.
    etrans; [|etrans; [exact Hopt|]].
    + apply Nat.eq_le_incl, sum_list_with_ext_in. intros p Hp.
      apply elem_of_seq in Hp. simpl. f_equal. unfold gain. cbn [first_leaf].
      destruct (lookup_lt_is_Some_2 fs p) as [f Hf]; [lia|].
      assert (st0 !! p = Some {| element := symbol f; depth := 0 |}) as H0
          by (unfold st0; by rewrite list_lookup_fmap, Hf).
      rewrite (list_lookup_total_correct _ _ _ H0). simpl. lia.
    + apply Nat.eq_le_incl, sum_list_with_ext_in. intros p Hp.
      done.
  - destruct fs as [|f [|? ?]] eqn:Hfs; simpl in Hlen; [lia| |lia].
    pose proof (sum_frequencies data) as Hsum. fold fs in Hsum. rewrite Hfs in Hsum.
    simpl in Hsum. csimpl. rewrite Hc.
    pose proof (sum_at_least_length lengths data Hpos). lia.
Qed.

(** ** [operator==] on the arrays in memory *)

Lemma memcmp_zero (s1 s2 : list Byte.byte) (n : nat) :
  n <= length s1 -> n <= length s2 ->
  memcmp s1 s2 n = 0%Z <-> take n s1 = take n s2.
Proof.
  clear. revert s1 s2.
  induction n as [|n IH]; intros [|b1 s1] [|b2 s2] H1 H2; simpl in *; try done; try lia.
  destruct (Byte.eqb b1 b2) eqn:Hb.
  - apply Byte.byte_dec_bl in Hb as ->. rewrite IH by lia.
    split; [by intros ->|by intros [= ->]].
  - apply Byte.eqb_false in Hb. split.
    + intros Hz. destruct Hb. apply to_nat_inj. lia.
    + by intros [= ? _].
Qed.

Lemma join_chunks_inj {A : Type} (n : nat) (xs ys : list (list A)) :
  Forall (fun x => length x = n) xs -> Forall (fun y => length y = n) ys ->
  length xs = length ys -> mjoin xs = mjoin ys -> xs = ys.
Proof.
  clear. intros Hx. revert ys.
  induction Hx as [|x xs Hx _ IH]; intros [|y ys] Hy Hl Hj; try done.
  apply Forall_cons in Hy as [Hy Hys]. simpl in Hj, Hl.
  apply app_inj_1 in Hj as [-> Hj]; [|congruence]. f_equal. apply IH; [done|lia|done].
Qed.

Lemma join_chunks_length {A : Type} (n : nat) (xs : list (list A)) :
  Forall (fun x => length x = n) xs -> length (mjoin xs) = n * length xs.
Proof.
  clear. induction 1 as [|x xs Hx _ IH]; simpl; [lia|]. rewrite length_app, IH. lia.
Qed.

Lemma Code_object_length (padding : nat -> Byte.byte) (c : Code) :
  length (Code_object padding c) = sizeof_Code.
Proof.
  clear. unfold Code_object, sizeof_Code, integer_bytes. simpl.
  by rewrite length_app, !length_fmap, !length_seq.
Qed.

Lemma codes_object_chunks (padding : nat -> nat -> Byte.byte) (cs : list Code) :
  Forall (fun x => length x = sizeof_Code)
         (imap (fun i c => Code_object (padding i) c) cs).
Proof.
  clear. apply Forall_forall. intros x Hx.
  apply list_elem_of_lookup in Hx as [i Hi]. rewrite list_lookup_imap in Hi.
  destruct (cs !! i); [|done]. injection Hi as <-. apply Code_object_length.
Qed.

Lemma codes_object_length (padding : nat -> nat -> Byte.byte) (t : CodeTable) :
  length (codes_object padding t) = sizeof_Code * length (codes t).
Proof.
  clear. unfold codes_object.
  by rewrite (join_chunks_length sizeof_Code), length_imap by apply codes_object_chunks.
Qed.

Lemma code_bytes_pos : 1 <= code_bytes.
Proof.
  unfold code_bytes.
  assert (1 <= (code_bits + 7) / 8)%Z by (apply Z.div_le_lower_bound; lia). lia.
Qed.

(** The bytes of the fields give the fields back. *)
Lemma Code_object_inj (p q : nat -> Byte.byte) (c c' : Code) :
  codelength c < 256 -> codelength c' < 256 ->
  (0 <= code c < 256)%Z -> (0 <= code c' < 256)%Z ->
  Code_object p c = Code_object q c' -> c = c'.
Proof.
  intros Hl Hl' Hc Hc' Heq. unfold Code_object in Heq.
  injection Heq as Hlen Hrest.
  apply app_inj_1 in Hrest as [_ Hcode]; [|by rewrite !length_fmap].
  pose proof code_bytes_pos as Hpos. unfold integer_bytes in Hcode.
  destruct code_bytes as [|m]; [lia|]. cbn [seq fmap list_fmap] in Hcode.
  injection Hcode as Hhead _.
  apply (f_equal Byte.to_nat) in Hlen, Hhead.
  rewrite !byte_of_nat_to_nat in Hlen by done.
  change (8 * Z.of_nat 0)%Z with 0%Z in Hhead. rewrite !Z.shiftr_0_r in Hhead.
  rewrite !Z.mod_small in Hhead by done.
  rewrite !byte_of_nat_to_nat in Hhead by lia.
  destruct c, c'. simpl in *. f_equal; lia.
Qed.

Lemma canonical_codes_range (cells : list LeafCell) :
  length cells <= ALPHABET_SIZE ->
  Forall (fun k => 0 <= code k < 256)%Z (canonical_codes cells).
Proof.
  intros Hlen. destruct cells as [|c cs]; [constructor|]. cbn [canonical_codes].
  constructor; [simpl; lia|]. simpl in Hlen. rewrite ALPHABET_SIZE_eq in Hlen.
  assert (2 ^ 8 <= 2 ^ code_bits)%Z by (apply Z.pow_le_mono_r; lia).
  destruct (walk_canon (depth <$> cs) (CodeMake (depth c) 0) 0) as [_ Hall];
    [simpl; lia|rewrite length_fmap; lia|].
  eapply Forall_impl; [exact Hall|]. intros k. rewrite length_fmap. simpl. lia.
Qed.

(** Both constructors end in [_buildTable] on leaves with distinct symbols
    and depths that fit a character. *)
Lemma constructed_depths (t : CodeTable) :
  constructed t ->
  exists st : Store,
    NoDup (element <$> cells_of st (seq 0 (length st))) /\
    Forall (fun c => element c < ALPHABET_SIZE) (cells_of st (seq 0 (length st))) /\
    Forall (fun c => depth c < 256) st /\
    _buildTable st (std_sort (_LeafComparator st) (seq 0 (length st))) zero_table = Ok t.
Proof.
  intros [[data Ht]|[file_data Ht]].
  - destruct (CodeTableAdapter_data_built data t Ht)
      as (st & Hres & _ & Hb & Hnd & Hsyms & _ & _ & Hcase).
    exists st. split_and!; [done..| |done].
    destruct Hcase as [[Hlen2 _]|(c1 & -> & Hc1)].
    + destruct (resolve_run data st _ Hres Hlen2)
        as (tree & k & root & _ & _ & _ & _ & _ & _ & _ & Hok).
      assert (length st <= ALPHABET_SIZE) as Hn.
      { rewrite <- (length_fmap element).
        apply NoDup_bounded_length; [by rewrite cells_of_seq in Hnd|].
        rewrite cells_of_seq in Hsyms. by rewrite Forall_fmap. }
      apply Forall_forall. intros cell Hcell.
      destruct (forest_single_depth root st cell Hok Hcell) as (p & Hp & Hpd).
      pose proof (leaf_depths_height root) as Hh. rewrite Forall_forall in Hh.
      specialize (Hh _ Hpd). simpl in Hh.
      pose proof (height_lt_leaves root) as Hlt.
      destruct Hok as [Hptrs _]. csimpl in Hptrs. rewrite app_nil_r in Hptrs.
      rewrite Hptrs, length_seq in Hlt. rewrite ALPHABET_SIZE_eq in Hn. lia.
    + apply Forall_singleton. lia.
  - apply CodeTableAdapter_lengths_spec in Ht as (Hlen & _ & Hb).
    eexists. rewrite cells_of_seq. split_and!; [| | |exact Hb].
    + apply length_cells_nodup.
    + apply length_cells_syms.
    + apply Forall_forall. intros c Hc. apply length_cells_elem in Hc as (Hlt & _ & ->).
      destruct (lookup_lt_is_Some_2 file_data (element c)) as [b Hb']; [by rewrite Hlen|].
      assert ((Byte.to_nat <$> file_data) !! element c = Some (Byte.to_nat b)) as Hn
          by (by rewrite list_lookup_fmap, Hb').
      rewrite (list_lookup_total_correct _ _ _ Hn).
      pose proof (Byte.to_nat_bounded b). lia.
Qed.

(** The fields of a built table fit their bytes. *)
Lemma constructed_code_range (t : CodeTable) (s : nat) (k : Code) :
  constructed t -> codes t !! s = Some k ->
  codelength k < 256 /\ (0 <= code k < 256)%Z.
Proof.
  intros Hc Hs. destruct (constructed_depths t Hc) as (st & Hnd & Hsyms & Hd & Hb).
  set (leaves := seq 0 (length st)) in *.
  assert (s < ALPHABET_SIZE) as Hlt.
  { rewrite <- (built_length st leaves Hnd Hsyms t Hb). by eapply lookup_lt_Some. }
  destruct (decide (s ∈ element <$> sorted_cells st leaves)) as [Hin|Hnotin].
  - apply list_elem_of_fmap in Hin as (c & -> & Hin).
    apply list_elem_of_lookup in Hin as [i Hi].
    destruct (built_lookup st leaves Hnd Hsyms t Hb i c Hi) as (k' & Hk' & Hlen & Hlook).
    rewrite Hs in Hlook. injection Hlook as <-. split.
    + rewrite Hlen. rewrite Forall_forall in Hd. apply Hd.
      rewrite <- (cells_of_seq st). fold leaves.
      rewrite <- sorted_cells_Permutation. by eapply list_elem_of_lookup_2.
    + pose proof (canonical_codes_range (sorted_cells st leaves)
                    (sorted_length st leaves Hnd Hsyms)) as Hall.
      rewrite Forall_forall in Hall. apply Hall. by eapply list_elem_of_lookup_2.
  - rewrite sorted_cells_Permutation in Hnotin.
    rewrite (built_other st leaves Hnd Hsyms t Hb s Hlt Hnotin) in Hs.
    injection Hs as <-. simpl. lia.
Qed.

(** X7.  The accessors of a built table, and [operator==], which compares
    the two arrays byte by byte as they lie in memory.  [at] and
    [operator[]] return the entry of every index below 256 and fail their
    assertion on any other index.  When [operator==] holds, whatever the
    padding bytes are, the two tables have the same entry at every index,
    and the same [info()], which is not compared.  Two tables with the same
    entry at every index are equal for [operator==] when their padding bytes
    are the same as well. *)
Theorem operator_eq_constructed (left_padding right_padding : nat -> nat -> Byte.byte)
        (l r : CodeTable) :
  constructed l -> constructed r ->
  (forall i, i < ALPHABET_SIZE ->
             exists c, codes l !! i = Some c /\ CodeTableAdapter_at l i = Ok c /\
                       operator_index l i = Ok c) /\
  (forall i, ALPHABET_SIZE <= i -> operator_index l i = Err AssertionFailed) /\
  (operator_eq left_padding right_padding l r = true ->
   (forall i, i < ALPHABET_SIZE -> operator_index l i = operator_index r i) /\
   CodeTableAdapter_info l = CodeTableAdapter_info r /\ c_table l = c_table r) /\
  ((forall i, i < ALPHABET_SIZE -> operator_index l i = operator_index r i) ->
   (forall i j, i < ALPHABET_SIZE -> j < padding_bytes ->
                left_padding i j = right_padding i j) ->
   operator_eq left_padding right_padding l r = true).
Proof.
  intros Hl Hr.
  destruct (constructed_max_codelength l Hl) as (Hlenl & (sl & cl & Hsl & Hcl) & Hmaxl).
  destruct (constructed_max_codelength r Hr) as (Hlenr & (sr & cr & Hsr & Hcr) & Hmaxr).
  assert (forall t i, i < ALPHABET_SIZE ->
                      operator_index t i = Ok (codes t !!! i)) as Hindex.
  { intros t i Hi. unfold operator_index, CodeTableAdapter_at.
    by rewrite (assert_true (i <? ALPHABET_SIZE)) by (by apply Nat.ltb_lt). }
  assert ((forall i, i < ALPHABET_SIZE -> operator_index l i = operator_index r i) ->
          codes l = codes r) as Hcodes.
  { intros Hall. apply list_eq_same_length with ALPHABET_SIZE; [done..|].
    intros i x y Hi Hx Hy. specialize (Hall i Hi). rewrite !Hindex in Hall by done.
    rewrite (list_lookup_total_correct _ _ _ Hx) in Hall.
    rewrite (list_lookup_total_correct _ _ _ Hy) in Hall. by injection Hall. }
  assert (forall p t, length (codes t) = ALPHABET_SIZE ->
                      take (sizeof_Code * ALPHABET_SIZE) (codes_object p t)
                      = codes_object p t) as Htake.
  { intros p t Hlen. apply take_ge. rewrite codes_object_length, Hlen. lia. }
  assert (operator_eq left_padding right_padding l r = true <->
          codes_object left_padding l = codes_object right_padding r) as Heqb.
  { unfold operator_eq. rewrite Z.eqb_eq, memcmp_zero, !Htake by
        (done || (rewrite codes_object_length; lia)). done. }
  split_and!.
  - intros i Hi. destruct (lookup_lt_is_Some_2 (codes l) i) as [c Hc]; [lia|].
    exists c. pose proof (Hindex l i Hi) as Hop.
    rewrite (list_lookup_total_correct _ _ _ Hc) in Hop. done.
  - intros i Hi. unfold operator_index, CodeTableAdapter_at.
    by rewrite (proj2 (Nat.ltb_ge _ _) Hi).
  - rewrite Heqb. intros Hobj. unfold codes_object in Hobj.
    apply (join_chunks_inj sizeof_Code) in Hobj;
      [|apply codes_object_chunks..|rewrite !length_imap; lia].
    assert (codes l = codes r) as Heq.
    { apply list_eq_same_length with ALPHABET_SIZE; [done..|].
      intros i x y Hi Hx Hy.
      apply (f_equal (fun o => o !! i)) in Hobj.
      rewrite !list_lookup_imap, Hx, Hy in Hobj. apply (inj Some) in Hobj.
      destruct (constructed_code_range l i x Hl Hx).
      destruct (constructed_code_range r i y Hr Hy).
      by eapply Code_object_inj. }
    assert (max_codelength (info l) = max_codelength (info r)) as Hinfo.
    { rewrite Heq in Hsl, Hmaxl. apply Hmaxr in Hsl. apply Hmaxl in Hsr. lia. }
    assert (info l = info r) as Hi.
    { destruct (info l), (info r). simpl in Hinfo. by subst. }
    split_and!.
    + intros i Hlt. by rewrite !Hindex, Heq.
    + done.
    + unfold c_table. destruct l, r. simpl in *. by subst.
  - intros Hall Hpad. apply Heqb. unfold codes_object. rewrite (Hcodes Hall).
    f_equal. apply imap_ext. intros i c Hc. simpl. unfold Code_object. do 2 f_equal.
    apply list_fmap_ext. intros j x Hj. apply lookup_seq in Hj as [-> Hj].
    apply Hpad; [|done]. apply lookup_lt_Some in Hc. lia.
Qed.
End Phuffman.

(** * Two implementations of [std::sort]

    [std::sort] is not a stable sort, and the constructors call it with
    comparators that leave some elements unordered.  What follows compares
    the program linked with one implementation to the program linked with
    another. *)

Section sorters.
Variable code_bits : Z.
Variables MAXIMUM_CODELENGTH MAXIMUM_DATABLOCK_SIZE : nat.
Variables sorter1 sorter2 : StdSort.

Lemma sorted_unique {A : Type} (R : relation A) (l1 l2 : list A) :
  (forall x y, x ∈ l1 -> y ∈ l1 -> R x y -> R y x -> x = y) ->
  StronglySorted R l1 -> StronglySorted R l2 -> l1 ≡ₚ l2 -> l1 = l2.
Proof.
  revert l2. induction l1 as [|x l1 IH]; intros l2 Hanti Hs1 Hs2 Hperm.
  - symmetry. apply Permutation_nil_r. by symmetry.
  - destruct l2 as [|y l2]; [by apply Permutation_nil_r in Hperm|].
    apply StronglySorted_inv in Hs1 as [Hs1 Hx].
    apply StronglySorted_inv in Hs2 as [Hs2 Hy].
    rewrite Forall_forall in Hx, Hy.
    assert (x = y) as ->.
    { assert (y ∈ x :: l1) as Hy1 by (rewrite Hperm; left).
      assert (x ∈ y :: l2) as Hx2 by (rewrite <- Hperm; left).
      apply elem_of_cons in Hy1 as [->|Hy1]; [done|].
      apply elem_of_cons in Hx2 as [->|Hx2]; [done|].
      apply Hanti; [left|by right|by apply Hx|by apply Hy]. }
    f_equal. apply IH; [|done|done|by apply Permutation_cons_inv in Hperm].
    intros a b Ha Hb. apply Hanti; by right.
Qed.

(** Where the comparator leaves no two elements unordered, every
    implementation returns the same sequence. *)
Lemma std_sort_unique {A : Type} (comp : A -> A -> bool) (l : list A) :
  StrictWeakOrder comp ->
  (forall x y, x ∈ l -> y ∈ l -> comp x y = false -> comp y x = false -> x = y) ->
  @std_sort sorter1 A comp l = @std_sort sorter2 A comp l.
Proof.
  intros Hswo Hanti. apply (sorted_unique (not_after comp)).
  - intros x y Hx Hy Hxy Hyx. rewrite std_sort_Permutation in Hx, Hy.
    by apply Hanti.
  - by apply std_sort_sorted.
  - by apply std_sort_sorted.
  - by rewrite !std_sort_Permutation.
Qed.

Lemma leaves_sort_unique (st : Store) :
  NoDup (element <$> st) ->
  @std_sort sorter1 nat (_LeafComparator st) (seq 0 (length st)) =
  @std_sort sorter2 nat (_LeafComparator st) (seq 0 (length st)).
Proof.
  intros Hnd. apply std_sort_unique; [apply _LeafComparator_swo|].
  intros x y Hx Hy Hxy Hyx. apply elem_of_seq in Hx, Hy.
  apply _LeafComparator_false in Hxy, Hyx.
  destruct (lookup_lt_is_Some_2 st x) as [cx Hcx]; [lia|].
  destruct (lookup_lt_is_Some_2 st y) as [cy Hcy]; [lia|].
  rewrite (list_lookup_total_correct _ _ _ Hcx) in Hxy, Hyx.
  rewrite (list_lookup_total_correct _ _ _ Hcy) in Hxy, Hyx.
  apply (NoDup_lookup (element <$> st) x y (element cx)); [done|..].
  - by rewrite list_lookup_fmap, Hcx.
  - rewrite list_lookup_fmap, Hcy. simpl. f_equal. lia.
Qed.

(** X15.  The constructor from a length descriptor does not depend on the
    implementation of [std::sort]: the symbols are distinct, so
    [_LeafComparator] leaves no two leaves unordered, and the result, a
    table or a failure, is the same with every implementation. *)
Theorem CodeTableAdapter_lengths_any_sort (file_data : list Byte.byte) :
  @CodeTableAdapter_lengths code_bits MAXIMUM_CODELENGTH sorter1 file_data =
  @CodeTableAdapter_lengths code_bits MAXIMUM_CODELENGTH sorter2 file_data.
Proof.
  unfold CodeTableAdapter_lengths.
  destruct (assert (length file_data =? ALPHABET_SIZE)) as [[]|e]; [|done].
  rewrite !bind_Ok_l.
  destruct (for_each _ _ _) as [[st leaves]|e] eqn:Hloop; [|done].
  rewrite !bind_Ok_l.
  apply push_length_loop in Hloop as (_ & -> & ->).
  rewrite !app_nil_l. cbn [length].
  rewrite leaves_sort_unique; [done|]. apply length_cells_nodup.
Qed.

Hypothesis code_bits_ge : (8 <= code_bits)%Z.
Hypothesis MAXIMUM_CODELENGTH_le : (Z.of_nat MAXIMUM_CODELENGTH <= code_bits)%Z.

(** The frequencies in ascending order are the same with every
    implementation; which symbol has which of two equal frequencies is not. *)
Lemma _countFrequencies_any_sort (data : list Byte.byte) :
  frequency <$> @_countFrequencies sorter1 data =
  frequency <$> @_countFrequencies sorter2 data.
Proof.
  clear code_bits_ge MAXIMUM_CODELENGTH_le.
  assert (forall s : StdSort,
            StronglySorted le (frequency <$> @_countFrequencies s data)) as Hsorted.
  { intros s. unfold _countFrequencies.
    apply (StronglySorted_fmap _ (not_after _FrequencyComparator)).
    - intros x y. unfold not_after, _FrequencyComparator. rewrite Nat.ltb_ge. lia.
    - apply std_sort_sorted, _FrequencyComparator_swo. }
  apply (sorted_unique le); [lia|apply Hsorted..|].
  unfold _countFrequencies. by rewrite !std_sort_Permutation.
Qed.

(** The depths of the leaves, in the order of the frequencies, are the same
    with every implementation. *)
Lemma resolve_any_sort (data : list Byte.byte) (st1 : Store) (leaves1 : Nodes) :
  @resolve sorter1 data = Ok (st1, leaves1) ->
  exists st2 leaves2,
    @resolve sorter2 data = Ok (st2, leaves2) /\
    depth <$> st1 = depth <$> st2.
Proof.
  clear code_bits_ge MAXIMUM_CODELENGTH_le.
  pose proof (_countFrequencies_any_sort data) as Hfreq.
  unfold resolve.
  set (fs1 := @_countFrequencies sorter1 data) in *.
  set (fs2 := @_countFrequencies sorter2 data) in *.
  assert (length fs1 = length fs2) as Hlen
      by (by rewrite <- (length_fmap frequency fs1), Hfreq, length_fmap).
  pose proof (push_frequency_tree MAXIMUM_CODELENGTH fs1 fs2 [] [] [] [] [] Hfreq eq_refl)
    as Htree.
  destruct (push_frequency_loop fs1 [] [] []) as (tree1 & Heq1 & _).
  destruct (push_frequency_loop fs2 [] [] []) as (tree2 & Heq2 & _).
  rewrite Heq1, Heq2 in Htree |- *. simpl in Htree. subst tree2.
  rewrite !app_nil_l. cbn [length].
  set (st01 := (fun f => {| element := symbol f; depth := 0 |}) <$> fs1).
  set (st02 := (fun f => {| element := symbol f; depth := 0 |}) <$> fs2).
  assert (depth <$> st01 = depth <$> st02) as Hd0.
  { unfold st01, st02. apply list_eq. intros i. rewrite !list_lookup_fmap.
    destruct (decide (i < length fs1)) as [Hi|Hi].
    - destruct (lookup_lt_is_Some_2 fs1 i Hi) as [f1 ->].
      destruct (lookup_lt_is_Some_2 fs2 i) as [f2 ->]; [lia|done].
    - by rewrite !lookup_ge_None_2 by lia. }
  destruct (1 <? length tree1).
  - intros Hres. apply bind_Ok in Hres as ([root st1'] & Hbuild & [= <- <-]).
    unfold _buildTree in Hbuild |- *.
    apply bind_Ok in Hbuild as ([tree' st1''] & Hrun & Hbuild).
    destruct (_buildTree_loop_depths _ _ _ _ _ st02 Hd0 Hrun) as (st2' & -> & Hd).
    rewrite bind_Ok_l.
    apply bind_Ok in Hbuild as (u & Hone & Hbuild). rewrite Hone, bind_Ok_l.
    destruct tree' as [|[k root'] tree']; [done|]. injection Hbuild as <- <-.
    rewrite bind_Ok_l. by eexists _, _.
  - destruct tree1 as [|[k root] tree1]; [done|].
    destruct root as [p|l r]; simpl; [|done].
    intros [= <- <-]. eexists _, _. split; [done|].
    rewrite !(list_fmap_alter depth (set_depth 1) (fun _ => 1))
      by (by apply Forall_true).
    by rewrite Hd0.
Qed.

(** X16.  What the constructor from raw data owes to the implementation of
    [std::sort].  If it builds a table with one implementation, it builds a
    table with every other; the two tables may give different codes to
    symbols of equal frequency, but they spend the same number of code bits
    on the buffer and have the same [max_codelength]. *)
Theorem CodeTableAdapter_data_any_sort (data : list Byte.byte) (t1 : CodeTable) :
  @CodeTableAdapter_data code_bits MAXIMUM_CODELENGTH MAXIMUM_DATABLOCK_SIZE
                         sorter1 data = Ok t1 ->
  exists t2,
    @CodeTableAdapter_data code_bits MAXIMUM_CODELENGTH MAXIMUM_DATABLOCK_SIZE
                           sorter2 data = Ok t2 /\
    sum_list_with (fun b => codelength (codes t1 !!! Byte.to_nat b)) data =
    sum_list_with (fun b => codelength (codes t2 !!! Byte.to_nat b)) data /\
    max_codelength (info t1) = max_codelength (info t2).
Proof.
  intros Ht1.
  destruct (CodeTableAdapter_data_built _ _ _ data t1 Ht1)
    as (st1 & Hres1 & Hsize & Hb1 & Hnd1 & Hsyms1 & _ & _ & Hkraft1).
  destruct (resolve_any_sort data st1 _ Hres1) as (st2 & leaves2 & Hres2 & Hd).
  assert (data ≠ []) as Hdata.
  { intros ->. by rewrite (resolve_nil MAXIMUM_CODELENGTH) in Hres1. }
  assert (length st1 = length st2) as Hlen
      by (by rewrite <- (length_fmap depth st1), Hd, length_fmap).
  assert (exists t2, @CodeTableAdapter_data code_bits MAXIMUM_CODELENGTH
                       MAXIMUM_DATABLOCK_SIZE sorter2 data = Ok t2) as [t2 Ht2].
  { apply (CodeTableAdapter_data_Ok _ _ _ code_bits_ge MAXIMUM_CODELENGTH_le
             data st2 leaves2 Hsize Hdata Hres2).
    intros Hlen2.
    destruct (resolve_spec MAXIMUM_CODELENGTH data Hdata) as (st2' & Hres2' & _).
    rewrite Hres2 in Hres2'. injection Hres2' as <- ->.
    rewrite (cells_of_seq MAXIMUM_CODELENGTH).
    apply (Forall_fmap depth (fun d => d < MAXIMUM_CODELENGTH)). rewrite <- Hd.
    apply (Forall_fmap depth (fun d => d < MAXIMUM_CODELENGTH)).
    rewrite <- (cells_of_seq MAXIMUM_CODELENGTH st1).
    apply (built_below_max _ _ code_bits_ge _ _ t1 Hnd1 Hsyms1 Hb1). left.
    rewrite length_seq, (cells_of_seq MAXIMUM_CODELENGTH).
    destruct Hkraft1 as [[_ Hk]|(c & -> & _)]; [|simpl in Hlen; lia].
    split; [lia|done]. }
  exists t2. split; [done|].
  destruct (CodeTableAdapter_data_built _ _ _ data t2 Ht2)
    as (st2' & Hres2' & _ & Hb2 & Hnd2 & Hsyms2 & _ & _ & _).
  rewrite Hres2 in Hres2'. injection Hres2' as <- ->.
  split.
  - rewrite (table_bits _ _ _ code_bits_ge data t1 st1 Ht1 Hres1).
    rewrite (table_bits _ _ _ code_bits_ge data t2 st2 Ht2 Hres2).
    by rewrite _countFrequencies_any_sort, Hd.
  - destruct (built_max_codelength _ _ code_bits_ge _ _ Hnd1 Hsyms1 t1 Hb1)
      as (c1 & cs1 & Heq1 & -> & Hle1).
    destruct (built_max_codelength _ _ code_bits_ge _ _ Hnd2 Hsyms2 t2 Hb2)
      as (c2 & cs2 & Heq2 & -> & Hle2).
    rewrite <- Heq1 in Hle1. rewrite <- Heq2 in Hle2.
    rewrite sorted_cells_Permutation, (cells_of_seq MAXIMUM_CODELENGTH) in Hle1.
    rewrite sorted_cells_Permutation, (cells_of_seq MAXIMUM_CODELENGTH) in Hle2.
    apply (Forall_fmap depth (fun d => d <= depth c1)) in Hle1.
    apply (Forall_fmap depth (fun d => d <= depth c2)) in Hle2.
    rewrite Forall_forall in Hle1, Hle2.
    assert (depth c1 ∈ depth <$> st1) as Hc1.
    { apply list_elem_of_fmap. exists c1. split; [done|].
      rewrite <- (cells_of_seq MAXIMUM_CODELENGTH st1),
        <- (@sorted_cells_Permutation sorter1), Heq1.
      left. }
    assert (depth c2 ∈ depth <$> st2) as Hc2.
    { apply list_elem_of_fmap. exists c2. split; [done|].
      rewrite <- (cells_of_seq MAXIMUM_CODELENGTH st2),
        <- (@sorted_cells_Permutation sorter2), Heq2.
      left. }
    rewrite Hd in Hc1. rewrite <- Hd in Hc2.
    apply Hle2 in Hc1. apply Hle1 in Hc2. lia.
Qed.

End sorters.

#[local] Transparent ALPHABET_SIZE.

(** * Examples

    A configuration for running the model: patterns in 32-bit words,
    codelengths below 32, blocks of at most 4096 bytes, and stdpp's merge
    sort as [std::sort]. *)

Definition example_code_bits : Z := 32.
Definition example_MAXIMUM_CODELENGTH : nat := 32.
Definition example_MAXIMUM_DATABLOCK_SIZE : nat := 4096.
Definition example_word_bits : nat := 32.

Definition build_from_data : list Byte.byte -> result CodeTable :=
  CodeTableAdapter_data example_code_bits example_MAXIMUM_CODELENGTH
                        example_MAXIMUM_DATABLOCK_SIZE.

Definition build_from_lengths : list Byte.byte -> result CodeTable :=
  CodeTableAdapter_lengths example_code_bits example_MAXIMUM_CODELENGTH.

(** The example of the spec: three times [A], twice [B], once [C]. *)
Definition sample_data : list Byte.byte :=
  [Byte.x41; Byte.x41; Byte.x41; Byte.x42; Byte.x42; Byte.x43].

Definition sample_table : CodeTable :=
  Eval vm_compute in
    match build_from_data sample_data with
    | Ok t => t
    | Err _ => zero_table
    end.

(** The leaves the resolver leaves behind for [sample_data]. *)
Definition sample_store : Store :=
  [ {| element := 67; depth := 2 |};
    {| element := 66; depth := 2 |};
    {| element := 65; depth := 1 |} ].

(** A length descriptor that satisfies Kraft's inequality without being
    complete: symbol 0 has length 2, symbol 1 has length 1. *)
Definition incomplete_descriptor : list Byte.byte :=
  <[0 := Byte.x02]> (<[1 := Byte.x01]> (replicate ALPHABET_SIZE Byte.x00)).

Ltac by_compute :=
  match goal with |- ?P => apply (bool_decide_unpack P); vm_compute; exact I end.

Example sample_table_codes :
  build_from_data sample_data = Ok sample_table /\
  codes sample_table !! 65 = Some (CodeMake 1 1) /\
  codes sample_table !! 66 = Some (CodeMake 2 0) /\
  codes sample_table !! 67 = Some (CodeMake 2 1) /\
  max_codelength (info sample_table) = 2.
Proof. by vm_compute. Qed.

Example sample_resolve :
  resolve sample_data = Ok (sample_store, [0; 1; 2]).
Proof. by vm_compute. Qed.

(** Another implementation of [std::sort]: the same merge sort, started
    from a rotation of the input.  It meets the contract, and orders
    elements that the comparator leaves unordered differently. *)
Definition rotated_StdSort : StdSort.
Proof.
  refine {| std_sort := fun A comp l =>
                          merge_sort (not_after comp) (drop 1 l ++ take 1 l) |}.
  - intros A comp l. rewrite merge_sort_Permutation.
    rewrite (comm (++)). by rewrite take_drop.
  - intros A comp l Hswo.
    exact (@std_sort_sorted merge_StdSort A comp (drop 1 l ++ take 1 l) Hswo).
Defined.

(** Three byte values of the same frequency. *)
Definition abc_data : list Byte.byte := [Byte.x41; Byte.x42; Byte.x43].

Definition abc_table : CodeTable :=
  Eval vm_compute in
    match build_from_data abc_data with
    | Ok t => t
    | Err _ => zero_table
    end.

(** The table of the sample, built again from its 256 codelengths. *)
Definition rebuilt_table : CodeTable :=
  Eval vm_compute in
    match build_from_lengths (operator_lshift sample_table) with
    | Ok t => t
    | Err _ => zero_table
    end.

(** Padding bytes that are all zero, and padding bytes that are zero except
    in the entry of [A]. *)
Definition zero_padding : nat -> nat -> Byte.byte := fun _ _ => Byte.x00.

Definition stale_padding : nat -> nat -> Byte.byte :=
  fun i _ => if i =? 65 then Byte.xff else Byte.x00.

(** A forest of three leaves with the weights 1, 2 and 3. *)
Definition small_tree : Tree := [(1, Leaf 0); (2, Leaf 1); (3, Leaf 2)].

Definition small_store : Store :=
  [ {| element := 65; depth := 0 |};
    {| element := 66; depth := 0 |};
    {| element := 67; depth := 0 |} ].

(** Two tables with the same entries are equal for [operator==] when their
    padding bytes agree, and different when one padding byte differs. *)
Example padding_decides_operator_eq :
  rebuilt_table = sample_table /\
  operator_eq example_code_bits zero_padding zero_padding sample_table rebuilt_table
  = true /\
  operator_eq example_code_bits zero_padding stale_padding sample_table rebuilt_table
  = false.
Proof. by vm_compute. Qed.

(** With three symbols of the same frequency the implementation of
    [std::sort] decides which of them gets the code of length 1. *)
Example sort_decides_ties :
  build_from_data abc_data = Ok abc_table /\
  codelength (codes abc_table !!! 66) = 1 /\
  exists t,
    @CodeTableAdapter_data example_code_bits example_MAXIMUM_CODELENGTH
      example_MAXIMUM_DATABLOCK_SIZE rotated_StdSort abc_data = Ok t /\
    codelength (codes t !!! 66) = 2 /\ codelength (codes t !!! 67) = 1.
Proof.
  split; [by vm_compute|]. split; [by vm_compute|].
  eexists. split; [by vm_compute|]. by vm_compute.
Qed.

(** The codelength assertion of [_buildTable] fires when a block can hold
    [fib (MAXIMUM_CODELENGTH + 2)] bytes: with a limit of 2 the three bytes
    [A], [B], [C] ask for the lengths 2, 2 and 1. *)
Example codelength_assertion_fires :
  CodeTableAdapter_data 32 2 3 [Byte.x41; Byte.x42; Byte.x43]
  = Err AssertionFailed.
Proof. by vm_compute. Qed.

(** ** Witnesses *)

Lemma canonical_code_assignment_witness :
  let sorted := cells_of sample_store (std_sort (_LeafComparator sample_store) [0; 1; 2]) in
  sorted ≡ₚ cells_of sample_store [0; 1; 2] /\
  (forall i j a b, i < j -> sorted !! i = Some a -> sorted !! j = Some b ->
     depth b <= depth a /\ (depth a = depth b -> element a < element b)) /\
  exists t,
    _buildTable example_code_bits example_MAXIMUM_CODELENGTH sample_store
      (std_sort (_LeafComparator sample_store) [0; 1; 2]) zero_table = Ok t /\
    (forall a, sorted !! 0 = Some a ->
       codes t !! element a = Some (CodeMake (depth a) 0) /\
       max_codelength (info t) = depth a) /\
    (forall i a b ka,
       sorted !! i = Some a -> sorted !! S i = Some b ->
       codes t !! element a = Some ka ->
       codes t !! element b =
       Some (CodeMake (depth b)
               (if depth b =? depth a then (code ka + 1)%Z
                else Z.shiftr (code ka + 1) (Z.of_nat (depth a - depth b))))).
Proof.
  apply (canonical_code_assignment example_code_bits example_MAXIMUM_CODELENGTH
           ltac:(by vm_compute) ltac:(by vm_compute) sample_store [0; 1; 2]).
  - done.
  - by_compute.
  - by_compute.
Defined.

Lemma round_trip_via_lengths_witness :
  build_from_data sample_data = Ok sample_table /\
  exists t',
    build_from_lengths (operator_lshift sample_table) = Ok t' /\ t' = sample_table.
Proof.
  split; [by vm_compute|].
  apply (round_trip_via_lengths example_code_bits example_MAXIMUM_CODELENGTH
           example_MAXIMUM_DATABLOCK_SIZE ltac:(by vm_compute)
           ltac:(unfold example_MAXIMUM_CODELENGTH; lia) sample_data sample_table).
  - done.
  - vm_compute. lia.
  - by vm_compute.
Defined.

Lemma decode_correct_witness :
  build_from_data sample_data = Ok sample_table /\
  Decode example_word_bits sample_table
         (Encode example_word_bits sample_table sample_data) = Ok sample_data.
Proof.
  split; [by vm_compute|].
  apply (decode_correct example_code_bits example_MAXIMUM_CODELENGTH
           example_MAXIMUM_DATABLOCK_SIZE example_word_bits ltac:(by vm_compute)
           ltac:(unfold example_word_bits; lia) sample_data sample_table).
  - done.
  - vm_compute. lia.
  - by vm_compute.
Defined.

Lemma prefix_free_complete_witness :
  build_from_data sample_data = Ok sample_table /\ prefix_free sample_table.
Proof.
  split; [by vm_compute|].
  destruct (prefix_free_complete example_code_bits example_MAXIMUM_CODELENGTH
              example_MAXIMUM_DATABLOCK_SIZE ltac:(by vm_compute)) as [_ Hdata].
  apply (Hdata sample_data). by vm_compute.
Defined.

Lemma resolver_kraft_witness :
  exists st leaves,
    resolve sample_data = Ok (st, leaves) /\
    (kraft_sum (depth <$> cells_of st leaves) <= 1)%Q /\
    forall t, build_from_data sample_data = Ok t ->
              (kraft_sum (assigned_lengths t) <= 1)%Q.
Proof.
  apply (resolver_kraft example_code_bits example_MAXIMUM_CODELENGTH
           example_MAXIMUM_DATABLOCK_SIZE ltac:(by vm_compute) sample_data).
  done.
Defined.

Lemma single_symbol_witness :
  exists t,
    build_from_data [Byte.x41; Byte.x41; Byte.x41] = Ok t /\
    codes t !! Byte.to_nat Byte.x41 = Some (CodeMake 1 0) /\
    forall s, s < ALPHABET_SIZE -> s ≠ Byte.to_nat Byte.x41 ->
              codes t !! s = Some (CodeMake 0 0).
Proof.
  apply (single_symbol example_code_bits example_MAXIMUM_CODELENGTH
           example_MAXIMUM_DATABLOCK_SIZE ltac:(by vm_compute)
           [Byte.x41; Byte.x41; Byte.x41] Byte.x41).
  - done.
  - by repeat constructor.
  - vm_compute. lia.
Defined.

Lemma max_codelength_is_greatest_witness :
  build_from_data sample_data = Ok sample_table /\
  (exists s c, codes sample_table !! s = Some c /\ codelength c ≠ 0 /\
               codelength c = max_codelength (info sample_table)) /\
  (forall s c, codes sample_table !! s = Some c ->
               codelength c <= max_codelength (info sample_table)).
Proof.
  split; [by vm_compute|].
  destruct (max_codelength_is_greatest example_code_bits example_MAXIMUM_CODELENGTH
              example_MAXIMUM_DATABLOCK_SIZE ltac:(by vm_compute)) as [Hdata _].
  apply (Hdata sample_data). by vm_compute.
Defined.

Lemma construction_completes_witness :
  exists t, build_from_data sample_data = Ok t.
Proof.
  apply (construction_completes example_code_bits example_MAXIMUM_CODELENGTH
           example_MAXIMUM_DATABLOCK_SIZE ltac:(by vm_compute) ltac:(by vm_compute)
           sample_data).
  - done.
  - vm_compute. lia.
  - right. exists sample_store, [0; 1; 2]. split; [by vm_compute|by_compute].
Defined.

Lemma unused_symbols_untouched_witness :
  build_from_data sample_data = Ok sample_table /\
  codes sample_table !! 0 = Some (CodeMake 0 0).
Proof.
  split; [by vm_compute|].
  destruct (unused_symbols_untouched example_code_bits example_MAXIMUM_CODELENGTH
              example_MAXIMUM_DATABLOCK_SIZE ltac:(by vm_compute)) as (Hdata & _ & _).
  apply (Hdata sample_data).
  - by vm_compute.
  - vm_compute. lia.
  - by_compute.
Defined.

Lemma pattern_fits_codelength_witness :
  build_from_data sample_data = Ok sample_table /\
  (0 <= code (codes sample_table !!! 67%nat) <
   2 ^ Z.of_nat (codelength (codes sample_table !!! 67%nat)))%Z.
Proof.
  split; [by vm_compute|].
  destruct (pattern_fits_codelength example_code_bits example_MAXIMUM_CODELENGTH
              example_MAXIMUM_DATABLOCK_SIZE ltac:(by vm_compute)) as [_ Hdata].
  apply (Hdata sample_data sample_table ltac:(by vm_compute) 67).
  - by vm_compute.
  - by vm_compute.
Defined.

(** ** Counterexamples *)

(** C8 as stated: the empty buffer is within the size limit, and the
    constructor dereferences [tree.begin()] of an empty tree on it. *)
Lemma empty_buffer_undefined :
  length (@nil Byte.byte) <= example_MAXIMUM_DATABLOCK_SIZE /\
  build_from_data [] = Err UndefinedBehaviour.
Proof. split; [vm_compute; lia|by vm_compute]. Qed.

(** C3 as stated: for the empty buffer there is no table to encode and
    decode with. *)
Lemma decode_empty_buffer_fails :
  length (@nil Byte.byte) <= example_MAXIMUM_DATABLOCK_SIZE /\
  (build_from_data [] ≫= fun t =>
     Decode example_word_bits t (Encode example_word_bits t []))
  = Err UndefinedBehaviour.
Proof. split; [vm_compute; lia|by vm_compute]. Qed.

(** C4 as stated: lengths 2 and 1 satisfy Kraft's inequality (1/4 + 1/2),
    and the builder gives both symbols pattern 0: the code [0] of symbol 1 is
    a prefix of the code [00] of symbol 0. *)
Lemma prefix_free_counterexample :
  exists t,
    build_from_lengths incomplete_descriptor = Ok t /\
    (kraft_sum (descriptor_lengths incomplete_descriptor) <= 1)%Q /\
    codes t !! 0 = Some (CodeMake 2 0) /\
    codes t !! 1 = Some (CodeMake 1 0) /\
    code_to_bits (CodeMake 1 0) `prefix_of` code_to_bits (CodeMake 2 0) /\
    ¬ prefix_free t.
Proof.
  eexists. split; [by vm_compute|]. split; [by vm_compute|].
  split; [done|]. split; [done|].
  assert (code_to_bits (CodeMake 1 0) `prefix_of` code_to_bits (CodeMake 2 0)) as Hpre
      by (by exists [false]).
  split; [done|]. intros Hfree.
  by apply (Hfree 1 0 (CodeMake 1 0) (CodeMake 2 0)).
Qed.

(** ** Witnesses of the further properties *)

Lemma CodeTableAdapter_lengths_result_witness :
  (exists t, build_from_lengths (operator_lshift sample_table) = Ok t) /\
  build_from_lengths (replicate ALPHABET_SIZE Byte.x00) = Err UndefinedBehaviour /\
  build_from_lengths (<[0 := Byte.x20]> (replicate ALPHABET_SIZE Byte.x00))
  = Err AssertionFailed /\
  build_from_lengths [Byte.x01] = Err AssertionFailed.
Proof.
  pose proof (CodeTableAdapter_lengths_result example_code_bits
                example_MAXIMUM_CODELENGTH ltac:(by vm_compute) ltac:(by vm_compute))
    as Hresult.
  split_and!.
  - destruct (Hresult (operator_lshift sample_table)) as (_ & _ & _ & Hok).
    apply Hok; [by vm_compute|by_compute|by_compute].
  - destruct (Hresult (replicate ALPHABET_SIZE Byte.x00)) as (_ & _ & Hzero & _).
    apply Hzero; [by vm_compute|by_compute].
  - destruct (Hresult (<[0 := Byte.x20]> (replicate ALPHABET_SIZE Byte.x00)))
      as (_ & Hlong & _ & _).
    apply Hlong; [by vm_compute|by_compute].
  - destruct (Hresult [Byte.x01]) as (Hsize & _ & _ & _).
    apply Hsize. by vm_compute.
Defined.

Lemma operator_lshift_of_lengths_witness :
  build_from_lengths incomplete_descriptor ≠ Err AssertionFailed /\
  exists t,
    build_from_lengths incomplete_descriptor = Ok t /\
    operator_lshift t = incomplete_descriptor /\
    build_from_lengths (operator_lshift t) = Ok t.
Proof.
  split; [by vm_compute|]. eexists. split; [by vm_compute|].
  apply (operator_lshift_of_lengths example_code_bits example_MAXIMUM_CODELENGTH
           ltac:(by vm_compute) incomplete_descriptor).
  by vm_compute.
Defined.

Lemma sample_table_constructed :
  constructed example_code_bits example_MAXIMUM_CODELENGTH
              example_MAXIMUM_DATABLOCK_SIZE sample_table.
Proof. left. exists sample_data. by vm_compute. Qed.

Lemma rebuilt_table_constructed :
  constructed example_code_bits example_MAXIMUM_CODELENGTH
              example_MAXIMUM_DATABLOCK_SIZE rebuilt_table.
Proof. right. exists (operator_lshift sample_table). by vm_compute. Qed.

Lemma operator_eq_constructed_witness :
  (forall i, i < ALPHABET_SIZE ->
             operator_index sample_table i = operator_index rebuilt_table i) /\
  CodeTableAdapter_info sample_table = CodeTableAdapter_info rebuilt_table /\
  c_table sample_table = c_table rebuilt_table.
Proof.
  destruct (operator_eq_constructed example_code_bits example_MAXIMUM_CODELENGTH
              example_MAXIMUM_DATABLOCK_SIZE ltac:(by vm_compute)
              zero_padding zero_padding sample_table rebuilt_table
              sample_table_constructed rebuilt_table_constructed)
    as (_ & _ & Hequal & _).
  apply Hequal. by vm_compute.
Defined.

Lemma assigned_iff_occurs_witness :
  0 < codelength (codes sample_table !!! 65) <-> 65 ∈ Byte.to_nat <$> sample_data.
Proof.
  apply (assigned_iff_occurs example_code_bits example_MAXIMUM_CODELENGTH
           example_MAXIMUM_DATABLOCK_SIZE ltac:(by vm_compute) sample_data).
  - by vm_compute.
  - vm_compute. lia.
Defined.

Lemma table_kraft_sum_witness :
  (kraft_sum (assigned_lengths sample_table) == 1)%Q.
Proof.
  apply (table_kraft_sum example_code_bits example_MAXIMUM_CODELENGTH
           example_MAXIMUM_DATABLOCK_SIZE ltac:(by vm_compute) sample_data).
  - by vm_compute.
  - exists Byte.x41, Byte.x42. split_and!; [left|do 3 right; left|done].
Defined.

Lemma canonical_order_witness :
  ((code (CodeMake 2 0) + 1)
   * 2 ^ Z.of_nat (max_codelength (info sample_table) - codelength (CodeMake 2 0))
   <= code (CodeMake 2 1)
      * 2 ^ Z.of_nat (max_codelength (info sample_table) - codelength (CodeMake 2 1)))%Z.
Proof.
  destruct (canonical_order example_code_bits example_MAXIMUM_CODELENGTH
              example_MAXIMUM_DATABLOCK_SIZE ltac:(by vm_compute)) as [Hdata _].
  apply (Hdata sample_data sample_table 66 67).
  - by vm_compute.
  - by vm_compute.
  - by vm_compute.
  - done.
  - done.
  - right. simpl. lia.
Defined.

Lemma _buildTree_root_witness :
  exists root st',
    _buildTree small_tree small_store = Ok (root, st') /\
    leaf_pointers root ≡ₚ seq 0 (length small_store) /\
    (forall p d, (p, d) ∈ leaf_depths root -> depth <$> st' !! p = Some d) /\
    element <$> st' = element <$> small_store.
Proof.
  apply (_buildTree_root example_MAXIMUM_CODELENGTH small_tree small_store).
  - done.
  - done.
  - intros n p d Hn Hpd. simpl in Hn.
    repeat (apply elem_of_cons in Hn as [->|Hn];
            [simpl in Hpd; apply list_elem_of_singleton in Hpd;
             by injection Hpd as -> ->|]).
    by apply elem_of_nil in Hn.
Defined.

Lemma _buildTree_height_witness :
  fib (height (Internal (Leaf 2) (Internal (Leaf 0) (Leaf 1))) + 2)
  <= sum_list_with fst small_tree /\
  height (Internal (Leaf 2) (Internal (Leaf 0) (Leaf 1))) < length small_tree.
Proof.
  apply (_buildTree_height example_MAXIMUM_CODELENGTH (fun p => S p)
           small_tree small_store
           [ {| element := 65; depth := 2 |};
             {| element := 66; depth := 2 |};
             {| element := 67; depth := 1 |} ]).
  - repeat constructor; simpl; lia.
  - repeat constructor; eexists; by split_and!; [reflexivity|simpl|simpl; lia].
  - by vm_compute.
Defined.

Lemma codelength_bounds_witness :
  codelength (CodeMake 2 1) < ALPHABET_SIZE /\
  (codelength (CodeMake 2 1) <= 1 \/
   (fib (codelength (CodeMake 2 1) + 2) <= length sample_data /\
    codelength (CodeMake 2 1) < example_MAXIMUM_CODELENGTH)).
Proof.
  apply (codelength_bounds example_code_bits example_MAXIMUM_CODELENGTH
           example_MAXIMUM_DATABLOCK_SIZE ltac:(by vm_compute)
           sample_data sample_table 67).
  - by vm_compute.
  - by vm_compute.
Defined.

Lemma frequent_symbols_shorter_witness :
  codelength (codes sample_table !!! 65) <= codelength (codes sample_table !!! 67).
Proof.
  apply (frequent_symbols_shorter example_code_bits example_MAXIMUM_CODELENGTH
           example_MAXIMUM_DATABLOCK_SIZE ltac:(by vm_compute) sample_data).
  - by vm_compute.
  - vm_compute. lia.
  - vm_compute. lia.
Defined.

Lemma CodeTableAdapter_data_any_sort_witness :
  exists t2,
    @CodeTableAdapter_data example_code_bits example_MAXIMUM_CODELENGTH
      example_MAXIMUM_DATABLOCK_SIZE rotated_StdSort abc_data = Ok t2 /\
    sum_list_with (fun b => codelength (codes abc_table !!! Byte.to_nat b)) abc_data =
    sum_list_with (fun b => codelength (codes t2 !!! Byte.to_nat b)) abc_data /\
    max_codelength (info abc_table) = max_codelength (info t2).
Proof.
  apply (CodeTableAdapter_data_any_sort example_code_bits example_MAXIMUM_CODELENGTH
           example_MAXIMUM_DATABLOCK_SIZE merge_StdSort rotated_StdSort
           ltac:(by vm_compute) ltac:(by vm_compute) abc_data abc_table).
  by vm_compute.
Defined.

Lemma CodeTableAdapter_data_failures_witness :
  (exists t, build_from_data sample_data = Ok t) \/
  build_from_data sample_data = Err AssertionFailed.
Proof.
  by apply (CodeTableAdapter_data_failures example_code_bits
              example_MAXIMUM_CODELENGTH example_MAXIMUM_DATABLOCK_SIZE
              ltac:(by vm_compute) sample_data).
Defined.

Lemma table_optimal_witness :
  sum_list_with (fun b => codelength (codes sample_table !!! Byte.to_nat b)) sample_data <=
  sum_list_with (fun b => (fun _ => 2) (Byte.to_nat b)) sample_data.
Proof.
  apply (table_optimal example_code_bits example_MAXIMUM_CODELENGTH
           example_MAXIMUM_DATABLOCK_SIZE ltac:(by vm_compute) ltac:(by vm_compute)
           sample_data sample_table (fun _ => 2)).
  - by vm_compute.
  - intros b _. lia.
  - by vm_compute.
Defined.
